(** * PathFinder: grid rasterisation and path queries

    A shallow embedding of the [PathFinder] class of the editor
    (grid buffer, surface rasteriser, graph construction, endpoint
    resolution, world-space projection and nearest-point lookup),
    together with the properties its specification states.

    Numbers.  A coordinate, a height or a size is modelled by an
    exact rational ([Q]): every finite double is a rational.  [NaN]
    and the infinities are not represented there; the few places
    where the source would produce them (a division by zero) are
    pointed out where they occur.  The distances [findNearestPoint]
    compares are doubles ([Double]): they are computed with the
    rounding, the overflow and the underflow of the binary64
    arithmetic. *)

From Stdlib Require Import ZArith QArith Qabs Qminmax Lia Lqa Sorted.
From Stdlib Require Import SpecFloat.
From stdpp Require Import base tactics option functions list strings.

Local Open Scope Z_scope.

(** ** JavaScript numbers used as integers *)

Module Js.

(** Truncation toward zero of a rational. *)
Definition truncate (q : Q) : Z := Z.quot (Qnum q) (Z.pos (Qden q)).

(** [ToInt32] of ECMAScript: truncate, wrap modulo 2^32 and read the
    result as a signed 32-bit integer.  [q >> 0] is [ToInt32 q]. *)
Definition ToInt32 (q : Q) : Z :=
  let m := truncate q mod 2 ^ 32 in
  if m <? 2 ^ 31 then m else m - 2 ^ 32.

(** Exceptions the modelled code can raise. *)
Inductive error : Type := RangeError | TypeError.

Inductive result (A : Type) : Type :=
| Ok (a : A)
| Throw (e : error).
Arguments Ok {A} a.
Arguments Throw {A} e.

Definition bind {A B} (r : result A) (k : A -> result B) : result B :=
  match r with
  | Ok a => k a
  | Throw e => Throw e
  end.

(** A JavaScript array: a list of slots, [None] being a hole, [null]
    or [undefined]. *)
Abbreviation array A := (list (option A)) (only parsing).

(** [new Array(n)]: [n] holes; a length outside [0, 2^32) is a
    [RangeError]. *)
Definition new_Array {A} (n : Z) : result (array A) :=
  if (n <? 0) || (2 ^ 32 <=? n) then Throw RangeError
  else Ok (replicate (Z.to_nat n) None).

(** [a[i]]: [undefined] out of range. *)
Definition get {A} (a : array A) (i : nat) : option A := mjoin (a !! i).

(** [a[i] = v]: in range the slot is replaced, out of range the array
    is extended with holes up to [i]. *)
Definition set {A} (a : array A) (i : nat) (v : A) : array A :=
  if decide (i < length a)%nat then <[i := Some v]> a
  else a ++ replicate (i - length a) None ++ [Some v].

(** [a[i]] for an index computed as a number: [undefined] when it is
    negative. *)
Definition getZ {A} (a : array A) (i : Z) : option A :=
  if i <? 0 then None else get a (Z.to_nat i).

(** [v || d] on an optional number: [undefined] and [0] are falsy. *)
Definition or_default (v : option Q) (d : Q) : Q :=
  match v with
  | Some q => if Qeq_bool q 0 then d else q
  | None => d
  end.

(** [a.push(v)] where [v] may be [null]. *)
Definition push {A} (a : array A) (v : option A) : array A := a ++ [v].

(** [for (let i = 0; i < n; i++) body], threading the state and
    stopping at the first exception. *)
Fixpoint for_from {St} (i n : nat) (body : nat -> St -> result St) (s : St)
  : result St :=
  match n with
  | O => Ok s
  | S n' => bind (body i s) (for_from (S i) n' body)
  end.

Definition for_range {St} (n : Z) (body : nat -> St -> result St) (s : St)
  : result St :=
  for_from 0 (Z.to_nat n) body s.

End Js.

Import Js.

#[global] Instance result_bind : MBind result := fun _ _ k r => Js.bind r k.
#[global] Instance result_ret : MRet result := fun _ a => Ok a.

(** ** JavaScript numbers as doubles

    The binary64 numbers of IEEE 754, with the operations of the
    standard library's specification of the floating-point
    arithmetic: every operation rounds to the nearest double, ties to
    even, overflows to an infinity and underflows to a subnormal or
    to zero. *)

Module Double.

Definition t : Type := spec_float.
Definition prec : Z := 53.
Definition emax : Z := 1024.

Definition add : t -> t -> t := SFadd prec emax.
Definition sub : t -> t -> t := SFsub prec emax.
Definition mul : t -> t -> t := SFmul prec emax.
Definition div : t -> t -> t := SFdiv prec emax.

(** [Math.sqrt] *)
Definition sqrt : t -> t := SFsqrt prec emax.

(** [a < b]: false when one of the two is [NaN]. *)
Definition ltb : t -> t -> bool := SFltb.

(** An integer as a double. *)
Definition of_Z (n : Z) : t := binary_normalize prec emax n 0 false.

(** The double a rational of the model stands for: the double itself
    when the rational is one, as the coordinates of the source are. *)
Definition of_Q (q : Q) : t := div (of_Z (Qnum q)) (of_Z (Z.pos (Qden q))).

(** [Number.MAX_VALUE], the largest finite double:
    [(2^53 - 1) * 2^971]. *)
Definition MAX_VALUE : t := S754_finite false (2 ^ 53 - 1) 971.

End Double.

(** ** Vectors

    The rendering library ([Vector3], [Ray], [BoundingInfo],
    [AbstractMesh], [Scalar]) is not part of the sources: what
    [PathFinder] uses of it is modelled here. *)

Module Vector3.

(** Modelled from the spec: the [Vector3] class of the rendering
    library, a 3D point. *)
Record t : Type := mk { x : Q; y : Q; z : Q }.

(** Modelled from the spec: [Vector3.Zero()] of the rendering library. *)
Definition Zero : t := mk 0 0 0.

(** Modelled from the spec: [a.add(b)] of the rendering library. *)
Definition add (a b : t) : t :=
  mk (x a + x b)%Q (y a + y b)%Q (z a + z b)%Q.

(** Modelled from the spec: [a.subtract(b)] of the rendering library. *)
Definition subtract (a b : t) : t :=
  mk (x a - x b)%Q (y a - y b)%Q (z a - z b)%Q.

End Vector3.

(** ** Collaborators: rays, picking results, meshes *)

Module Ray.
(** Modelled from the spec: the [Ray] class of the rendering library,
    a ray cast from [origin] along [direction] over [length]. *)
Record t : Type := mk { origin : Vector3.t; direction : Vector3.t; length : Q }.
End Ray.

(** Modelled from the spec: the [PickingInfo] class of the rendering
    library, the outcome of a ray query: hit or no hit, and the
    world-space hit position. *)
Record PickingInfo : Type := {
  hit : bool;
  pickedPoint : option Vector3.t;
  distance : Q
}.

(** Modelled from the spec: the [BoundingBox] class of the rendering
    library, of which [fill] reads the world-space centre. *)
Record BoundingBox : Type := { centerWorld : Vector3.t }.

(** Modelled from the spec: the [BoundingInfo] class of the rendering
    library, the min/max corners of a bounding box and the box. *)
Record BoundingInfo : Type := {
  minimum : Vector3.t;
  maximum : Vector3.t;
  boundingBox : BoundingBox
}.

(** Modelled from the spec: the [AbstractMesh] class of the rendering
    library, a surface seen through what [fill] reads of it: its
    bounding information, taken after [computeWorldMatrix] and [update]
    have run, and its ray-intersection query. *)
Record AbstractMesh : Type := {
  _boundingInfo : BoundingInfo;
  intersects : Ray.t -> PickingInfo
}.

(** Modelled from the spec: the ordering of the hits of a ray by the
    rendering library (nearest hit first); a picking result is
    inserted by increasing distance, after the results at the same
    distance. *)
Fixpoint insertByDistance (p : PickingInfo) (l : list PickingInfo)
  : list PickingInfo :=
  match l with
  | [] => [p]
  | q :: l' =>
      if Qle_bool (distance q) (distance p) then q :: insertByDistance p l'
      else p :: q :: l'
  end.

(** Modelled from the spec: the hits of a ray, nearest first. *)
Definition sortByDistance (l : list PickingInfo) : list PickingInfo :=
  foldl (fun acc p => insertByDistance p acc) [] l.

(** Modelled from the spec: [ray.intersectsMeshes(meshes, false)] of
    the rendering library, the picking results of the meshes the ray
    hits, nearest first. *)
Definition intersectsMeshes (r : Ray.t) (meshes : list AbstractMesh)
  : list PickingInfo :=
  sortByDistance (filter (fun p => hit p = true) (map (fun m => intersects m r) meshes)).

(** ** Graph of the search package

    The path-search package ([Graph], [GridNode], [astar]) is not part
    of the sources. *)

(** Modelled from the spec: the [GridNode] class of the search
    package; a node carries its grid coordinate, a weight (the value
    of its cell) and the attached sampled point. *)
Record GridNode : Type := {
  node_x : Z;
  node_y : Z;
  weight : option Z;
  point : option Vector3.t
}.

(** Modelled from the spec: the [Graph] class of the search package,
    the grid of the nodes and whether diagonal moves are allowed. *)
Record Graph : Type := {
  grid : list (list GridNode);
  diagonal : bool
}.

(** Modelled from the spec: [new GridNode(x, y, weight)] of the search
    package. *)
Definition new_GridNode (x y : nat) (w : option Z) : GridNode :=
  {| node_x := Z.of_nat x; node_y := Z.of_nat y; weight := w; point := None |}.

(** Modelled from the spec: the rows of nodes the [Graph] constructor
    of the search package builds, one node per cell, from row [x] on. *)
Fixpoint Graph_rows (x : nat) (gridIn : array (array Z))
  : result (list (list GridNode)) :=
  match gridIn with
  | [] => Ok []
  | None :: _ => Throw TypeError
  | Some row :: rest =>
      rows ← Graph_rows (S x) rest;
      Ok (imap (new_GridNode x) row :: rows)
  end.

(** Modelled from the spec: [new Graph(gridIn, { diagonal })] of the
    search package, one node per cell of [gridIn]. *)
Definition new_Graph (gridIn : array (array Z)) (diag : bool) : result Graph :=
  rows ← Graph_rows 0 gridIn;
  Ok {| grid := rows; diagonal := diag |}.

(** [graph.grid[x][y]['point'] = p] *)
Definition set_point (g : Graph) (x y : nat) (p : option Vector3.t)
  : result Graph :=
  match grid g !! x with
  | None => Throw TypeError
  | Some col =>
      match col !! y with
      | None => Throw TypeError
      | Some n =>
          let n' := {| node_x := node_x n; node_y := node_y n;
                       weight := weight n; point := p |} in
          Ok {| grid := <[x := <[y := n']> col]> (grid g);
                diagonal := diagonal g |}
      end
  end.

(** ** Search over the graph

    The search of the package is an A* search with a pluggable
    heuristic and the closest-node fallback: the frontier is ordered
    by [f = g + h], a node already expanded is never reconsidered,
    impassable nodes (weight [0]) are never entered, and the node with
    the least [h] (then the least [g]) seen so far is remembered.  In
    place of a parent link each node records the path that leads to
    it: the parent of a node is expanded when the link is set, and an
    expanded node is never modified again. *)

Module astar.

Abbreviation coord := (Z * Z)%type (only parsing).

(** Modelled from the spec: the grid coordinate [(x, y)] of a node of
    the search package. *)
Definition pos (n : GridNode) : coord := (node_x n, node_y n).

(** [l[i]] for an index computed as a number. *)
Definition lookupZ {A} (l : list A) (i : Z) : option A :=
  if i <? 0 then None else l !! Z.to_nat i.

(** Modelled from the spec: [grid[x] && grid[x][y]], the node of the
    graph at a coordinate, if any. *)
Definition grid_at (g : Graph) (c : coord) : option GridNode :=
  col ← lookupZ (grid g) c.1; lookupZ col c.2.

(** Modelled from the spec: [graph.neighbors(node)] of the search
    package: west, east, south, north, and the four diagonal cells
    when the graph allows diagonal moves. *)
Definition neighbors (g : Graph) (node : GridNode) : list GridNode :=
  let x := node_x node in
  let y := node_y node in
  omap (grid_at g) [(x - 1, y); (x + 1, y); (x, y - 1); (x, y + 1)]
  ++ (if diagonal g
      then omap (grid_at g)
             [(x - 1, y - 1); (x + 1, y - 1); (x - 1, y + 1); (x + 1, y + 1)]
      else []).

(** Modelled from the spec: [node.isWall()] of the search package:
    the weight is [0], the cell is impassable. *)
Definition isWall (n : GridNode) : bool :=
  match weight n with
  | Some 0 => true
  | _ => false
  end.

(** Modelled from the spec: [node.getCost(fromNeighbor)] of the search
    package: the weight, scaled on a diagonal move. *)
Definition getCost (n fromNeighbor : GridNode) : Q :=
  let w := inject_Z (default 0 (weight n)) in
  if negb (node_x fromNeighbor =? node_x n) && negb (node_y fromNeighbor =? node_y n)
  then (w * (141421 # 100000))%Q
  else w.

(** [Math.sqrt(2)]: the double nearest to the square root of 2. *)
Definition SQRT2 : Q := 6369051672525773 # 4503599627370496.

(** Modelled from the spec: [astar.heuristics.diagonal(pos0, pos1)] of
    the search package, the diagonal-distance heuristic. *)
Definition diagonal_heuristic (pos0 pos1 : GridNode) : Q :=
  let D := 1%Q in
  let D2 := SQRT2 in
  let d1 := Qabs (inject_Z (node_x pos1) - inject_Z (node_x pos0)) in
  let d2 := Qabs (inject_Z (node_y pos1) - inject_Z (node_y pos0)) in
  ((D * (d1 + d2)) + ((D2 - (2 * D)) * Qmin d1 d2))%Q.

(** Modelled from the spec: what the search of the package records on
    a node. *)
Record Score : Type := {
  f : Q;
  g : Q;
  h : Q;
  visited : bool;
  closed : bool;
  path : list GridNode
}.

(** Modelled from the spec: the record of a node the search has not
    touched. *)
Definition clean : Score :=
  {| f := 0; g := 0; h := 0; visited := false; closed := false; path := [] |}.

(** [a < b] on numbers. *)
Definition Qltb (a b : Q) : bool := negb (Qle_bool b a).

(** Modelled from the spec: the state of the search of the package:
    the records of the nodes, the frontier and the closest node so
    far. *)
Record State : Type := {
  scores : coord -> Score;
  openHeap : list GridNode;
  closestNode : GridNode
}.

(** Modelled from the spec: the priority queue of the search: the node
    of least [f] of the frontier, the first of them in the frontier's
    order, and the rest of the frontier. *)
Fixpoint pop (scores : coord -> Score) (heap : list GridNode)
  : option (GridNode * list GridNode) :=
  match heap with
  | [] => None
  | n :: heap' =>
      match pop scores heap' with
      | None => Some (n, [])
      | Some (m, rest) =>
          if Qltb (f (scores (pos m))) (f (scores (pos n)))
          then Some (m, n :: rest)
          else Some (n, heap')
      end
  end.

(** Modelled from the spec: the treatment, by the search of the
    package, of one neighbour of the node being expanded. *)
Definition visit (heuristic : GridNode -> GridNode -> Q) (end_ : GridNode)
    (closest : bool) (currentNode : GridNode) (st : State)
    (neighbor : GridNode) : State :=
  let sn := scores st (pos neighbor) in
  if closed sn || isWall neighbor then st
  else
    let gScore := (g (scores st (pos currentNode)) + getCost neighbor currentNode)%Q in
    let beenVisited := visited sn in
    if negb beenVisited || Qltb gScore (g sn) then
      let h' := if Qeq_bool (h sn) 0 then heuristic neighbor end_ else h sn in
      let sn' := {| f := (gScore + h')%Q; g := gScore; h := h';
                    visited := true; closed := closed sn;
                    path := path (scores st (pos currentNode)) ++ [neighbor] |} in
      let scores' := <[pos neighbor := sn']> (scores st) in
      let sc := scores' (pos (closestNode st)) in
      let closestNode' :=
        if closest
           && (Qltb h' (h sc) || (Qeq_bool h' (h sc) && Qltb gScore (g sc)))
        then neighbor else closestNode st in
      {| scores := scores';
         openHeap := if beenVisited then openHeap st else openHeap st ++ [neighbor];
         closestNode := closestNode' |}
    else st.

(** Modelled from the spec: the main loop of the search of the
    package, for at most [fuel] expansions. *)
Fixpoint loop (fuel : nat) (graph : Graph)
    (heuristic : GridNode -> GridNode -> Q) (end_ : GridNode) (closest : bool)
    (st : State) : option (list GridNode) :=
  match fuel with
  | O => None
  | S fuel' =>
      match pop (scores st) (openHeap st) with
      | None =>
          Some (if closest then path (scores st (pos (closestNode st))) else [])
      | Some (currentNode, rest) =>
          if decide (pos currentNode = pos end_)
          then Some (path (scores st (pos currentNode)))
          else
            let sc := scores st (pos currentNode) in
            let sc' := {| f := f sc; g := g sc; h := h sc; visited := visited sc;
                          closed := true; path := path sc |} in
            let st' := {| scores := <[pos currentNode := sc']> (scores st);
                          openHeap := rest;
                          closestNode := closestNode st |} in
            loop fuel' graph heuristic end_ closest
                 (foldl (visit heuristic end_ closest currentNode) st'
                        (neighbors graph currentNode))
      end
  end.

(** Modelled from the spec:
    [astar.search(graph, start, end, { heuristic, closest })] of the
    search package; [None] when the fuel runs out.  A search starts
    by cleaning what the previous one recorded on the nodes, so every
    search starts from clean records. *)
Definition search (fuel : nat) (graph : Graph) (start end_ : GridNode)
    (heuristic : GridNode -> GridNode -> Q) (closest : bool)
  : option (list GridNode) :=
  let s0 := {| f := 0; g := 0; h := heuristic start end_; visited := false;
               closed := false; path := [] |} in
  loop fuel graph heuristic end_ closest
       {| scores := <[pos start := s0]> (fun _ => clean);
          openHeap := [start];
          closestNode := start |}.

End astar.

(** ** The path finder *)

(** The fields of the class; [graph] is [null] until [fill] has run. *)
Record PathFinder : Type := {
  graph : option Graph;
  width : Z;
  height : Z;
  buffer : array (array Z);
  points : array Vector3.t;
  boundingInfo : option BoundingInfo
}.

(** [rebuildBuffers(size)] *)
Definition rebuildBuffers (size : Q) (this : PathFinder) : result PathFinder :=
  let w := ToInt32 size in
  let h := w in
  buf ← new_Array w;
  buf ← for_range h (fun i buf => row ← new_Array h; Ok (set buf i row)) buf;
  Ok {| graph := graph this; width := w; height := h;
        buffer := buf; points := []; boundingInfo := boundingInfo this |}.

(** The fields [rebuildBuffers(size)] leaves when it raises.  The side
    is assigned first, and the allocation of the mask, which comes
    next, is what raises: the width and the height are the new ones,
    and the mask, the points, the graph and the bounds are the
    previous ones. *)
Definition rebuildBuffers_raised (size : Q) (this : PathFinder) : PathFinder :=
  {| graph := graph this; width := ToInt32 size; height := ToInt32 size;
     buffer := buffer this; points := points this;
     boundingInfo := boundingInfo this |}.

(** The fields of a path finder before its constructor has run
    [rebuildBuffers]. *)
Definition initial : PathFinder :=
  {| graph := None; width := 0; height := 0; buffer := [];
     points := []; boundingInfo := None |}.

(** [new PathFinder(size)]: the field initialisers, then
    [rebuildBuffers]. *)
Definition constructor (size : Q) : result PathFinder :=
  rebuildBuffers size initial.

(** *** [fill]: bounds *)

(** One step of the [forEach] over the cast meshes: the running bounds
    and the running sum of the centres. *)
Definition accumulate (acc : BoundingInfo * Vector3.t) (cm : AbstractMesh)
  : BoundingInfo * Vector3.t :=
  let '(b, average) := acc in
  let cb := _boundingInfo cm in
  ({| minimum :=
        Vector3.mk (Qmin (Vector3.x (minimum b)) (Vector3.x (minimum cb)))
                   (Qmin (Vector3.y (minimum b)) (Vector3.y (minimum cb)))
                   (Qmin (Vector3.z (minimum b)) (Vector3.z (minimum cb)));
      maximum :=
        Vector3.mk (Qmax (Vector3.x (maximum b)) (Vector3.x (maximum cb)))
                   (Qmax (Vector3.y (maximum b)) (Vector3.y (maximum cb)))
                   (Qmax (Vector3.z (maximum b)) (Vector3.z (maximum cb)));
      boundingBox := boundingBox b |},
   Vector3.mk (Vector3.x average + Vector3.x (centerWorld (boundingBox cb)))%Q
              (Vector3.y average + Vector3.y (centerWorld (boundingBox cb)))%Q
              (Vector3.z average + Vector3.z (centerWorld (boundingBox cb)))%Q).

(** The bounds [b] as [fill] stores them: the reduction starts from the
    zero box, and the centre is the sum of the centres divided by the
    number of meshes (for no mesh JavaScript has [0/0 = NaN] here,
    where [Q] has [0]). *)
Definition combinedBounds (castMeshes : list AbstractMesh) : BoundingInfo :=
  let b0 := {| minimum := Vector3.Zero; maximum := Vector3.Zero;
               boundingBox := {| centerWorld := Vector3.Zero |} |} in
  let '(b, average) := foldl accumulate (b0, Vector3.Zero) castMeshes in
  let n := inject_Z (Z.of_nat (length castMeshes)) in
  let average := Vector3.mk (Vector3.x average / n)%Q
                            (Vector3.y average / n)%Q
                            (Vector3.z average / n)%Q in
  {| minimum := minimum b; maximum := maximum b;
     boundingBox := {| centerWorld := average |} |}.

Definition xd (b : BoundingInfo) : Q :=
  (Qabs (Vector3.x (maximum b)) + Qabs (Vector3.x (minimum b)))%Q.

Definition yd (b : BoundingInfo) : Q :=
  (Qabs (Vector3.z (maximum b)) + Qabs (Vector3.z (minimum b)))%Q.

(** The origin [s] of the sampling region. *)
Definition start (b : BoundingInfo) : Vector3.t :=
  Vector3.subtract (centerWorld (boundingBox b))
                   (Vector3.mk (xd b / 2) 0 (yd b / 2))%Q.

(** The ray cast for cell [(x, y)]. *)
Definition cellRay (b : BoundingInfo) (rayHeight rayLength : option Q)
    (w h : Z) (x y : nat) : Ray.t :=
  let rx := ((inject_Z (Z.of_nat x) * xd b) / inject_Z w)%Q in
  let ry := ((inject_Z (Z.of_nat y) * yd b) / inject_Z h)%Q in
  Ray.mk
    (Vector3.add (start b)
       (Vector3.mk rx (or_default rayHeight (Vector3.y (maximum b) + 10)%Q) ry))
    (Vector3.mk 0 (-1) 0)%Q
    (or_default rayLength 100%Q).

(** [r.intersectsMeshes(castMeshes, false).find(p => p.hit)] *)
Definition castRay (castMeshes : list AbstractMesh) (r : Ray.t)
  : option PickingInfo :=
  find (fun p => hit p) (intersectsMeshes r castMeshes).

(** *** [fill]: rasterisation *)

(** [this.buffer[x][y] = v] *)
Definition set_cell (buf : array (array Z)) (x y : nat) (v : Z)
  : result (array (array Z)) :=
  match get buf x with
  | Some row => Ok (<[x := Some (set row y v)]> buf)
  | None => Throw TypeError
  end.

(** The body of the inner loop, on the pair of [this.points] and
    [this.buffer]. *)
Definition rasterCell (castMeshes : list AbstractMesh) (b : BoundingInfo)
    (rayHeight rayLength : option Q) (w h : Z) (x y : nat)
    (st : array Vector3.t * array (array Z))
  : result (array Vector3.t * array (array Z)) :=
  let '(pts, buf) := st in
  match castRay castMeshes (cellRay b rayHeight rayLength w h x y) with
  | Some hit =>
      let pts := push pts (pickedPoint hit) in
      buf ← set_cell buf x y 1;
      Ok (pts, buf)
  | None =>
      let pts := push pts None in
      buf ← set_cell buf x y 0;
      Ok (pts, buf)
  end.

(** [fill(castMeshes, rayHeight, rayLength)] *)
Definition fill (castMeshes : list AbstractMesh) (rayHeight rayLength : option Q)
    (this : PathFinder) : result PathFinder :=
  this ← rebuildBuffers (inject_Z (width this)) this;
  let b := combinedBounds castMeshes in
  let w := width this in
  let h := height this in
  '(pts, buf) ←
    for_range w (fun x st =>
      for_range h (fun y st =>
        rasterCell castMeshes b rayHeight rayLength w h x y st) st)
      (points this, buffer this);
  g ← new_Graph buf false;
  g ← for_range w (fun x g =>
         for_range h (fun y g =>
           let coord := Z.of_nat y * w + Z.of_nat x in
           set_point g x y (getZ pts coord)) g) g;
  Ok {| graph := Some g; width := w; height := h;
        buffer := buf; points := pts; boundingInfo := Some b |}.

(** *** [fromTo]: endpoint resolution *)

(** [p.x === t.x && p.z === t.z] *)
Definition sameXZ (p t : Vector3.t) : bool :=
  Qeq_bool (Vector3.x p) (Vector3.x t) && Qeq_bool (Vector3.z p) (Vector3.z t).

(** One of the two scanning loops of [fromTo], from position [i] on:
    [index] is the value the variable has when the loop starts. *)
Fixpoint resolve_from (i : nat) (pts : array Vector3.t) (t : Vector3.t)
    (index : nat) : nat :=
  match pts with
  | [] => index
  | None :: rest => resolve_from (S i) rest t index
  | Some p :: rest =>
      if sameXZ p t then i else resolve_from (S i) rest t index
  end.

Definition resolveIndex (pts : array Vector3.t) (t : Vector3.t) : nat :=
  resolve_from 0 pts t 0.

(** [(a / b) >> 0] on integers.  For [b = 0] JavaScript has an infinity
    or [NaN], which [>> 0] turns into [0]; [Q] has [a / 0 = 0]. *)
Definition div_int32 (a b : Z) : Z := ToInt32 (inject_Z a / inject_Z b).

(** [(a % b) >> 0] on integers: the remainder has the sign of [a], and
    [a % 0] is [NaN], which [>> 0] turns into [0]. *)
Definition rem_int32 (a b : Z) : Z :=
  if b =? 0 then 0 else ToInt32 (inject_Z (Z.rem a b)).

(** The grid coordinates [((sx, sy), (ex, ey))] computed by [fromTo]. *)
Definition gridCoords (this : PathFinder) (from to : Vector3.t)
  : (Z * Z) * (Z * Z) :=
  let fromIndex := Z.of_nat (resolveIndex (points this) from) in
  let toIndex := Z.of_nat (resolveIndex (points this) to) in
  let sx := div_int32 fromIndex (width this) in
  let sy := rem_int32 fromIndex (height this) in
  let ex := div_int32 toIndex (width this) in
  let ey := rem_int32 toIndex (width this) in
  ((sx, sy), (ex, ey)).

(** *** [fromTo]: projection of the node path *)

(** Modelled from the spec: [Scalar.Lerp(start, end, amount)] of the
    rendering library, the linear interpolation
    [start + (end - start) * amount].  It is taken exactly: the
    rounding of the doubles is not modelled here, and no property
    below rests on the value of an interpolation, only on where it is
    taken. *)
Definition Lerp (start end_ amount : Q) : Q :=
  (start + (end_ - start) * amount)%Q.

(** The [forEach] over the node path, from position [index] on;
    [length] is [path.length]. *)
Fixpoint project_from (index : nat) (length : nat) (path : list GridNode)
    (from to : Vector3.t) : list Vector3.t :=
  match path with
  | [] => []
  | p :: rest =>
      match point p with
      | None => project_from (S index) length rest from to
      | Some pt =>
          Vector3.mk (Vector3.x pt)
            (Lerp (Vector3.y from) (Vector3.y to)
                  (inject_Z (Z.of_nat index) / inject_Z (Z.of_nat length)))
            (Vector3.y pt)
          :: project_from (S index) length rest from to
      end
  end.

Definition toWorldPath (path : list GridNode) (from to : Vector3.t)
  : list Vector3.t :=
  project_from 0 (length path) path from to.

(** The number of nodes of a graph. *)
Definition nodeCount (g : Graph) : nat := length (mjoin (grid g)).

(** [fromTo(from, to)].  The outer [None] stands for a search that
    does not return; the search is given one expansion per node of the
    graph, and one more. *)
Definition fromTo (from to : Vector3.t) (this : PathFinder)
  : option (result (list Vector3.t)) :=
  let '((sx, sy), (ex, ey)) := gridCoords this from to in
  match graph this with
  | None => Some (Throw TypeError)
  | Some g =>
      match astar.lookupZ (grid g) sx, astar.lookupZ (grid g) ex with
      | Some cs, Some ce =>
          match astar.lookupZ cs sy, astar.lookupZ ce ey with
          | Some start, Some end_ =>
              path ← astar.search (S (nodeCount g)) g start end_
                                  astar.diagonal_heuristic true;
              Some (Ok (toWorldPath path from to))
          | _, _ => Some (Throw TypeError)
          end
      | _, _ => Some (Throw TypeError)
      end
  end.

(** *** [findNearestPoint] *)

(** Modelled from the spec: [Vector3.Distance(a, b)] of the rendering
    library: the square root of [x * x + y * y + z * z], for the
    differences [x], [y], [z] of the coordinates, every operation
    being one of the doubles. *)
Definition Vector3_Distance (a b : Vector3.t) : Double.t :=
  let x := Double.sub (Double.of_Q (Vector3.x a)) (Double.of_Q (Vector3.x b)) in
  let y := Double.sub (Double.of_Q (Vector3.y a)) (Double.of_Q (Vector3.y b)) in
  let z := Double.sub (Double.of_Q (Vector3.z a)) (Double.of_Q (Vector3.z b)) in
  Double.sqrt
    (Double.add (Double.add (Double.mul x x) (Double.mul y y)) (Double.mul z z)).

(** The [forEach] of [findNearestPoint] on the pair of [lastDistance]
    and [nearest]. *)
Definition nearer (point : Vector3.t) (acc : Double.t * Vector3.t)
    (p : option Vector3.t) : Double.t * Vector3.t :=
  match p with
  | None => acc
  | Some p =>
      let d := Vector3_Distance p point in
      if Double.ltb d acc.1 then (d, p) else acc
  end.

(** [findNearestPoint(point)] *)
Definition findNearestPoint (point : Vector3.t) (this : PathFinder) : Vector3.t :=
  (foldl (nearer point) (Double.MAX_VALUE, point) (points this)).2.

(** *** [createAnimation] *)

Module Animation.

(** Modelled from the spec: the data types of an animation of the
    rendering library, those the editor lists. *)
Inductive AnimationType : Type :=
| ANIMATIONTYPE_FLOAT
| ANIMATIONTYPE_VECTOR2
| ANIMATIONTYPE_VECTOR3
| ANIMATIONTYPE_QUATERNION
| ANIMATIONTYPE_COLOR3
| ANIMATIONTYPE_COLOR4
| ANIMATIONTYPE_MATRIX.

(** Modelled from the spec: the loop modes of an animation of the
    rendering library. *)
Inductive AnimationLoopMode : Type :=
| ANIMATIONLOOPMODE_RELATIVE
| ANIMATIONLOOPMODE_CYCLE
| ANIMATIONLOOPMODE_CONSTANT.

(** Modelled from the spec: a key of an animation of the rendering
    library, a value at a frame. *)
Record IAnimationKey : Type := { frame : Z; value : Vector3.t }.

(** Modelled from the spec: the [Animation] class of the rendering
    library, seen through its constructor arguments and its keys. *)
Record t : Type := {
  name : string;
  targetProperty : string;
  framePerSecond : Z;
  dataType : AnimationType;
  loopMode : AnimationLoopMode;
  enableBlending : bool;
  keys : list IAnimationKey
}.

(** Modelled from the spec: [new Animation(name, targetProperty,
    framePerSecond, dataType, loopMode, enableBlending)] of the
    rendering library; the animation has no key yet. *)
Definition new (name targetProperty : string) (framePerSecond : Z)
    (dataType : AnimationType) (loopMode : AnimationLoopMode)
    (enableBlending : bool) : t :=
  {| name := name; targetProperty := targetProperty;
     framePerSecond := framePerSecond; dataType := dataType;
     loopMode := loopMode; enableBlending := enableBlending; keys := [] |}.

(** Modelled from the spec: [a.setKeys(values)] of the rendering
    library. *)
Definition setKeys (a : t) (values : list IAnimationKey) : t :=
  {| name := name a; targetProperty := targetProperty a;
     framePerSecond := framePerSecond a; dataType := dataType a;
     loopMode := loopMode a; enableBlending := enableBlending a;
     keys := values |}.

End Animation.

(** [createAnimation(path)] *)
Definition createAnimation (path : list Vector3.t) : Animation.t :=
  let a := Animation.new "PathFinderAnimation" "position" 60
             Animation.ANIMATIONTYPE_VECTOR3
             Animation.ANIMATIONLOOPMODE_RELATIVE false in
  Animation.setKeys a
    (imap (fun index p =>
             {| Animation.frame := Z.of_nat index; Animation.value := p |})
          path).

(** ** The workspace

    The synchronous operations of the [WorkSpace] class: the writing of
    the workspace file, up to the call of [writeJSON], and the
    stopping of the watched programs. *)

Module WorkSpace.

(** Modelled from the spec: [IExecProcess] of the editor's tools, the
    handle of a running program, which [process.kill()] stops. *)
Record IExecProcess : Type := { pid : nat }.

(** Modelled from the spec: [IWorkSpace], the content of a workspace
    file: the five settings the class reads, of values of some type
    [V], and the other settings of the file. *)
Record IWorkSpace (V : Type) : Type := {
  lastOpenedScene : string;
  serverPort : V;
  generateSceneOnSave : V;
  firstLoad : V;
  watchProject : V;
  others : list (string * V)
}.
Arguments lastOpenedScene {V} _.
Arguments serverPort {V} _.
Arguments generateSceneOnSave {V} _.
Arguments firstLoad {V} _.
Arguments watchProject {V} _.
Arguments others {V} _.

(** The static members of the class. *)
Record t (V : Type) : Type := {
  Path : option string;
  DirPath : option string;
  AvailableProjects : list string;
  Workspace : option (IWorkSpace V);
  ServerPort : option Z;
  _WatchProjectProgram : option IExecProcess;
  _WatchTypescriptProgram : option IExecProcess
}.
Arguments Path {V} _.
Arguments DirPath {V} _.
Arguments AvailableProjects {V} _.
Arguments Workspace {V} _.
Arguments ServerPort {V} _.
Arguments _WatchProjectProgram {V} _.
Arguments _WatchTypescriptProgram {V} _.

(** The rest of [s] after the prefix [pat], if [s] starts with [pat]. *)
Fixpoint strip_prefix (pat s : string) : option string :=
  match pat with
  | EmptyString => Some s
  | String c pat' =>
      match s with
      | EmptyString => None
      | String d s' => if Ascii.eqb c d then strip_prefix pat' s' else None
      end
  end.

(** [s.replace(pat, rep)] for a string pattern and a replacement
    without [$]: the first occurrence of [pat] in [s] is replaced. *)
Fixpoint replace (pat rep s : string) : string :=
  match strip_prefix pat s with
  | Some rest => rep +:+ rest
  | None =>
      match s with
      | EmptyString => EmptyString
      | String c s' => String c (replace pat rep s')
      end
  end.

(** [!s] of a nullable string: [null] and the empty string are
    falsy. *)
Definition falsy (s : option string) : bool :=
  match s with
  | None => true
  | Some EmptyString => true
  | Some _ => false
  end.

(** [WriteWorkspaceFile(projectPath)], up to the call of [writeJSON]:
    [Ok None] when nothing is written, [Ok (Some (path, content))]
    when [writeJSON(path, content, ...)] is called. *)
Definition WriteWorkspaceFile {V} (projectPath : string) (this : t V)
  : result (option (string * IWorkSpace V)) :=
  if falsy (DirPath this) || falsy (Path this) then Ok None
  else
    match DirPath this, Path this with
    | Some dir, Some path =>
        let scene := replace dir "" projectPath in
        match Workspace this with
        | None => Throw TypeError
        | Some ws =>
            Ok (Some (path,
                      {| lastOpenedScene := scene;
                         serverPort := serverPort ws;
                         generateSceneOnSave := generateSceneOnSave ws;
                         firstLoad := firstLoad ws;
                         watchProject := watchProject ws;
                         others := [] |}))
        end
    | _, _ => Ok None
    end.

(** [IsWatchingProject] *)
Definition IsWatchingProject {V} (this : t V) : bool :=
  match _WatchProjectProgram this with Some _ => true | None => false end.

(** [IsWatchingTypeScript] *)
Definition IsWatchingTypeScript {V} (this : t V) : bool :=
  match _WatchTypescriptProgram this with Some _ => true | None => false end.

(** [StopWatchingProject()], on the class and the list of the programs
    killed so far. *)
Definition StopWatchingProject {V} (st : t V * list IExecProcess)
  : t V * list IExecProcess :=
  let '(this, killed) := st in
  let killed :=
    match _WatchProjectProgram this with
    | Some program => killed ++ [program]
    | None => killed
    end in
  ({| Path := Path this; DirPath := DirPath this;
      AvailableProjects := AvailableProjects this;
      Workspace := Workspace this; ServerPort := ServerPort this;
      _WatchProjectProgram := None;
      _WatchTypescriptProgram := _WatchTypescriptProgram this |}, killed).

(** [StopWatchingTypeScript()] *)
Definition StopWatchingTypeScript {V} (st : t V * list IExecProcess)
  : t V * list IExecProcess :=
  let '(this, killed) := st in
  let killed :=
    match _WatchTypescriptProgram this with
    | Some program => killed ++ [program]
    | None => killed
    end in
  ({| Path := Path this; DirPath := DirPath this;
      AvailableProjects := AvailableProjects this;
      Workspace := Workspace this; ServerPort := ServerPort this;
      _WatchProjectProgram := _WatchProjectProgram this;
      _WatchTypescriptProgram := None |}, killed).

(** [KillAllProcesses()] *)
Definition KillAllProcesses {V} (st : t V * list IExecProcess)
  : t V * list IExecProcess :=
  StopWatchingTypeScript (StopWatchingProject st).

End WorkSpace.

(** * Properties *)

(** ** Loops and arrays *)

Section loops.
Context {St : Type}.

(** Total-correctness rule for a counted loop: an invariant that holds
    at the start and that every iteration re-establishes without an
    exception holds at the end, and the loop raises nothing. *)
Lemma for_from_invariant (I : nat -> St -> Prop) (body : nat -> St -> result St)
    (n i : nat) (s : St) :
  I i s ->
  (forall j t, (i <= j < i + n)%nat -> I j t ->
               exists t', body j t = Ok t' /\ I (S j) t') ->
  exists s', for_from i n body s = Ok s' /\ I (i + n)%nat s'.
Proof.
  revert i s. induction n as [|n IH]; intros i s Hi Hstep; simpl.
  - exists s. split; [reflexivity|]. now replace (i + 0)%nat with i by lia.
  - destruct (Hstep i s) as (t & Hb & Ht); [lia|assumption|].
    rewrite Hb. simpl.
    destruct (IH (S i) t Ht) as (s' & Hs' & HI).
    + intros j u Hj Hu. apply Hstep; [lia|assumption].
    + exists s'. split; [assumption|].
      now replace (i + S n)%nat with (S i + n)%nat by lia.
Qed.

Lemma for_range_invariant (I : nat -> St -> Prop) (body : nat -> St -> result St)
    (n : Z) (s : St) :
  I O s ->
  (forall j t, (j < Z.to_nat n)%nat -> I j t ->
               exists t', body j t = Ok t' /\ I (S j) t') ->
  exists s', for_range n body s = Ok s' /\ I (Z.to_nat n) s'.
Proof.
  intros H0 Hstep. unfold for_range.
  apply (for_from_invariant I body (Z.to_nat n) 0 s H0).
  intros j t Hj. apply Hstep. lia.
Qed.
End loops.

Lemma bind_Ok {A B} (a : A) (k : A -> result B) : Ok a ≫= k = k a.
Proof. reflexivity. Qed.

Lemma set_in_range {A} (a : array A) (i : nat) (v : A) :
  (i < length a)%nat -> set a i v = <[i := Some v]> a.
Proof. intros H. unfold set. now rewrite decide_True. Qed.

(** ** Integer conversion *)

Lemma truncate_nonneg (q : Q) : (0 <= q)%Q -> 0 <= truncate q.
Proof.
  destruct q as [n d]. unfold Qle, truncate. simpl. intros H.
  apply Z.quot_pos; lia.
Qed.

Lemma truncate_lt (q : Q) (k : Z) :
  (0 <= q)%Q -> (q < inject_Z k)%Q -> truncate q < k.
Proof.
  destruct q as [n d]. unfold Qle, Qlt, truncate. simpl. intros H0 H.
  rewrite Z.quot_div_nonneg by lia.
  apply Z.div_lt_upper_bound; lia.
Qed.

Lemma truncate_small (q : Q) : (-1 < q)%Q -> (q <= 0)%Q -> truncate q = 0.
Proof.
  destruct q as [n d]. unfold Qle, Qlt, truncate. simpl. intros H1 H0.
  apply Z.quot_small_iff; lia.
Qed.

Lemma truncate_le_neg (q : Q) (k : Z) :
  (inject_Z (- k) <= q)%Q -> (q <= -1)%Q -> - k <= truncate q <= -1.
Proof.
  destruct q as [n d]. unfold Qle, truncate. simpl. intros Hk H1.
  assert (Hq : n ÷ Z.pos d = - (- n ÷ Z.pos d)).
  { rewrite Z.quot_opp_l by lia. lia. }
  rewrite Hq, Z.quot_div_nonneg by lia.
  assert (1 <= - n / Z.pos d) by (apply Z.div_le_lower_bound; lia).
  assert (- n / Z.pos d <= k).
  { assert (- n / Z.pos d < k + 1); [|lia].
    apply Z.div_lt_upper_bound; lia. }
  lia.
Qed.

Lemma ToInt32_range (q : Q) : - 2 ^ 31 <= ToInt32 q < 2 ^ 31.
Proof.
  unfold ToInt32.
  pose proof (Z.mod_pos_bound (truncate q) (2 ^ 32) ltac:(lia)) as H.
  destruct (Z.ltb_spec (truncate q mod 2 ^ 32) (2 ^ 31)); lia.
Qed.

Lemma ToInt32_int32 (q : Q) :
  - 2 ^ 31 <= truncate q < 2 ^ 31 -> ToInt32 q = truncate q.
Proof.
  intros H. unfold ToInt32.
  destruct (Z.le_gt_cases 0 (truncate q)) as [Hpos|Hneg].
  - rewrite Z.mod_small by lia.
    destruct (Z.ltb_spec (truncate q) (2 ^ 31)); lia.
  - replace (truncate q mod 2 ^ 32) with (truncate q + 2 ^ 32).
    + destruct (Z.ltb_spec (truncate q + 2 ^ 32) (2 ^ 31)); lia.
    + apply Z.mod_unique with (q := -1); lia.
Qed.

Lemma truncate_inject_Z (n : Z) : truncate (inject_Z n) = n.
Proof. unfold truncate. simpl. apply Z.quot_1_r. Qed.

Lemma ToInt32_inject_Z (n : Z) :
  - 2 ^ 31 <= n < 2 ^ 31 -> ToInt32 (inject_Z n) = n.
Proof. intros H. rewrite ToInt32_int32; rewrite truncate_inject_Z; lia. Qed.

(** ** The grid buffer *)

(** The mask [rebuildBuffers] allocates: [w] rows of [w] holes. *)
Definition emptyBuffer (w : Z) : array (array Z) :=
  replicate (Z.to_nat w) (Some (replicate (Z.to_nat w) None)).

(** [this.buffer[x][y]], [None] when the row or the cell is missing. *)
Definition cell (buf : array (array Z)) (x y : nat) : option Z :=
  row ← get buf x; get row y.

(** A cell is walkable when its value is truthy. *)
Definition walkable (buf : array (array Z)) (x y : nat) : bool :=
  match cell buf x y with
  | Some v => negb (v =? 0)
  | None => false
  end.

Lemma new_Array_ok {A} (n : Z) :
  0 <= n < 2 ^ 32 -> new_Array (A := A) n = Ok (replicate (Z.to_nat n) None).
Proof.
  intros H. unfold new_Array.
  destruct (Z.ltb_spec n 0); [lia|].
  destruct (Z.leb_spec (2 ^ 32) n); [lia|]. reflexivity.
Qed.

Lemma new_Array_negative {A} (n : Z) :
  n < 0 -> new_Array (A := A) n = Throw RangeError.
Proof.
  intros H. unfold new_Array. destruct (Z.ltb_spec n 0); [reflexivity|lia].
Qed.

Lemma rebuildBuffers_ok (size : Q) (this : PathFinder) :
  0 <= ToInt32 size ->
  rebuildBuffers size this =
  Ok {| graph := graph this; width := ToInt32 size; height := ToInt32 size;
        buffer := emptyBuffer (ToInt32 size); points := [];
        boundingInfo := boundingInfo this |}.
Proof.
  intros Hw. pose proof (ToInt32_range size) as Hr.
  unfold rebuildBuffers. cbv zeta. set (w := ToInt32 size) in *.
  rewrite (new_Array_ok (A := list (option Z))), bind_Ok by lia.
  set (row := replicate (Z.to_nat w) (@None Z)).
  destruct (for_range_invariant
              (fun j buf => buf = replicate j (Some row)
                                  ++ replicate (Z.to_nat w - j) None)
              (fun i buf => row ← new_Array w; Ok (set buf i row))
              w (replicate (Z.to_nat w) None))
    as (buf & Hbuf & Hinv).
  - simpl. now rewrite Nat.sub_0_r.
  - intros j t Hj ->. rewrite new_Array_ok, bind_Ok by lia.
    fold row. eexists. split; [reflexivity|].
    rewrite set_in_range
      by (rewrite length_app, !length_replicate; lia).
    rewrite insert_app_r_alt by (rewrite length_replicate; lia).
    rewrite length_replicate, Nat.sub_diag.
    replace (Z.to_nat w - j)%nat with (S (Z.to_nat w - S j)) by lia.
    rewrite (replicate_S_end j), <- app_assoc. reflexivity.
  - rewrite Hbuf, bind_Ok, Hinv, Nat.sub_diag, app_nil_r. reflexivity.
Qed.

Lemma rebuildBuffers_throw (size : Q) (this : PathFinder) :
  ToInt32 size < 0 -> rebuildBuffers size this = Throw RangeError.
Proof.
  intros Hw. unfold rebuildBuffers. cbv zeta.
  now rewrite (new_Array_negative (A := list (option Z))).
Qed.

Lemma cell_emptyBuffer (w : Z) (x y : nat) : cell (emptyBuffer w) x y = None.
Proof.
  unfold cell, emptyBuffer, get.
  destruct (replicate (Z.to_nat w) (Some (replicate (Z.to_nat w) None)) !! x)
    as [r|] eqn:Hx; [|reflexivity].
  apply lookup_replicate in Hx as [-> _]. simpl.
  destruct (replicate (Z.to_nat w) (@None Z) !! y) as [c|] eqn:Hy; [|reflexivity].
  apply lookup_replicate in Hy as [-> _]. reflexivity.
Qed.

(** Allocation as the specification words it: a square grid of side
    [truncate size], no walkable cell, and a point array of
    [width * height] entries. *)
Definition allocate_spec (size : Q) (this this' : PathFinder) : Prop :=
  rebuildBuffers size this = Ok this' /\
  width this' = truncate size /\
  height this' = truncate size /\
  (forall x y, walkable (buffer this') x y = false) /\
  Z.of_nat (length (points this')) = width this' * height this'.

(** C6, as stated, fails: after [rebuildBuffers 2] the point array is
    empty, it does not have [2 * 2] entries. *)
Lemma rebuildBuffers_points_not_sized :
  ~ exists this', allocate_spec 2 initial this'.
Proof.
  intros (this' & Hr & _ & _ & _ & Hlen).
  vm_compute in Hr. injection Hr as <-. vm_compute in Hlen. discriminate.
Qed.

(** C6, amended: for every size [0 < size < 2^31], [rebuildBuffers]
    raises nothing and yields [width = height = truncate size], a mask
    of [width] rows of [height] empty cells, none of them walkable, and
    an empty point array, whatever the mask and the points were
    before. *)
Theorem rebuildBuffers_positive (size : Q) (this : PathFinder) :
  (0 < size)%Q -> (size < inject_Z (2 ^ 31))%Q ->
  exists this',
    rebuildBuffers size this = Ok this' /\
    width this' = truncate size /\
    height this' = truncate size /\
    buffer this' = emptyBuffer (truncate size) /\
    (forall x y, cell (buffer this') x y = None /\
                 walkable (buffer this') x y = false) /\
    points this' = [].
Proof.
  intros Hpos Hlt.
  assert (Ht : 0 <= truncate size < 2 ^ 31).
  { split; [apply truncate_nonneg|apply truncate_lt]; auto using Qlt_le_weak. }
  assert (HT : ToInt32 size = truncate size) by (apply ToInt32_int32; lia).
  eexists. split; [apply rebuildBuffers_ok; lia|]. rewrite HT. simpl.
  repeat split; try reflexivity.
  - apply cell_emptyBuffer.
  - unfold walkable. now rewrite cell_emptyBuffer.
Qed.

Lemma rebuildBuffers_positive_witness :
  exists this',
    rebuildBuffers (5 # 2) initial = Ok this' /\
    width this' = 2 /\ height this' = 2 /\
    buffer this' = emptyBuffer 2 /\
    (forall x y, cell (buffer this') x y = None /\
                 walkable (buffer this') x y = false) /\
    points this' = [].
Proof.
  apply (rebuildBuffers_positive (5 # 2) initial); reflexivity.
Defined.

(** The size [2^31] is positive, and [rebuildBuffers] raises on it:
    [2^31 >> 0] is negative. *)
Lemma rebuildBuffers_wraps :
  rebuildBuffers (inject_Z (2 ^ 31)) initial = Throw RangeError.
Proof. reflexivity. Qed.

(** C7, as stated, fails: [rebuildBuffers (-1)] raises a [RangeError]
    instead of yielding an empty buffer. *)
Lemma rebuildBuffers_negative_throws :
  rebuildBuffers (-1) initial = Throw RangeError /\
  ~ exists this', rebuildBuffers (-1) initial = Ok this' /\ buffer this' = [].
Proof.
  split; [reflexivity|]. intros (this' & Hr & _). discriminate Hr.
Qed.

(** C7, amended: for every size in [[-2^31, 0]], [rebuildBuffers]
    yields the empty buffer (zero width and height, no row, no point)
    when [-1 < size], and raises [RangeError] when [size <= -1]. *)
Theorem rebuildBuffers_nonpositive (size : Q) (this : PathFinder) :
  (size <= 0)%Q -> (inject_Z (- 2 ^ 31) <= size)%Q ->
  ((-1 < size)%Q ->
     rebuildBuffers size this =
     Ok {| graph := graph this; width := 0; height := 0; buffer := [];
           points := []; boundingInfo := boundingInfo this |}) /\
  ((size <= -1)%Q -> rebuildBuffers size this = Throw RangeError).
Proof.
  intros H0 Hlow. split.
  - intros H1. pose proof (truncate_small size H1 H0) as Ht.
    assert (HT : ToInt32 size = 0) by (rewrite ToInt32_int32; lia).
    rewrite rebuildBuffers_ok by lia. now rewrite HT.
  - intros H1. apply rebuildBuffers_throw.
    pose proof (truncate_le_neg size (2 ^ 31) Hlow H1) as Ht.
    rewrite ToInt32_int32; lia.
Qed.

Lemma rebuildBuffers_nonpositive_witness :
  ((-1 < -1 # 2)%Q ->
     rebuildBuffers (-1 # 2) initial =
     Ok {| graph := None; width := 0; height := 0; buffer := [];
           points := []; boundingInfo := None |}) /\
  ((-1 # 2 <= -1)%Q -> rebuildBuffers (-1 # 2) initial = Throw RangeError).
Proof.
  apply (rebuildBuffers_nonpositive (-1 # 2) initial); discriminate.
Defined.

(** ** Rasterisation *)

(** A mask of [W] rows of [H] cells each. *)
Definition shaped (W H : nat) (buf : array (array Z)) : Prop :=
  length buf = W /\
  forall x, (x < W)%nat -> exists row, buf !! x = Some (Some row) /\ length row = H.

Lemma shaped_emptyBuffer (w : Z) :
  shaped (Z.to_nat w) (Z.to_nat w) (emptyBuffer w).
Proof.
  unfold emptyBuffer. split; [apply length_replicate|].
  intros x Hx. eexists. split; [now apply lookup_replicate_2|].
  apply length_replicate.
Qed.

Lemma set_cell_ok (W H : nat) (buf : array (array Z)) (x y : nat) (v : Z) :
  shaped W H buf -> (x < W)%nat -> (y < H)%nat ->
  exists buf',
    set_cell buf x y v = Ok buf' /\ shaped W H buf' /\
    cell buf' x y = Some v /\
    forall x' y', (x', y') <> (x, y) -> cell buf' x' y' = cell buf x' y'.
Proof.
  intros [Hlen Hrows] Hx Hy. destruct (Hrows x Hx) as (row & Hrow & Hlr).
  unfold set_cell, get. rewrite Hrow. simpl. eexists. split; [reflexivity|].
  rewrite set_in_range by lia. split; [|split].
  - split; [now rewrite length_insert|]. intros x' Hx'.
    destruct (decide (x = x')) as [<-|Hne].
    + eexists. split; [apply list_lookup_insert_eq; lia|].
      now rewrite length_insert.
    + rewrite list_lookup_insert_ne by assumption. now apply Hrows.
  - unfold cell, get. rewrite list_lookup_insert_eq by lia. simpl.
    now rewrite list_lookup_insert_eq by lia.
  - intros x' y' Hne. unfold cell, get.
    destruct (decide (x = x')) as [<-|Hx'].
    + rewrite list_lookup_insert_eq, Hrow by lia. simpl.
      rewrite list_lookup_insert_ne; [reflexivity|congruence].
    + now rewrite list_lookup_insert_ne.
Qed.

Section raster.
Variable castMeshes : list AbstractMesh.
Variable b : BoundingInfo.
Variables rayHeight rayLength : option Q.
Variables w h : Z.

(** The outcome of the ray cast of cell [(x, y)]. *)
Definition cellHit (x y : nat) : option PickingInfo :=
  castRay castMeshes (cellRay b rayHeight rayLength w h x y).

(** What [fill] pushes on the point array for cell [(x, y)]. *)
Definition cellPoint (x y : nat) : option Vector3.t :=
  hit ← cellHit x y; pickedPoint hit.

(** What [fill] stores in the mask for cell [(x, y)]. *)
Definition cellFlag (x y : nat) : Z :=
  match cellHit x y with Some _ => 1 | None => 0 end.

Lemma rasterCell_eq (x y : nat) (pts : array Vector3.t) (buf : array (array Z)) :
  rasterCell castMeshes b rayHeight rayLength w h x y (pts, buf) =
  buf' ← set_cell buf x y (cellFlag x y); Ok (push pts (cellPoint x y), buf').
Proof.
  unfold rasterCell, cellPoint, cellFlag, cellHit.
  destruct (castRay castMeshes (cellRay b rayHeight rayLength w h x y));
    reflexivity.
Qed.

(** The inner loop: the points of column [x] are appended in the order
    of [y], and the cells of row [x] of the mask are set. *)
Lemma raster_inner (W : nat) (x : nat) (pts : array Vector3.t)
    (buf : array (array Z)) :
  shaped W (Z.to_nat h) buf -> (x < W)%nat ->
  exists buf',
    for_range h (fun y st =>
      rasterCell castMeshes b rayHeight rayLength w h x y st) (pts, buf)
    = Ok (pts ++ (cellPoint x <$> seq 0 (Z.to_nat h)), buf') /\
    shaped W (Z.to_nat h) buf' /\
    (forall y, (y < Z.to_nat h)%nat -> cell buf' x y = Some (cellFlag x y)) /\
    (forall x' y, x' <> x -> cell buf' x' y = cell buf x' y).
Proof.
  intros Hshape Hx.
  destruct (for_range_invariant
    (fun j st =>
       st.1 = pts ++ (cellPoint x <$> seq 0 j) /\
       shaped W (Z.to_nat h) st.2 /\
       (forall y, (y < j)%nat -> cell st.2 x y = Some (cellFlag x y)) /\
       (forall x' y, x' <> x -> cell st.2 x' y = cell buf x' y))
    (fun y st => rasterCell castMeshes b rayHeight rayLength w h x y st)
    h (pts, buf)) as ([pts' buf'] & Hrun & Hp & Hs & Hc & Hk).
  - simpl. rewrite app_nil_r. repeat split; try apply Hshape; auto. lia.
  - intros j [ptsj bufj] Hj (Hp & Hs & Hc & Hk). cbn [fst snd] in *.
    subst ptsj. rewrite rasterCell_eq.
    destruct (set_cell_ok W (Z.to_nat h) bufj x j (cellFlag x j) Hs Hx Hj)
      as (buf' & -> & Hs' & Hset & Hother).
    rewrite bind_Ok. eexists. split; [reflexivity|]. cbn [fst snd].
    split; [|split; [assumption|split]].
    + unfold push. rewrite seq_S, fmap_app, app_assoc. reflexivity.
    + intros y Hy. destruct (decide (y = j)) as [->|Hne]; [assumption|].
      rewrite Hother by congruence. apply Hc. lia.
    + intros x' y Hx'. rewrite Hother by congruence. now apply Hk.
  - simpl in *. subst pts'. exists buf'. auto.
Qed.

(** The points of the columns [0 .. n - 1], column after column. *)
Fixpoint columns (H n : nat) : array Vector3.t :=
  match n with
  | O => []
  | S n' => columns H n' ++ (cellPoint n' <$> seq 0 H)
  end.

(** Both loops: no exception, every cell of the mask set, and the point
    array holding the columns one after the other. *)
Lemma raster_outer (buf : array (array Z)) :
  shaped (Z.to_nat w) (Z.to_nat h) buf ->
  exists buf',
    for_range w (fun x st =>
      for_range h (fun y st =>
        rasterCell castMeshes b rayHeight rayLength w h x y st) st) ([], buf)
    = Ok (columns (Z.to_nat h) (Z.to_nat w), buf') /\
    shaped (Z.to_nat w) (Z.to_nat h) buf' /\
    (forall x y, (x < Z.to_nat w)%nat -> (y < Z.to_nat h)%nat ->
                 cell buf' x y = Some (cellFlag x y)).
Proof.
  intros Hshape.
  destruct (for_range_invariant
    (fun i st =>
       st.1 = columns (Z.to_nat h) i /\
       shaped (Z.to_nat w) (Z.to_nat h) st.2 /\
       (forall x y, (x < i)%nat -> (y < Z.to_nat h)%nat ->
                    cell st.2 x y = Some (cellFlag x y)))
    (fun x st =>
      for_range h (fun y st =>
        rasterCell castMeshes b rayHeight rayLength w h x y st) st)
    w ([], buf)) as ([pts' buf'] & Hrun & Hp & Hs & Hc).
  - simpl. repeat split; try apply Hshape. intros; lia.
  - intros i [ptsi bufi] Hi (Hp & Hs & Hc). cbn [fst snd] in *. subst ptsi.
    destruct (raster_inner (Z.to_nat w) i (columns (Z.to_nat h) i) bufi Hs Hi)
      as (buf' & -> & Hs' & Hrow & Hother).
    eexists. split; [reflexivity|]. cbn [fst snd]. split; [reflexivity|].
    split; [assumption|]. intros x y Hx Hy.
    destruct (decide (x = i)) as [->|Hne]; [now apply Hrow|].
    rewrite Hother by assumption. apply Hc; lia.
  - simpl in *. subst pts'. exists buf'. auto.
Qed.

Lemma length_columns (H n : nat) : length (columns H n) = (n * H)%nat.
Proof.
  induction n as [|n IH]; simpl; [reflexivity|].
  rewrite length_app, length_fmap, length_seq, IH. lia.
Qed.

(** The point pushed for cell [(x, y)] sits at index [x * H + y]. *)
Lemma lookup_columns (H n x y : nat) :
  (x < n)%nat -> (y < H)%nat ->
  columns H n !! (x * H + y)%nat = Some (cellPoint x y).
Proof.
  intros Hx Hy. induction n as [|n IH]; [lia|]. simpl.
  destruct (decide (x = n)) as [->|Hne].
  - rewrite lookup_app_r by (rewrite length_columns; lia).
    rewrite length_columns, list_lookup_fmap.
    replace (n * H + y - n * H)%nat with y by lia.
    now rewrite lookup_seq_lt.
  - rewrite lookup_app_l by (rewrite length_columns; nia). apply IH. lia.
Qed.

End raster.

(** ** Graph construction *)

(** [graph.grid[x][y]] *)
Definition node_at (g : Graph) (x y : nat) : option GridNode :=
  col ← grid g !! x; col !! y.

Lemma Graph_rows_ok (W H : nat) (buf : array (array Z)) (x0 : nat) :
  shaped W H buf ->
  exists rows,
    Graph_rows x0 buf = Ok rows /\ length rows = W /\
    forall x, (x < W)%nat ->
      exists row, buf !! x = Some (Some row) /\
                  rows !! x = Some (imap (new_GridNode (x0 + x)) row).
Proof.
  revert W x0. induction buf as [|r buf IH]; intros W x0 [Hlen Hrows].
  - simpl in *. subst W. exists []. repeat split. intros; lia.
  - simpl in Hlen. destruct W as [|W]; [discriminate|].
    destruct (Hrows 0%nat ltac:(lia)) as (row & Hrow & Hlr).
    simpl in Hrow. injection Hrow as ->.
    destruct (IH W (S x0)) as (rows & Hr & Hl & Hn).
    { split; [lia|]. intros x Hx. apply (Hrows (S x)). lia. }
    simpl. rewrite Hr, bind_Ok. eexists. split; [reflexivity|].
    split; [simpl; lia|]. intros [|x] Hx.
    + exists row. rewrite Nat.add_0_r. split; reflexivity.
    + destruct (Hn x ltac:(lia)) as (row' & Hb & Hg). exists row'.
      simpl. rewrite Hb, Hg. replace (S x0 + x)%nat with (x0 + S x)%nat by lia.
      split; reflexivity.
Qed.

Section attach.
Variables W H : nat.
Variable buf : array (array Z).
Variable P : nat -> nat -> option Vector3.t.

(** The grid while the points are being attached: every cell has its
    node, with its coordinate and the cell's value as weight, and the
    nodes marked by [D] already carry their point. *)
Definition attached (D : nat -> nat -> Prop) (g : Graph) : Prop :=
  length (grid g) = W /\
  (forall x, (x < W)%nat -> exists col, grid g !! x = Some col /\ length col = H) /\
  diagonal g = false /\
  forall x y, (x < W)%nat -> (y < H)%nat ->
    exists n, node_at g x y = Some n /\
              node_x n = Z.of_nat x /\ node_y n = Z.of_nat y /\
              weight n = cell buf x y /\
              (D x y -> point n = P x y).

Lemma attached_weaken (D D' : nat -> nat -> Prop) (g : Graph) :
  (forall x y, (x < W)%nat -> (y < H)%nat -> D' x y -> D x y) ->
  attached D g -> attached D' g.
Proof.
  intros HD (Hl & Hc & Hd & Hn). repeat split; try assumption.
  intros x y Hx Hy. destruct (Hn x y Hx Hy) as (n & ? & ? & ? & ? & ?).
  exists n. auto 10.
Qed.

Lemma new_Graph_attached :
  shaped W H buf ->
  exists g, new_Graph buf false = Ok g /\ attached (fun _ _ => False) g.
Proof.
  intros Hs. destruct (Graph_rows_ok W H buf 0 Hs) as (rows & Hr & Hl & Hn).
  unfold new_Graph. rewrite Hr, bind_Ok. eexists. split; [reflexivity|].
  split; [assumption|]. split; [|split; [reflexivity|]].
  - intros x Hx. destruct (Hn x Hx) as (row & Hb & Hg).
    destruct Hs as [_ Hrows]. destruct (Hrows x Hx) as (row' & Hb' & Hlr).
    rewrite Hb in Hb'. injection Hb' as <-.
    eexists. split; [exact Hg|]. now rewrite length_imap.
  - intros x y Hx Hy. destruct (Hn x Hx) as (row & Hb & Hg).
    destruct Hs as [_ Hrows]. destruct (Hrows x Hx) as (row' & Hb' & Hlr).
    rewrite Hb in Hb'. injection Hb' as <-.
    destruct (lookup_lt_is_Some_2 row y ltac:(lia)) as [c Hc].
    exists (new_GridNode x y c). unfold node_at. simpl in *. rewrite Hg. simpl.
    rewrite list_lookup_imap, Hc. simpl. repeat split.
    + unfold cell, get. rewrite Hb. simpl. now rewrite Hc.
    + intros [].
Qed.

Lemma set_point_attached (D : nat -> nat -> Prop) (g : Graph) (x y : nat) :
  attached D g -> (x < W)%nat -> (y < H)%nat ->
  exists g', set_point g x y (P x y) = Ok g' /\
             attached (fun x' y' => D x' y' \/ (x' = x /\ y' = y)) g'.
Proof.
  intros (Hl & Hc & Hd & Hn) Hx Hy.
  destruct (Hc x Hx) as (col & Hcol & Hlc).
  destruct (Hn x y Hx Hy) as (n & Hat & Hnx & Hny & Hnw & _).
  unfold node_at in Hat. rewrite Hcol in Hat. simpl in Hat.
  unfold set_point. rewrite Hcol, Hat. eexists. split; [reflexivity|].
  split; [simpl; now rewrite length_insert|]. split; [|split; [assumption|]].
  - intros x' Hx'. simpl. destruct (decide (x = x')) as [<-|Hne].
    + eexists. split; [apply list_lookup_insert_eq; lia|].
      now rewrite length_insert.
    + rewrite list_lookup_insert_ne by assumption. now apply Hc.
  - intros x' y' Hx' Hy'. unfold node_at. simpl.
    destruct (decide (x = x')) as [<-|Hne].
    + rewrite list_lookup_insert_eq by lia. simpl.
      destruct (decide (y = y')) as [<-|Hney].
      * rewrite list_lookup_insert_eq by lia. eexists. split; [reflexivity|].
        simpl. auto.
      * rewrite list_lookup_insert_ne by assumption.
        destruct (Hn x y' Hx Hy') as (n' & Hat' & ? & ? & ? & HD).
        unfold node_at in Hat'. rewrite Hcol in Hat'. simpl in Hat'.
        exists n'. repeat split; try assumption.
        intros [Hd'|[_ ?]]; [auto|congruence].
    + rewrite list_lookup_insert_ne by assumption.
      destruct (Hn x' y' Hx' Hy') as (n' & Hat' & ? & ? & ? & HD).
      exists n'. repeat split; try assumption.
      intros [Hd'|[? _]]; [auto|congruence].
Qed.

(** The two loops that attach the points: no exception, and every node
    ends with its point. *)
Lemma attach_loops (w h : Z) (g : Graph) :
  W = Z.to_nat w -> H = Z.to_nat h ->
  attached (fun _ _ => False) g ->
  exists g',
    for_range w (fun x g =>
      for_range h (fun y g => set_point g x y (P x y)) g) g = Ok g' /\
    attached (fun _ _ => True) g'.
Proof.
  intros HW HH Hg.
  destruct (for_range_invariant
    (fun i g => attached (fun x _ => (x < i)%nat) g)
    (fun x g => for_range h (fun y g => set_point g x y (P x y)) g) w g)
    as (g' & Hrun & Hinv).
  - eapply attached_weaken; [|exact Hg]. simpl. intros; lia.
  - intros i gi Hi Hgi.
    destruct (for_range_invariant
      (fun j g => attached (fun x y => (x < i)%nat \/ (x = i /\ (y < j)%nat)) g)
      (fun y g => set_point g i y (P i y)) h gi) as (g' & Hrun & Hinv).
    + eapply attached_weaken; [|exact Hgi]. simpl. intros x y. lia.
    + intros j gj Hj Hgj.
      destruct (set_point_attached _ gj i j Hgj ltac:(lia) ltac:(lia))
        as (g' & Hset & Hg').
      exists g'. split; [assumption|].
      eapply attached_weaken; [|exact Hg']. simpl. intros x y. lia.
    + exists g'. split; [assumption|].
      eapply attached_weaken; [|exact Hinv]. simpl. intros x y. lia.
  - exists g'. split; [assumption|].
    eapply attached_weaken; [|exact Hinv]. simpl. intros x y. lia.
Qed.

End attach.

(** ** [fill] as a whole *)

(** The point [fill] attaches to node [(x, y)]. *)
Definition attachedPoint (pts : array Vector3.t) (w : Z) (x y : nat)
  : option Vector3.t :=
  getZ pts (Z.of_nat y * w + Z.of_nat x).

(** On a path finder whose width is a valid size, [fill] raises nothing;
    the state it leaves is described cell by cell. *)
Lemma fill_ok (castMeshes : list AbstractMesh) (rayHeight rayLength : option Q)
    (this : PathFinder) :
  0 <= width this < 2 ^ 31 ->
  let w := width this in
  let b := combinedBounds castMeshes in
  let pts := columns castMeshes b rayHeight rayLength w w
               (Z.to_nat w) (Z.to_nat w) in
  exists buf g,
    fill castMeshes rayHeight rayLength this =
    Ok {| graph := Some g; width := w; height := w; buffer := buf;
          points := pts; boundingInfo := Some b |} /\
    shaped (Z.to_nat w) (Z.to_nat w) buf /\
    (forall x y, (x < Z.to_nat w)%nat -> (y < Z.to_nat w)%nat ->
       cell buf x y = Some (cellFlag castMeshes b rayHeight rayLength w w x y)) /\
    attached (Z.to_nat w) (Z.to_nat w) buf (attachedPoint pts w)
             (fun _ _ => True) g.
Proof.
  intros Hw w b pts. unfold fill.
  rewrite rebuildBuffers_ok by (rewrite ToInt32_inject_Z; lia).
  rewrite ToInt32_inject_Z, bind_Ok by lia. cbn [width height points buffer].
  fold w b.
  destruct (raster_outer castMeshes b rayHeight rayLength w w (emptyBuffer w)
              (shaped_emptyBuffer w)) as (buf & Hrun & Hs & Hc).
  rewrite Hrun, bind_Ok. fold pts.
  destruct (new_Graph_attached (Z.to_nat w) (Z.to_nat w) buf
              (attachedPoint pts w) Hs) as (g0 & Hg0 & Ha0).
  rewrite Hg0, bind_Ok.
  destruct (attach_loops (Z.to_nat w) (Z.to_nat w) buf (attachedPoint pts w)
              w w g0 eq_refl eq_refl Ha0) as (g & Hg & Ha).
  unfold attachedPoint in Hg at 1. rewrite Hg, bind_Ok.
  exists buf, g. auto.
Qed.

(** What [fill] records for each cell: the point of cell [(x, y)] is
    the entry [x * height + y] of the point array (the points are
    pushed column after column), and the mask holds [1] on a hit and
    [0] otherwise. *)
Lemma fill_records_cell (castMeshes : list AbstractMesh)
    (rayHeight rayLength : option Q) (this : PathFinder) (x y : nat) :
  0 <= width this < 2 ^ 31 ->
  (x < Z.to_nat (width this))%nat -> (y < Z.to_nat (width this))%nat ->
  exists this',
    fill castMeshes rayHeight rayLength this = Ok this' /\
    height this' = width this /\
    match cellHit castMeshes (combinedBounds castMeshes) rayHeight rayLength
                  (width this) (width this) x y with
    | Some p =>
        get (points this') (x * Z.to_nat (height this') + y) = pickedPoint p /\
        cell (buffer this') x y = Some 1
    | None =>
        get (points this') (x * Z.to_nat (height this') + y) = None /\
        cell (buffer this') x y = Some 0
    end.
Proof.
  intros Hw Hx Hy.
  destruct (fill_ok castMeshes rayHeight rayLength this Hw)
    as (buf & g & Hfill & Hs & Hc & Ha).
  eexists. split; [exact Hfill|]. cbn [points buffer height].
  split; [reflexivity|].
  specialize (Hc x y Hx Hy). unfold get.
  rewrite lookup_columns by assumption. unfold cellPoint, cellFlag in *.
  destruct (cellHit castMeshes (combinedBounds castMeshes) rayHeight rayLength
              (width this) (width this) x y); simpl; auto.
Qed.

(** A path finder as [new PathFinder(size)] leaves it. *)
Definition sized (n : Z) : PathFinder :=
  {| graph := None; width := n; height := n; buffer := emptyBuffer n;
     points := []; boundingInfo := None |}.

Lemma constructor_sized (n : Z) :
  0 <= n < 2 ^ 31 -> constructor (inject_Z n) = Ok (sized n).
Proof.
  intros Hn. unfold constructor.
  rewrite rebuildBuffers_ok; rewrite ToInt32_inject_Z by lia; [reflexivity|lia].
Qed.

(** A flat surface over the strip [x <= 1/2] of the square
    [[0, 2] x [0, 2]]: a downward ray hits it where it starts above the
    strip. *)
Definition strip : AbstractMesh :=
  {| _boundingInfo :=
       {| minimum := Vector3.mk 0 0 0; maximum := Vector3.mk 2 0 2;
          boundingBox := {| centerWorld := Vector3.mk 1 0 1 |} |};
     intersects := fun r =>
       if Qle_bool (Vector3.x (Ray.origin r)) (1 # 2)
       then {| hit := true;
               pickedPoint := Some (Vector3.mk (Vector3.x (Ray.origin r)) 0
                                               (Vector3.z (Ray.origin r)));
               distance := Vector3.y (Ray.origin r) |}
       else {| hit := false; pickedPoint := None; distance := 0 |} |}.

(** C1: on a grid of side 2 over [strip], the ray of cell [(0, 1)] hits
    and the mask holds [1] there, yet the entry [y * width + x = 2] of
    the point array is absent: the hit point was pushed at
    [x * height + y = 1].  Conversely the ray of cell [(1, 0)] misses,
    and the entry [y * width + x = 1] holds a point. *)
Theorem fill_index_transposed :
  exists this' p,
    fill [strip] None None (sized 2) = Ok this' /\
    cellHit [strip] (combinedBounds [strip]) None None 2 2 0 1 = Some p /\
    pickedPoint p = Some (Vector3.mk (0 # 4) 0 (4 # 4)) /\
    cell (buffer this') 0 1 = Some 1 /\
    getZ (points this') (1 * width this' + 0) = None /\
    getZ (points this') (0 * height this' + 1) = pickedPoint p /\
    cellHit [strip] (combinedBounds [strip]) None None 2 2 1 0 = None /\
    cell (buffer this') 1 0 = Some 0 /\
    getZ (points this') (0 * width this' + 1) = pickedPoint p.
Proof.
  eexists. eexists. split; [vm_compute; reflexivity|].
  split; [vm_compute; reflexivity|]. repeat split.
Qed.



Lemma cellHit_no_mesh (b : BoundingInfo) (rayHeight rayLength : option Q)
    (w h : Z) (x y : nat) :
  cellHit [] b rayHeight rayLength w h x y = None.
Proof. reflexivity. Qed.



(** ** Bounds and rays *)

Definition is_min (m : Q) (l : list Q) : Prop :=
  m ∈ l /\ Forall (fun v => (m <= v)%Q) l.

Definition is_max (m : Q) (l : list Q) : Prop :=
  m ∈ l /\ Forall (fun v => (v <= m)%Q) l.

Definition Qsum (l : list Q) : Q := foldr Qplus 0%Q l.

(** The mean of a list of numbers. *)
Definition mean (l : list Q) : Q := (Qsum l / inject_Z (Z.of_nat (length l)))%Q.

Lemma Qmin_cases (a v : Q) : Qmin a v = a \/ Qmin a v = v.
Proof.
  unfold Qmin, GenericMinMax.gmin. destruct (a ?= v)%Q; auto.
Qed.

Lemma Qmax_cases (a v : Q) : Qmax a v = a \/ Qmax a v = v.
Proof.
  unfold Qmax, GenericMinMax.gmax. destruct (a ?= v)%Q; auto.
Qed.

Lemma foldl_Qmin_is_min (l : list Q) (a : Q) : is_min (foldl Qmin a l) (a :: l).
Proof.
  revert a. induction l as [|v l IH]; intros a; simpl.
  - split; [left|]. repeat constructor. apply Qle_refl.
  - destruct (IH (Qmin a v)) as [Hin Hall]. split.
    + apply elem_of_cons in Hin as [->|Hin].
      * destruct (Qmin_cases a v) as [->| ->]; [left|right; left].
      * right. now right.
    + inversion Hall as [|? ? Hhd Htl]; subst.
      constructor; [|constructor; [|assumption]].
      * eapply Qle_trans; [exact Hhd|apply Q.le_min_l].
      * eapply Qle_trans; [exact Hhd|apply Q.le_min_r].
Qed.

Lemma foldl_Qmax_is_max (l : list Q) (a : Q) : is_max (foldl Qmax a l) (a :: l).
Proof.
  revert a. induction l as [|v l IH]; intros a; simpl.
  - split; [left|]. repeat constructor. apply Qle_refl.
  - destruct (IH (Qmax a v)) as [Hin Hall]. split.
    + apply elem_of_cons in Hin as [->|Hin].
      * destruct (Qmax_cases a v) as [->| ->]; [left|right; left].
      * right. now right.
    + inversion Hall as [|? ? Hhd Htl]; subst.
      constructor; [|constructor; [|assumption]].
      * eapply Qle_trans; [apply Q.le_max_l|exact Hhd].
      * eapply Qle_trans; [apply Q.le_max_r|exact Hhd].
Qed.

Lemma foldl_Qplus (l : list Q) (a : Q) : (foldl Qplus a l == a + Qsum l)%Q.
Proof.
  revert a. induction l as [|v l IH]; intros a; simpl.
  - ring.
  - rewrite IH. unfold Qsum. simpl. ring.
Qed.

(** A component of a left fold is the left fold of the components. *)
Lemma foldl_project {A B C D} (f : A -> B -> A) (g : C -> D -> C)
    (p : A -> C) (q : B -> D) (l : list B) (a : A) :
  (forall a b, p (f a b) = g (p a) (q b)) ->
  p (foldl f a l) = foldl g (p a) (q <$> l).
Proof.
  intros Hpq. revert a. induction l as [|v l IH]; intros a; simpl;
    [reflexivity|]. now rewrite IH, Hpq.
Qed.

(** The components of the running bounds and of the running sum, each
    as a fold of its own. *)
Lemma foldl_accumulate (acc : BoundingInfo * Vector3.t) (l : list AbstractMesh) :
  let r := foldl accumulate acc l in
  let mins c := (fun cm => c (minimum (_boundingInfo cm))) <$> l in
  let maxs c := (fun cm => c (maximum (_boundingInfo cm))) <$> l in
  let centers c :=
    (fun cm => c (centerWorld (boundingBox (_boundingInfo cm)))) <$> l in
  (Vector3.x (minimum r.1) = foldl Qmin (Vector3.x (minimum acc.1)) (mins Vector3.x) /\
   Vector3.y (minimum r.1) = foldl Qmin (Vector3.y (minimum acc.1)) (mins Vector3.y) /\
   Vector3.z (minimum r.1) = foldl Qmin (Vector3.z (minimum acc.1)) (mins Vector3.z)) /\
  (Vector3.x (maximum r.1) = foldl Qmax (Vector3.x (maximum acc.1)) (maxs Vector3.x) /\
   Vector3.y (maximum r.1) = foldl Qmax (Vector3.y (maximum acc.1)) (maxs Vector3.y) /\
   Vector3.z (maximum r.1) = foldl Qmax (Vector3.z (maximum acc.1)) (maxs Vector3.z)) /\
  (Vector3.x r.2 = foldl Qplus (Vector3.x acc.2) (centers Vector3.x) /\
   Vector3.y r.2 = foldl Qplus (Vector3.y acc.2) (centers Vector3.y) /\
   Vector3.z r.2 = foldl Qplus (Vector3.z acc.2) (centers Vector3.z)).
Proof.
  cbv zeta. repeat split.
  - apply (foldl_project accumulate Qmin (fun a => Vector3.x (minimum a.1))).
    intros [? ?] ?; reflexivity.
  - apply (foldl_project accumulate Qmin (fun a => Vector3.y (minimum a.1))).
    intros [? ?] ?; reflexivity.
  - apply (foldl_project accumulate Qmin (fun a => Vector3.z (minimum a.1))).
    intros [? ?] ?; reflexivity.
  - apply (foldl_project accumulate Qmax (fun a => Vector3.x (maximum a.1))).
    intros [? ?] ?; reflexivity.
  - apply (foldl_project accumulate Qmax (fun a => Vector3.y (maximum a.1))).
    intros [? ?] ?; reflexivity.
  - apply (foldl_project accumulate Qmax (fun a => Vector3.z (maximum a.1))).
    intros [? ?] ?; reflexivity.
  - apply (foldl_project accumulate Qplus (fun a => Vector3.x a.2)).
    intros [? ?] ?; reflexivity.
  - apply (foldl_project accumulate Qplus (fun a => Vector3.y a.2)).
    intros [? ?] ?; reflexivity.
  - apply (foldl_project accumulate Qplus (fun a => Vector3.z a.2)).
    intros [? ?] ?; reflexivity.
Qed.

(** The combined bounds as a reduction that starts from the zero box:
    each corner component is the least (greatest) of [0] and the
    surfaces' components, and the centre is the mean of the centres. *)
Lemma combinedBounds_spec (castMeshes : list AbstractMesh) :
  let b := combinedBounds castMeshes in
  let mins c := (fun cm => c (minimum (_boundingInfo cm))) <$> castMeshes in
  let maxs c := (fun cm => c (maximum (_boundingInfo cm))) <$> castMeshes in
  let centers c :=
    (fun cm => c (centerWorld (boundingBox (_boundingInfo cm)))) <$> castMeshes in
  (is_min (Vector3.x (minimum b)) (0%Q :: mins Vector3.x) /\
   is_min (Vector3.y (minimum b)) (0%Q :: mins Vector3.y) /\
   is_min (Vector3.z (minimum b)) (0%Q :: mins Vector3.z)) /\
  (is_max (Vector3.x (maximum b)) (0%Q :: maxs Vector3.x) /\
   is_max (Vector3.y (maximum b)) (0%Q :: maxs Vector3.y) /\
   is_max (Vector3.z (maximum b)) (0%Q :: maxs Vector3.z)) /\
  (Vector3.x (centerWorld (boundingBox b)) == mean (centers Vector3.x) /\
   Vector3.y (centerWorld (boundingBox b)) == mean (centers Vector3.y) /\
   Vector3.z (centerWorld (boundingBox b)) == mean (centers Vector3.z))%Q.
Proof.
  cbv zeta. unfold combinedBounds.
  pose proof (foldl_accumulate
    ({| minimum := Vector3.Zero; maximum := Vector3.Zero;
        boundingBox := {| centerWorld := Vector3.Zero |} |}, Vector3.Zero)
    castMeshes) as H.
  cbv zeta in H.
  destruct (foldl accumulate _ castMeshes) as [b' a'].
  cbn [fst snd minimum maximum boundingBox centerWorld Vector3.x Vector3.y
       Vector3.z Vector3.Zero] in *.
  destruct H as ((-> & -> & ->) & (-> & -> & ->) & (-> & -> & ->)).
  split; [|split].
  - repeat split; apply foldl_Qmin_is_min.
  - repeat split; apply foldl_Qmax_is_max.
  - unfold mean. rewrite !length_fmap, !foldl_Qplus.
    repeat split; apply Qmult_comp; try reflexivity; ring.
Qed.

(** The combined box contains the origin, so the extents are the spans
    of the box. *)
Lemma extents_are_spans (castMeshes : list AbstractMesh) :
  let b := combinedBounds castMeshes in
  (xd b == Vector3.x (maximum b) - Vector3.x (minimum b))%Q /\
  (yd b == Vector3.z (maximum b) - Vector3.z (minimum b))%Q.
Proof.
  cbv zeta.
  destruct (combinedBounds_spec castMeshes)
    as (([_ Hx] & _ & [_ Hz]) & ([_ HX] & _ & [_ HZ]) & _).
  apply Forall_inv in Hx, Hz, HX, HZ.
  unfold xd, yd.
  rewrite (Qabs_pos _ HX), (Qabs_neg _ Hx), (Qabs_pos _ HZ), (Qabs_neg _ Hz).
  split; ring.
Qed.

(** A box that does not contain the origin. *)
Definition raised : AbstractMesh :=
  {| _boundingInfo :=
       {| minimum := Vector3.mk 1 1 1; maximum := Vector3.mk 2 2 2;
          boundingBox := {| centerWorld := Vector3.mk (3 # 2) (3 # 2) (3 # 2) |} |};
     intersects := fun r =>
       {| hit := false; pickedPoint := None; distance := 0 |} |}.

(** C4, as stated, fails: over the single surface [raised], whose
    bounding-box minimum is [(1, 1, 1)], the combined minimum is
    [(0, 0, 0)]; it is not the minimum of the surfaces' minimums. *)
Lemma combinedBounds_not_min_of_minimums :
  minimum (combinedBounds [raised]) = Vector3.mk 0 0 0 /\
  ~ is_min (Vector3.x (minimum (combinedBounds [raised])))
           ((fun cm => Vector3.x (minimum (_boundingInfo cm))) <$> [raised]).
Proof.
  split; [reflexivity|]. intros [Hin _]. simpl in Hin.
  apply list_elem_of_singleton in Hin. discriminate Hin.
Qed.

(** A ray height of [0] is replaced by the default, as an absent one
    is. *)
Lemma cellRay_zero_height (b : BoundingInfo) (w h : Z) (x y : nat) :
  Vector3.y (Ray.origin (cellRay b (Some 0%Q) None w h x y)) =
  Vector3.y (Ray.origin (cellRay b None None w h x y)).
Proof. reflexivity. Qed.

(** C4, amended: for every non-empty surface set, [fill] stores as
    combined bounds the component-wise minimum of [0] and the surfaces'
    minimums and maximum of [0] and their maximums (the reduction
    starts from the zero box), with the mean of the surfaces' centres
    as centre; the extents are [xd = |maxX| + |minX|] and
    [yd = |maxZ| + |minZ|], the origin is
    [start = center - (xd/2, 0, yd/2)], and cell [(x, y)] is walkable
    according to the ray cast from
    [start + (x*xd/width, rayHeight || maxY+10, y*yd/height)] in
    direction [(0,-1,0)] with length [rayLength || 100], where a height
    or a length of [0] counts as absent. *)
Theorem fill_bounds_and_rays (castMeshes : list AbstractMesh)
    (rayHeight rayLength : option Q) (this : PathFinder) :
  castMeshes <> [] -> 0 <= width this < 2 ^ 31 ->
  let b := combinedBounds castMeshes in
  let mins c := (fun cm => c (minimum (_boundingInfo cm))) <$> castMeshes in
  let maxs c := (fun cm => c (maximum (_boundingInfo cm))) <$> castMeshes in
  let centers c :=
    (fun cm => c (centerWorld (boundingBox (_boundingInfo cm)))) <$> castMeshes in
  let falsy_or (v : option Q) (d : Q) :=
    match v with
    | Some q => if Qeq_bool q 0 then d else q
    | None => d
    end in
  exists this',
    fill castMeshes rayHeight rayLength this = Ok this' /\
    boundingInfo this' = Some b /\
    (is_min (Vector3.x (minimum b)) (0%Q :: mins Vector3.x) /\
     is_min (Vector3.y (minimum b)) (0%Q :: mins Vector3.y) /\
     is_min (Vector3.z (minimum b)) (0%Q :: mins Vector3.z)) /\
    (is_max (Vector3.x (maximum b)) (0%Q :: maxs Vector3.x) /\
     is_max (Vector3.y (maximum b)) (0%Q :: maxs Vector3.y) /\
     is_max (Vector3.z (maximum b)) (0%Q :: maxs Vector3.z)) /\
    (Vector3.x (centerWorld (boundingBox b)) == mean (centers Vector3.x) /\
     Vector3.y (centerWorld (boundingBox b)) == mean (centers Vector3.y) /\
     Vector3.z (centerWorld (boundingBox b)) == mean (centers Vector3.z))%Q /\
    xd b = (Qabs (Vector3.x (maximum b)) + Qabs (Vector3.x (minimum b)))%Q /\
    yd b = (Qabs (Vector3.z (maximum b)) + Qabs (Vector3.z (minimum b)))%Q /\
    start b = Vector3.subtract (centerWorld (boundingBox b))
                (Vector3.mk (xd b / 2) 0 (yd b / 2))%Q /\
    forall x y, (x < Z.to_nat (width this))%nat ->
                (y < Z.to_nat (width this))%nat ->
      let r :=
        Ray.mk
          (Vector3.add (start b)
             (Vector3.mk
                (inject_Z (Z.of_nat x) * xd b / inject_Z (width this'))%Q
                (falsy_or rayHeight (Vector3.y (maximum b) + 10)%Q)
                (inject_Z (Z.of_nat y) * yd b / inject_Z (height this'))%Q))
          (Vector3.mk 0 (-1) 0)%Q
          (falsy_or rayLength 100%Q) in
      cell (buffer this') x y =
      Some (match castRay castMeshes r with Some _ => 1 | None => 0 end).
Proof.
  intros _ Hw. cbv zeta.
  destruct (fill_ok castMeshes rayHeight rayLength this Hw)
    as (buf & g & Hfill & Hs & Hc & Ha).
  destruct (combinedBounds_spec castMeshes) as (Hmin & Hmax & Hmean).
  eexists. split; [exact Hfill|]. cbn [boundingInfo buffer width height].
  split; [reflexivity|]. split; [exact Hmin|]. split; [exact Hmax|].
  split; [exact Hmean|]. repeat split. intros x y Hx Hy.
  now rewrite (Hc x y Hx Hy).
Qed.

Lemma fill_bounds_and_rays_witness :
  exists this',
    fill [raised] (Some 0%Q) None (sized 1) = Ok this' /\
    boundingInfo this' = Some (combinedBounds [raised]) /\
    minimum (combinedBounds [raised]) = Vector3.mk 0 0 0 /\
    maximum (combinedBounds [raised]) = Vector3.mk 2 2 2 /\
    cell (buffer this') 0 0 = Some 0.
Proof.
  destruct (fill_bounds_and_rays [raised] (Some 0%Q) None (sized 1))
    as (this' & Hfill & Hb & _ & _ & _ & _ & _ & _ & Hcell);
    [discriminate|simpl; lia|].
  exists this'. split; [exact Hfill|]. split; [exact Hb|].
  split; [reflexivity|]. split; [reflexivity|].
  apply (Hcell 0%nat 0%nat); simpl; lia.
Defined.

(** ** Reachable states *)

Lemma fill_width_only (castMeshes : list AbstractMesh)
    (rayHeight rayLength : option Q) (this1 this2 : PathFinder) :
  ToInt32 (inject_Z (width this1)) = ToInt32 (inject_Z (width this2)) ->
  fill castMeshes rayHeight rayLength this1
  = fill castMeshes rayHeight rayLength this2.
Proof.
  intros Hw. unfold fill.
  destruct (Z.lt_ge_cases (ToInt32 (inject_Z (width this1))) 0) as [Hneg|Hpos].
  - rewrite !rebuildBuffers_throw by lia. reflexivity.
  - rewrite !rebuildBuffers_ok, !bind_Ok by lia.
    cbn [width height points buffer]. rewrite Hw. reflexivity.
Qed.

(** [fill] raises only in its call of [rebuildBuffers]: when the
    side, read as a 32-bit integer, is negative. *)
Lemma fill_raises (castMeshes : list AbstractMesh)
    (rayHeight rayLength : option Q) (this : PathFinder) (e : error) :
  fill castMeshes rayHeight rayLength this = Throw e ->
  ToInt32 (inject_Z (width this)) < 0 /\
  rebuildBuffers (inject_Z (width this)) this = Throw e.
Proof.
  intros Hfill. pose proof (ToInt32_range (inject_Z (width this))) as Hr.
  destruct (Z.lt_ge_cases (ToInt32 (inject_Z (width this))) 0) as [Hneg|Hpos].
  - split; [assumption|]. unfold fill in Hfill.
    rewrite rebuildBuffers_throw in Hfill |- * by assumption. exact Hfill.
  - exfalso. set (w := ToInt32 (inject_Z (width this))) in *.
    rewrite (fill_width_only _ _ _ this (sized w)) in Hfill
      by (cbn [sized width]; rewrite (ToInt32_inject_Z w); [reflexivity|lia]).
    destruct (fill_ok castMeshes rayHeight rayLength (sized w))
      as (buf & g & Hfill' & _); [cbn [sized width]; lia|].
    rewrite Hfill' in Hfill. discriminate Hfill.
Qed.

(** The states a path finder goes through: built by the constructor,
    then rebuilt or filled any number of times.  A call that raises
    leaves a state too, which the caller that catches the exception
    goes on with: [rebuildBuffers] has assigned the side when it
    raises, and [fill] raises in its call of [rebuildBuffers]
    ([fill_raises]).  A constructor that raises leaves no path
    finder. *)
Inductive reachable : PathFinder -> Prop :=
| reachable_new (size : Q) (this : PathFinder) :
    constructor size = Ok this -> reachable this
| reachable_rebuild (size : Q) (this this' : PathFinder) :
    reachable this -> rebuildBuffers size this = Ok this' -> reachable this'
| reachable_fill (castMeshes : list AbstractMesh) (rayHeight rayLength : option Q)
    (this this' : PathFinder) :
    reachable this -> fill castMeshes rayHeight rayLength this = Ok this' ->
    reachable this'
| reachable_rebuild_raised (size : Q) (this : PathFinder) (e : error) :
    reachable this -> rebuildBuffers size this = Throw e ->
    reachable (rebuildBuffers_raised size this)
| reachable_fill_raised (castMeshes : list AbstractMesh)
    (rayHeight rayLength : option Q) (this : PathFinder) (e : error) :
    reachable this -> fill castMeshes rayHeight rayLength this = Throw e ->
    reachable (rebuildBuffers_raised (inject_Z (width this)) this).

(** The grid is square, of a side that is a valid array length, and the
    point array is empty or has one entry per cell. *)
Definition valid (this : PathFinder) : Prop :=
  0 <= width this < 2 ^ 31 /\
  height this = width this /\
  (length (points this) = 0%nat \/
   Z.of_nat (length (points this)) = width this * width this).

Lemma rebuildBuffers_valid (size : Q) (this this' : PathFinder) :
  rebuildBuffers size this = Ok this' -> valid this'.
Proof.
  intros Hr. pose proof (ToInt32_range size) as Hrange.
  destruct (Z.lt_ge_cases (ToInt32 size) 0) as [Hneg|Hpos].
  - rewrite rebuildBuffers_throw in Hr by assumption. discriminate.
  - rewrite rebuildBuffers_ok in Hr by assumption. injection Hr as <-.
    unfold valid. simpl. auto with lia.
Qed.

(** What the mask, the points and the graph of a path finder hold,
    for the side [w0] of the last call that allocated the mask: the
    mask is a square of side [w0]; either there is no point and the
    mask is empty, or the points and the mask are what the ray casts
    of a [fill] gave; and the graph, if there is one, is the graph of
    a [fill], on the grid of side [w0] unless there is no point. *)
Definition filled_as (w0 : Z) (this : PathFinder) : Prop :=
  shaped (Z.to_nat w0) (Z.to_nat w0) (buffer this) /\
  ((points this = [] /\ forall x y, cell (buffer this) x y = None) \/
   (exists castMeshes b rayHeight rayLength,
      points this = columns castMeshes b rayHeight rayLength w0 w0
                      (Z.to_nat w0) (Z.to_nat w0) /\
      forall x y, (x < Z.to_nat w0)%nat -> (y < Z.to_nat w0)%nat ->
        cell (buffer this) x y
        = Some (cellFlag castMeshes b rayHeight rayLength w0 w0 x y))) /\
  (graph this = None \/
   exists g W buf P,
     graph this = Some g /\ attached W W buf P (fun _ _ => True) g /\
     (points this = [] \/ Z.of_nat W = w0)).

(** The invariant of the reachable states: the side is a 32-bit
    integer, the width and the height are equal, and the mask, the
    points and the graph are those of a grid of a side [w0], which is
    the side of the path finder unless a call has raised since, in
    which case the side is negative. *)
Lemma reachable_inv (this : PathFinder) :
  reachable this ->
  - 2 ^ 31 <= width this < 2 ^ 31 /\ height this = width this /\
  exists w0, 0 <= w0 < 2 ^ 31 /\ filled_as w0 this /\
             (0 <= width this -> width this = w0).
Proof.
  assert (Hrebuilt : forall size this0 this' w1,
            filled_as w1 this0 ->
            rebuildBuffers size this0 = Ok this' ->
            0 <= width this' < 2 ^ 31 /\ height this' = width this' /\
            filled_as (width this') this').
  { intros size this0 this' w1 (_ & _ & Hg) Hr.
    pose proof (ToInt32_range size) as Hrange.
    destruct (Z.lt_ge_cases (ToInt32 size) 0) as [Hneg|Hpos].
    - rewrite rebuildBuffers_throw in Hr by assumption. discriminate.
    - rewrite rebuildBuffers_ok in Hr by assumption. injection Hr as <-.
      cbn [width height]. split; [lia|]. split; [reflexivity|].
      unfold filled_as. cbn [buffer points graph].
      split; [apply shaped_emptyBuffer|]. split.
      + left. split; [reflexivity|]. apply cell_emptyBuffer.
      + destruct Hg as [Hg|(g & W & buf & P & Hg & Ha & _)]; [now left|].
        right. exists g, W, buf, P. auto. }
  assert (Hraised : forall size this0 w1,
            ToInt32 size < 0 -> 0 <= w1 < 2 ^ 31 -> filled_as w1 this0 ->
            - 2 ^ 31 <= width (rebuildBuffers_raised size this0) < 2 ^ 31 /\
            height (rebuildBuffers_raised size this0)
            = width (rebuildBuffers_raised size this0) /\
            exists w0, 0 <= w0 < 2 ^ 31 /\
              filled_as w0 (rebuildBuffers_raised size this0) /\
              (0 <= width (rebuildBuffers_raised size this0) ->
               width (rebuildBuffers_raised size this0) = w0)).
  { intros size this0 w1 Hneg Hw1 Hf. cbn [rebuildBuffers_raised width height].
    pose proof (ToInt32_range size). split; [lia|]. split; [reflexivity|].
    exists w1. split; [assumption|]. split; [exact Hf|]. lia. }
  induction 1 as [size this Hc|size this this' _ IH Hr
                 |ms rh rl this this' _ IH Hf
                 |size this e _ IH Hr|ms rh rl this e _ IH Hf].
  - destruct (Hrebuilt size initial this 0) as (Hw & Hh & Hf).
    { unfold filled_as, initial. cbn [buffer points graph].
      split; [split; [reflexivity|intros x Hx; simpl in Hx; lia]|].
      split; [left; split; [reflexivity|]|now left].
      intros x y. unfold cell, get. now rewrite lookup_nil. }
    { exact Hc. }
    split; [lia|]. split; [assumption|]. exists (width this). auto.
  - destruct IH as (_ & _ & w1 & _ & Hf1 & _).
    destruct (Hrebuilt size this this' w1 Hf1 Hr) as (Hw & Hh & Hf).
    split; [lia|]. split; [assumption|]. exists (width this'). auto.
  - destruct IH as (Hw & _ & _).
    assert (Hpos : 0 <= width this).
    { destruct (Z.lt_ge_cases (width this) 0) as [Hneg|]; [|assumption].
      exfalso. unfold fill in Hf.
      rewrite rebuildBuffers_throw in Hf
        by (rewrite ToInt32_inject_Z; lia). discriminate Hf. }
    destruct (fill_ok ms rh rl this ltac:(lia))
      as (buf & g & Hfill & Hs & Hcell & Ha).
    rewrite Hfill in Hf. injection Hf as <-. cbn [width height].
    split; [lia|]. split; [reflexivity|]. exists (width this).
    split; [lia|]. split; [|reflexivity].
    unfold filled_as. cbn [buffer points graph]. split; [assumption|].
    split.
    + right. exists ms, (combinedBounds ms), rh, rl. auto.
    + right. eexists g, _, buf, _. split; [reflexivity|].
      split; [exact Ha|]. right. lia.
  - destruct IH as (_ & _ & w1 & Hw1 & Hf1 & _).
    apply (Hraised size this w1); [|assumption..].
    destruct (Z.lt_ge_cases (ToInt32 size) 0) as [|Hpos]; [assumption|].
    rewrite rebuildBuffers_ok in Hr by assumption. discriminate Hr.
  - destruct IH as (_ & _ & w1 & Hw1 & Hf1 & _).
    apply (Hraised _ this w1); [|assumption..].
    now destruct (fill_raises _ _ _ _ _ Hf).
Qed.

(** While no call has raised since the mask was last allocated, the
    state is valid. *)
Lemma reachable_valid (this : PathFinder) :
  reachable this -> 0 <= width this -> valid this.
Proof.
  intros Hreach Hpos.
  destruct (reachable_inv _ Hreach)
    as (Hw & Hh & w0 & _ & (_ & Hp & _) & Hw0).
  specialize (Hw0 Hpos). subst w0.
  split; [lia|]. split; [assumption|].
  destruct Hp as [[-> _]|(ms & b & rh & rl & -> & _)]; [now left|].
  right. rewrite length_columns. lia.
Qed.

(** ** Endpoint resolution *)

(** Resolution as the specification words it: the lowest index of a
    sampled point with the target's [x] and [z], and [0] when there is
    none. *)
Definition resolves (pts : array Vector3.t) (t : Vector3.t) (i : nat) : Prop :=
  (exists p, pts !! i = Some (Some p) /\ sameXZ p t = true /\
             forall j q, (j < i)%nat -> pts !! j = Some (Some q) ->
                         sameXZ q t = false) \/
  (i = 0%nat /\ forall j q, pts !! j = Some (Some q) -> sameXZ q t = false).

Lemma sameXZ_spec (p t : Vector3.t) :
  sameXZ p t = true <->
  (Vector3.x p == Vector3.x t)%Q /\ (Vector3.z p == Vector3.z t)%Q.
Proof.
  unfold sameXZ. rewrite andb_true_iff, !Qeq_bool_iff. reflexivity.
Qed.

Lemma resolve_from_spec (pts : array Vector3.t) (t : Vector3.t) (i index : nat) :
  (exists k p, resolve_from i pts t index = (i + k)%nat /\
               pts !! k = Some (Some p) /\ sameXZ p t = true /\
               forall j q, (j < k)%nat -> pts !! j = Some (Some q) ->
                           sameXZ q t = false) \/
  (resolve_from i pts t index = index /\
   forall j q, pts !! j = Some (Some q) -> sameXZ q t = false).
Proof.
  revert i. induction pts as [|o pts IH]; intros i; simpl.
  - right. split; [reflexivity|]. intros j q Hj. discriminate.
  - assert (Hskip :
      (forall q, o = Some q -> sameXZ q t = false) ->
      (exists k p, resolve_from (S i) pts t index = (i + k)%nat /\
                   (o :: pts) !! k = Some (Some p) /\ sameXZ p t = true /\
                   forall j q, (j < k)%nat -> (o :: pts) !! j = Some (Some q) ->
                               sameXZ q t = false) \/
      (resolve_from (S i) pts t index = index /\
       forall j q, (o :: pts) !! j = Some (Some q) -> sameXZ q t = false)).
    { intros Ho. destruct (IH (S i)) as [(k & p & Hr & Hk & Hp & Hlow)|[Hr Hnone]].
      - left. exists (S k), p. split; [rewrite Hr; lia|]. split; [exact Hk|].
        split; [exact Hp|]. intros [|j] q Hj Hq.
        + simpl in Hq. injection Hq as ->. now apply Ho.
        + simpl in Hq. apply (Hlow j); [lia|assumption].
      - right. split; [exact Hr|]. intros [|j] q Hq.
        + simpl in Hq. injection Hq as ->. now apply Ho.
        + simpl in Hq. now apply (Hnone j). }
    destruct o as [p|].
    + destruct (sameXZ p t) eqn:Hp.
      * left. exists 0%nat, p. split; [lia|]. split; [reflexivity|].
        split; [exact Hp|]. intros j q Hj. lia.
      * apply Hskip. intros q [= <-]. exact Hp.
    + apply Hskip. intros q [=].
Qed.

Lemma resolveIndex_resolves (pts : array Vector3.t) (t : Vector3.t) :
  resolves pts t (resolveIndex pts t).
Proof.
  unfold resolveIndex, resolves.
  destruct (resolve_from_spec pts t 0 0)
    as [(k & p & -> & Hk & Hp & Hlow)|[-> Hnone]]; [left|right].
  - exists p. auto.
  - auto.
Qed.

Lemma resolveIndex_bound (pts : array Vector3.t) (t : Vector3.t) :
  (resolveIndex pts t < length pts)%nat \/ resolveIndex pts t = 0%nat.
Proof.
  destruct (resolveIndex_resolves pts t) as [(p & Hp & _)|[-> _]];
    [left|right; reflexivity].
  now apply lookup_lt_Some in Hp.
Qed.

Lemma div_int32_floor (a b : Z) :
  0 <= a -> 0 <= b -> a / b < 2 ^ 31 -> div_int32 a b = a / b.
Proof.
  intros Ha Hb Hq. unfold div_int32.
  destruct (Z.eq_dec b 0) as [->|Hb0].
  - rewrite Z.div_0_r.
    assert (Ht : truncate (inject_Z a / inject_Z 0) = 0).
    { unfold truncate. simpl. now rewrite Z.mul_0_r. }
    rewrite ToInt32_int32; rewrite Ht; [reflexivity|lia].
  - assert (Ht : truncate (inject_Z a / inject_Z b) = a / b).
    { unfold truncate, Qdiv, Qinv, Qmult, inject_Z. simpl.
      destruct b as [|b|b]; try lia. simpl.
      rewrite Z.quot_div_nonneg by lia. f_equal. lia. }
    rewrite ToInt32_int32; rewrite Ht; [reflexivity|].
    pose proof (Z.div_pos a b Ha ltac:(lia)). lia.
Qed.

Lemma rem_int32_mod (a b : Z) :
  0 <= a -> 0 < b < 2 ^ 31 -> rem_int32 a b = a mod b.
Proof.
  intros Ha Hb. unfold rem_int32.
  destruct (Z.eqb_spec b 0); [lia|].
  rewrite Z.rem_mod_nonneg by lia.
  pose proof (Z.mod_pos_bound a b ltac:(lia)).
  apply ToInt32_inject_Z. lia.
Qed.

(** In a valid state the coordinates are the quotient and the
    remainder of the resolved index by the side of the grid. *)
Lemma gridCoords_valid (this : PathFinder) (from to : Vector3.t) :
  valid this ->
  gridCoords this from to =
  ((Z.of_nat (resolveIndex (points this) from) / width this,
    Z.of_nat (resolveIndex (points this) from) mod height this),
   (Z.of_nat (resolveIndex (points this) to) / width this,
    Z.of_nat (resolveIndex (points this) to) mod width this)).
Proof.
  intros (Hw & Hh & Hlen).
  assert (Hcoord : forall t,
    let i := Z.of_nat (resolveIndex (points this) t) in
    div_int32 i (width this) = i / width this /\
    rem_int32 i (width this) = i mod width this).
  { intros t i. subst i.
    pose proof (resolveIndex_bound (points this) t) as Hi.
    destruct (Z.eq_dec (width this) 0) as [H0|H0].
    - assert (Hi0 : resolveIndex (points this) t = 0%nat).
      { rewrite H0 in Hlen. lia. }
      rewrite Hi0, H0. split; reflexivity.
    - assert (Hlt : Z.of_nat (resolveIndex (points this) t)
                    < width this * width this) by nia.
      split.
      + apply div_int32_floor; [lia..|].
        assert (Z.of_nat (resolveIndex (points this) t) / width this
                < width this) by (apply Z.div_lt_upper_bound; lia).
        lia.
      + apply rem_int32_mod; lia. }
  unfold gridCoords. rewrite Hh.
  destruct (Hcoord from) as [-> ->]. destruct (Hcoord to) as [-> ->].
  reflexivity.
Qed.

Lemma truncate_div (a b : Z) : truncate (inject_Z a / inject_Z b) = a ÷ b.
Proof.
  unfold truncate, Qdiv, Qinv, Qmult, inject_Z. simpl.
  destruct b as [|b|b]; simpl.
  - rewrite Z.mul_0_r. now destruct a.
  - now rewrite Z.mul_1_r.
  - change (Z.neg b) with (- Z.pos b).
    rewrite Z.quot_opp_r by lia. rewrite <- Z.quot_opp_l by lia.
    f_equal. lia.
Qed.

Lemma ToInt32_truncate (q : Q) : ToInt32 q = ToInt32 (inject_Z (truncate q)).
Proof. unfold ToInt32. now rewrite truncate_inject_Z. Qed.

(** [(a / b) >> 0]: the quotient truncated toward zero, and wrapped
    to 32 bits. *)
Lemma div_int32_quot (a b : Z) : div_int32 a b = ToInt32 (inject_Z (a ÷ b)).
Proof. unfold div_int32. now rewrite ToInt32_truncate, truncate_div. Qed.

(** [(a % b) >> 0] for an index [a]: the remainder, which has the sign
    of [a]. *)
Lemma rem_int32_rem (a b : Z) :
  0 <= a -> - 2 ^ 31 <= b < 2 ^ 31 -> (b = 0 -> a = 0) ->
  rem_int32 a b = Z.rem a b.
Proof.
  intros Ha Hb H0. unfold rem_int32. destruct (Z.eqb_spec b 0) as [->|Hne].
  - now rewrite (H0 eq_refl).
  - pose proof (Z.rem_bound_pos_pos a (Z.abs b) ltac:(lia) ltac:(lia)) as Hr.
    rewrite Z.rem_abs_r in Hr by assumption.
    apply ToInt32_inject_Z. lia.
Qed.

(** In every reachable state, a side of [0] comes with no point. *)
Lemma reachable_no_point (this : PathFinder) :
  reachable this -> width this = 0 -> points this = [].
Proof.
  intros Hreach H0.
  destruct (reachable_valid _ Hreach ltac:(lia)) as (_ & _ & Hlen).
  rewrite H0 in Hlen. apply nil_length_inv. lia.
Qed.

(** The grid coordinates of [fromTo] in every reachable state. *)
Lemma gridCoords_reachable (this : PathFinder) (from to : Vector3.t) :
  reachable this ->
  let fromIndex := Z.of_nat (resolveIndex (points this) from) in
  let toIndex := Z.of_nat (resolveIndex (points this) to) in
  gridCoords this from to =
  ((ToInt32 (inject_Z (fromIndex ÷ width this)), Z.rem fromIndex (height this)),
   (ToInt32 (inject_Z (toIndex ÷ width this)), Z.rem toIndex (width this))).
Proof.
  intros Hreach. cbv zeta.
  destruct (reachable_inv _ Hreach) as (Hw & Hh & _).
  assert (H0 : forall t, width this = 0 ->
                 Z.of_nat (resolveIndex (points this) t) = 0).
  { intros t Hz. now rewrite (reachable_no_point _ Hreach Hz). }
  unfold gridCoords. rewrite !div_int32_quot, Hh.
  rewrite !rem_int32_rem by (auto; lia). reflexivity.
Qed.

(** [fromTo] reads the nodes of the graph at the grid coordinates, and
    searches from the one to the other. *)
Lemma fromTo_eq (this : PathFinder) (from to : Vector3.t) :
  fromTo from to this =
  match graph this with
  | None => Some (Throw TypeError)
  | Some g =>
      match astar.grid_at g (gridCoords this from to).1,
            astar.grid_at g (gridCoords this from to).2 with
      | Some s, Some e =>
          path ← astar.search (S (nodeCount g)) g s e
                              astar.diagonal_heuristic true;
          Some (Ok (toWorldPath path from to))
      | _, _ => Some (Throw TypeError)
      end
  end.
Proof.
  unfold fromTo, astar.grid_at.
  destruct (gridCoords this from to) as [[sx sy] [ex ey]]. cbn [fst snd].
  destruct (graph this) as [g|]; [|reflexivity].
  destruct (astar.lookupZ (grid g) sx) as [cs|]; cbn [mbind option_bind];
    [|reflexivity].
  destruct (astar.lookupZ (grid g) ex) as [ce|]; cbn [mbind option_bind];
    [|now destruct (astar.lookupZ cs sy)].
  reflexivity.
Qed.

(** C2, amended: in every state the path finder reaches, the states a
    raising [rebuildBuffers] leaves included, and for every pair of
    world points, [fromTo] resolves each endpoint to the lowest index
    of a sampled point with the same [x] and [z], or to index [0]
    when no sampled point has them; it derives the grid coordinates
    [x = (index / width) >> 0], the quotient truncated toward zero
    and wrapped to 32 bits, and [y = index % height] for the start,
    [y = index % width] for the end, the remainder of the truncated
    division; and it reads the nodes of the graph at these
    coordinates, raising a [TypeError] when one is missing.  While
    the side is not negative these coordinates are
    [floor(index / width)] and [index mod height] (or [width]). *)
Theorem fromTo_resolution (this : PathFinder) (from to : Vector3.t) :
  reachable this ->
  let fromIndex := Z.of_nat (resolveIndex (points this) from) in
  let toIndex := Z.of_nat (resolveIndex (points this) to) in
  let trunc32 a b := ToInt32 (inject_Z (a ÷ b)) in
  let start := (trunc32 fromIndex (width this), Z.rem fromIndex (height this)) in
  let end_ := (trunc32 toIndex (width this), Z.rem toIndex (width this)) in
  resolves (points this) from (resolveIndex (points this) from) /\
  resolves (points this) to (resolveIndex (points this) to) /\
  gridCoords this from to = (start, end_) /\
  (0 <= width this ->
   start = (fromIndex / width this, fromIndex mod height this) /\
   end_ = (toIndex / width this, toIndex mod width this)) /\
  fromTo from to this =
  match graph this with
  | None => Some (Throw TypeError)
  | Some g =>
      match astar.grid_at g start, astar.grid_at g end_ with
      | Some s, Some e =>
          path ← astar.search (S (nodeCount g)) g s e
                              astar.diagonal_heuristic true;
          Some (Ok (toWorldPath path from to))
      | _, _ => Some (Throw TypeError)
      end
  end.
Proof.
  intros Hreach. cbv zeta.
  pose proof (gridCoords_reachable this from to Hreach) as Hcoords.
  cbv zeta in Hcoords.
  split; [apply resolveIndex_resolves|]. split; [apply resolveIndex_resolves|].
  split; [exact Hcoords|]. split.
  - intros Hpos.
    pose proof (gridCoords_valid this from to (reachable_valid _ Hreach Hpos))
      as Hv.
    rewrite Hcoords in Hv. apply pair_equal_spec in Hv as [Hs He].
    split; assumption.
  - rewrite (fromTo_eq this from to), Hcoords. reflexivity.
Qed.

(** The grid of side 2 filled over [strip]. *)
Definition filledStrip : PathFinder :=
  Eval vm_compute in
    match fill [strip] None None (sized 2) with
    | Ok this => this
    | Throw _ => initial
    end.

Lemma fromTo_resolution_witness :
  let this := filledStrip in
  let from := Vector3.mk 0 5 1 in
  let to := Vector3.mk 9 7 9 in
  let start := (0, 1) in
  let end_ := (0, 0) in
  resolves (points this) from 1%nat /\
  resolves (points this) to 0%nat /\
  gridCoords this from to = (start, end_) /\
  (0 <= width this -> start = (1 / 2, 1 mod 2) /\ end_ = (0 / 2, 0 mod 2)) /\
  fromTo from to this =
  match graph this with
  | None => Some (Throw TypeError)
  | Some g =>
      match astar.grid_at g start, astar.grid_at g end_ with
      | Some s, Some e =>
          path ← astar.search (S (nodeCount g)) g s e
                              astar.diagonal_heuristic true;
          Some (Ok (toWorldPath path from to))
      | _, _ => Some (Throw TypeError)
      end
  end.
Proof.
  apply (fromTo_resolution filledStrip (Vector3.mk 0 5 1) (Vector3.mk 9 7 9)).
  apply (reachable_fill [strip] None None (sized 2)).
  - apply (reachable_new 2). reflexivity.
  - reflexivity.
Defined.

(** [filledStrip] after a call [rebuildBuffers(-2)], which raises a
    [RangeError]: the side is [-2], and the four entries of the point
    array are still there. *)
Definition raisedStrip : PathFinder := rebuildBuffers_raised (-2) filledStrip.

(** C2, as stated, fails: on [raisedStrip] the start resolves to the
    index [1], and [fromTo] derives [x = (1 / -2) >> 0 = 0], where
    [floor(1 / -2)] is [-1]. *)
Lemma fromTo_resolution_not_floor :
  reachable raisedStrip /\
  resolveIndex (points raisedStrip) (Vector3.mk 0 5 1) = 1%nat /\
  gridCoords raisedStrip (Vector3.mk 0 5 1) (Vector3.mk 9 7 9)
  = ((0, 1), (0, 0)) /\
  1 / width raisedStrip = -1.
Proof.
  split; [|split; [reflexivity|split; reflexivity]].
  apply (reachable_rebuild_raised (-2) filledStrip RangeError); [|reflexivity].
  apply (reachable_fill [strip] None None (sized 2)).
  - apply (reachable_new 2). reflexivity.
  - reflexivity.
Qed.

(** ** World-space projection *)

(** The amount of interpolation of the node at position [index] of a
    path of [length] nodes: [index / path.length]. *)
Definition amount (index length : nat) : Q :=
  inject_Z (Z.of_nat index) / inject_Z (Z.of_nat length).













(** ** Nearest point *)

(** *** The order of the doubles *)

(** A double that is not [NaN], as a triple of integers ordered
    lexicographically: the infinities at both ends, the negative
    numbers by decreasing exponent and mantissa, the zeros, the
    positive numbers by increasing exponent and mantissa. *)
Definition key (x : Double.t) : Z * Z * Z :=
  match x with
  | S754_infinity true => (-2, 0, 0)
  | S754_finite true m e => (-1, - e, - Z.pos m)
  | S754_zero _ => (0, 0, 0)
  | S754_nan => (0, 0, 0)
  | S754_finite false m e => (1, e, Z.pos m)
  | S754_infinity false => (2, 0, 0)
  end.

Definition lex (a b : Z * Z * Z) : Prop :=
  a.1.1 < b.1.1 \/
  (a.1.1 = b.1.1 /\ (a.1.2 < b.1.2 \/ (a.1.2 = b.1.2 /\ a.2 < b.2))).

Lemma ltb_key (x y : Double.t) :
  Double.ltb x y = true <->
  x <> S754_nan /\ y <> S754_nan /\ lex (key x) (key y).
Proof.
  unfold Double.ltb, SFltb, lex.
  destruct x as [sx|sx| |sx mx ex], y as [sy|sy| |sy my ey];
    try destruct sx; try destruct sy; cbn [SFcompare key fst snd];
    try (split; [discriminate|intros (? & ? & ?); lia || congruence]);
    try (split; [intros _; repeat split; try discriminate; lia|reflexivity]).
  - destruct (Z.compare_spec ex ey) as [->|Hlt|Hgt].
    + change (Pos.compare_cont Eq mx my) with (Pos.compare mx my).
      destruct (Pos.compare_spec mx my) as [->|Hm|Hm]; cbn [CompOpp];
        (split;
         [try discriminate; intros _; repeat split; try discriminate; lia
         |try reflexivity; intros (? & ? & ?); lia]).
    + split; [discriminate|intros (? & ? & ?); lia].
    + split; [intros _; repeat split; try discriminate; lia|reflexivity].
  - destruct (Z.compare_spec ex ey) as [->|Hlt|Hgt].
    + change (Pos.compare_cont Eq mx my) with (Pos.compare mx my).
      destruct (Pos.compare_spec mx my) as [->|Hm|Hm];
        (split;
         [try discriminate; intros _; repeat split; try discriminate; lia
         |try reflexivity; intros (? & ? & ?); lia]).
    + split; [intros _; repeat split; try discriminate; lia|reflexivity].
    + split; [discriminate|intros (? & ? & ?); lia].
Qed.

Lemma ltb_irrefl (x : Double.t) : Double.ltb x x = false.
Proof.
  destruct (Double.ltb x x) eqn:H; [|reflexivity].
  apply ltb_key in H as (_ & _ & H). unfold lex in H. lia.
Qed.

Lemma ltb_trans (x y z : Double.t) :
  Double.ltb x y = true -> Double.ltb y z = true -> Double.ltb x z = true.
Proof.
  rewrite !ltb_key. unfold lex. intros (? & ? & ?) (? & ? & ?).
  repeat split; try assumption. lia.
Qed.

(** A double below [a] is below every number that is not below [a]. *)
Lemma ltb_below (x a q : Double.t) :
  Double.ltb x a = true -> Double.ltb q a = false -> q <> S754_nan ->
  Double.ltb x q = true.
Proof.
  intros Hx Hq Hn. apply ltb_key in Hx as (Hxn & Han & Hlex).
  apply ltb_key. split; [assumption|]. split; [assumption|].
  assert (Hnot : ~ lex (key q) (key a)).
  { intros Hc. assert (Double.ltb q a = true) by (apply ltb_key; auto).
    congruence. }
  unfold lex in *. lia.
Qed.

(** *** The scan *)

(** The scan of [findNearestPoint] from the pair [(d, n)], with the
    positions of the points.  No point seen has a distance below the
    final one.  Either no point was below [d] and the pair is
    unchanged; or the final point is one of the points seen, at the
    final distance, which is below [d], and it is below the distance
    of every point seen before it, but for a distance that is [NaN]. *)
Lemma foldl_nearer (point : Vector3.t) (pts : list (option Vector3.t))
    (d : Double.t) (n : Vector3.t) :
  let r := foldl (nearer point) (d, n) pts in
  (forall q, Some q ∈ pts ->
             Double.ltb (Vector3_Distance q point) r.1 = false) /\
  ((r = (d, n) /\
    forall q, Some q ∈ pts -> Double.ltb (Vector3_Distance q point) d = false) \/
   (exists i, pts !! i = Some (Some r.2) /\
      r.1 = Vector3_Distance r.2 point /\
      Double.ltb r.1 d = true /\
      forall j q, (j < i)%nat -> pts !! j = Some (Some q) ->
        Vector3_Distance q point <> S754_nan ->
        Double.ltb r.1 (Vector3_Distance q point) = true)).
Proof.
  revert d n. induction pts as [|o pts IH]; intros d n; cbv zeta.
  - split; [|left; split; [reflexivity|]]; intros q Hq;
      now apply elem_of_nil in Hq.
  - assert (Hskip :
      (forall q, o = Some q ->
                 Double.ltb (Vector3_Distance q point) d = false) ->
      let r := foldl (nearer point) (d, n) pts in
      (forall q, Some q ∈ o :: pts ->
                 Double.ltb (Vector3_Distance q point) r.1 = false) /\
      ((r = (d, n) /\
        forall q, Some q ∈ o :: pts ->
                  Double.ltb (Vector3_Distance q point) d = false) \/
       (exists i, (o :: pts) !! i = Some (Some r.2) /\
          r.1 = Vector3_Distance r.2 point /\
          Double.ltb r.1 d = true /\
          forall j q, (j < i)%nat -> (o :: pts) !! j = Some (Some q) ->
            Vector3_Distance q point <> S754_nan ->
            Double.ltb r.1 (Vector3_Distance q point) = true))).
    { intros Ho. cbv zeta.
      destruct (IH d n) as (Hall & Hcase).
      destruct Hcase as [[Heq Hge]|(i & Hi & Hd & Hlt & Hlow)].
      - rewrite Heq in *. cbn [fst snd] in *.
        assert (Hall' : forall q, Some q ∈ o :: pts ->
                  Double.ltb (Vector3_Distance q point) d = false).
        { intros q Hq. apply elem_of_cons in Hq as [Hq|Hq]; [|now apply Hge].
          now apply Ho. }
        split; [exact Hall'|]. left. split; [reflexivity|exact Hall'].
      - split.
        + intros q Hq. apply elem_of_cons in Hq as [Hq|Hq]; [|now apply Hall].
          destruct (Double.ltb (Vector3_Distance q point)
                      (foldl (nearer point) (d, n) pts).1) eqn:Hc;
            [|reflexivity].
          rewrite <- (Ho q (eq_sym Hq)). symmetry.
          now apply (ltb_trans _ _ d Hc).
        + right. exists (S i). split; [exact Hi|]. split; [exact Hd|].
          split; [exact Hlt|]. intros [|j] q Hj Hq Hnan.
          * simpl in Hq. injection Hq as Hq.
            now apply (ltb_below _ d _ Hlt (Ho q Hq)).
          * simpl in Hq. apply (Hlow j); [lia|assumption..]. }
    destruct o as [p|]; cbn [foldl nearer fst].
    + destruct (Double.ltb (Vector3_Distance p point) d) eqn:Hlt.
      * destruct (IH (Vector3_Distance p point) p) as (Hall & Hcase).
        destruct Hcase as [[Heq Hge]|(i & Hi & Hd & Hlt' & Hlow)].
        -- rewrite Heq in *. cbn [fst snd] in *. split.
           ++ intros q Hq. apply elem_of_cons in Hq as [[= ->]|Hq];
                [apply ltb_irrefl|now apply Hge].
           ++ right. exists 0%nat. split; [reflexivity|].
              split; [reflexivity|]. split; [exact Hlt|]. intros j q Hj. lia.
        -- split.
           ++ intros q Hq. apply elem_of_cons in Hq as [[= ->]|Hq];
                [|now apply Hall].
              destruct (Double.ltb (Vector3_Distance p point)
                          (foldl (nearer point)
                                 (Vector3_Distance p point, p) pts).1)
                eqn:Hc; [|reflexivity].
              pose proof (ltb_trans _ _ _ Hc Hlt') as Hbad.
              now rewrite ltb_irrefl in Hbad.
           ++ right. exists (S i). split; [exact Hi|]. split; [exact Hd|].
              split; [now apply (ltb_trans _ _ _ Hlt')|].
              intros [|j] q Hj Hq Hnan.
              ** simpl in Hq. injection Hq as ->. exact Hlt'.
              ** simpl in Hq. apply (Hlow j); [lia|assumption..].
      * apply Hskip. intros q [= <-]. exact Hlt.
    + apply Hskip. intros q [=].
Qed.

(** A sampled point at the distance [2^600] of the origin. *)
Definition farPoint : Vector3.t := Vector3.mk (inject_Z (2 ^ 600)) 0 0.

Definition farState : PathFinder :=
  {| graph := None; width := 1; height := 1; buffer := [Some [Some 1]];
     points := [Some farPoint]; boundingInfo := None |}.

(** C10, as stated, fails: the sampled set holds a point, on the [x]
    axis at [2^600] of the origin, far below [Number.MAX_VALUE]; the
    square of its distance overflows, the distance computed is
    [Infinity], which is not below the initial [lastDistance], and
    [findNearestPoint] returns the query point, which is not in the
    set. *)
Lemma findNearestPoint_far :
  Some farPoint ∈ points farState /\
  (Vector3.x farPoint < inject_Z (2 ^ 1024 - 2 ^ 971))%Q /\
  Vector3_Distance farPoint Vector3.Zero = S754_infinity false /\
  findNearestPoint Vector3.Zero farState = Vector3.Zero /\
  Some Vector3.Zero ∉ points farState.
Proof.
  split; [left|]. split; [reflexivity|].
  split; [vm_compute; reflexivity|]. split; [vm_compute; reflexivity|].
  intros Hin. apply list_elem_of_singleton in Hin. discriminate Hin.
Qed.

(** C10, amended: for every query point, with the distances as
    [Vector3.Distance] computes them, in doubles: when some sampled
    point has a distance below [Number.MAX_VALUE],
    [findNearestPoint] returns a sampled point whose distance is
    below [Number.MAX_VALUE] and is the least, no sampled point
    having a distance below it, absent points not being candidates;
    when no sampled point has (the point array is empty, or holds
    only absent points, or only points whose computed distance is not
    below [Number.MAX_VALUE], as those whose square overflows), it
    returns the query point itself. *)
Theorem findNearestPoint_nearest (point : Vector3.t) (this : PathFinder) :
  let r := findNearestPoint point this in
  let d q := Vector3_Distance q point in
  let within q := Double.ltb (d q) Double.MAX_VALUE = true in
  ((exists q, Some q ∈ points this /\ within q) ->
   Some r ∈ points this /\ within r /\
   forall q, Some q ∈ points this -> Double.ltb (d q) (d r) = false) /\
  ((forall q, Some q ∈ points this -> ~ within q) -> r = point).
Proof.
  cbv zeta. unfold findNearestPoint.
  destruct (foldl_nearer point (points this) Double.MAX_VALUE point)
    as (Hall & Hcase).
  destruct Hcase as [[Heq Hge]|(i & Hi & Hd & Hlt & _)].
  - rewrite Heq in *. cbn [fst snd] in *. split; [|reflexivity].
    intros (q & Hq & Hwithin). rewrite (Hge q Hq) in Hwithin.
    discriminate Hwithin.
  - split.
    + intros _. split; [eapply list_elem_of_lookup_2; exact Hi|].
      rewrite <- Hd. split; [exact Hlt|exact Hall].
    + intros Hnone. exfalso.
      apply (Hnone _ (list_elem_of_lookup_2 _ _ _ Hi)). now rewrite <- Hd.
Qed.

(** Three sampled points at the distances 5, 1 and 10 of the origin,
    and an absent one. *)
Definition nearState : PathFinder :=
  {| graph := None; width := 2; height := 2;
     buffer := [Some [Some 1; Some 1]; Some [Some 0; Some 1]];
     points := [Some (Vector3.mk 5 0 0); Some (Vector3.mk 0 0 1); None;
                Some (Vector3.mk 0 10 0)];
     boundingInfo := None |}.

Lemma findNearestPoint_nearest_witness :
  findNearestPoint Vector3.Zero nearState = Vector3.mk 0 0 1 /\
  Some (findNearestPoint Vector3.Zero nearState) ∈ points nearState /\
  Double.ltb (Vector3_Distance (findNearestPoint Vector3.Zero nearState)
                               Vector3.Zero)
             Double.MAX_VALUE = true /\
  forall q, Some q ∈ points nearState ->
    Double.ltb (Vector3_Distance q Vector3.Zero)
               (Vector3_Distance (findNearestPoint Vector3.Zero nearState)
                                 Vector3.Zero) = false.
Proof.
  split; [vm_compute; reflexivity|].
  apply (findNearestPoint_nearest Vector3.Zero nearState).
  exists (Vector3.mk 5 0 0). split; [left|vm_compute; reflexivity].
Defined.

(** ** Graph connectivity *)

Import astar.


(** Every node of the grid sits at its own coordinate. *)
Definition wf_graph (g : Graph) : Prop :=
  forall c n, grid_at g c = Some n -> pos n = c.

Lemma lookupZ_of_nat {A} (l : list A) (i : nat) :
  lookupZ l (Z.of_nat i) = l !! i.
Proof.
  unfold lookupZ. destruct (Z.ltb_spec (Z.of_nat i) 0); [lia|].
  now rewrite Nat2Z.id.
Qed.

Lemma lookupZ_Some {A} (l : list A) (i : Z) (a : A) :
  lookupZ l i = Some a -> 0 <= i /\ l !! Z.to_nat i = Some a.
Proof.
  unfold lookupZ. destruct (Z.ltb_spec i 0); [discriminate|]. auto.
Qed.

Lemma grid_at_node_at (g : Graph) (x y : nat) :
  grid_at g (Z.of_nat x, Z.of_nat y) = node_at g x y.
Proof.
  unfold grid_at, node_at. simpl. rewrite lookupZ_of_nat.
  destruct (grid g !! x); simpl; [apply lookupZ_of_nat|reflexivity].
Qed.

Lemma grid_at_Some (g : Graph) (c : Z * Z) (n : GridNode) :
  grid_at g c = Some n ->
  0 <= c.1 /\ 0 <= c.2 /\ node_at g (Z.to_nat c.1) (Z.to_nat c.2) = Some n.
Proof.
  unfold grid_at, node_at. intros H.
  destruct (lookupZ (grid g) c.1) as [col|] eqn:Hcol; [|discriminate].
  simpl in H. apply lookupZ_Some in Hcol as [? ->], H as [? H]. auto.
Qed.

Lemma attached_wf (W H : nat) (buf : array (array Z))
    (P : nat -> nat -> option Vector3.t) (D : nat -> nat -> Prop) (g : Graph) :
  attached W H buf P D g -> wf_graph g.
Proof.
  intros (Hl & Hc & Hd & Hn) [cx cy] n Hat.
  apply grid_at_Some in Hat as (Hx & Hy & Hat). simpl in *.
  assert (Hlx : (Z.to_nat cx < W)%nat).
  { unfold node_at in Hat.
    destruct (grid g !! Z.to_nat cx) eqn:E; [|discriminate].
    apply lookup_lt_Some in E. lia. }
  assert (Hly : (Z.to_nat cy < H)%nat).
  { unfold node_at in Hat. destruct (Hc _ Hlx) as (col & Hcol & Hlc).
    rewrite Hcol in Hat. simpl in Hat. apply lookup_lt_Some in Hat. lia. }
  destruct (Hn _ _ Hlx Hly) as (n' & Hat' & Hnx & Hny & _).
  rewrite Hat in Hat'. injection Hat' as <-.
  unfold pos. rewrite Hnx, Hny. f_equal; lia.
Qed.





(** ** Path search *)

Lemma Qltb_lt (a b : Q) : Qltb a b = true <-> (a < b)%Q.
Proof.
  unfold Qltb. rewrite negb_true_iff, <- not_true_iff_false, Qle_bool_iff.
  split; [apply Qnot_le_lt|apply Qlt_not_le].
Qed.

Lemma Qltb_ge (a b : Q) : Qltb a b = false <-> (b <= a)%Q.
Proof. unfold Qltb. now rewrite negb_false_iff, Qle_bool_iff. Qed.

Section search.
Variable graph : Graph.
Variable heuristic : GridNode -> GridNode -> Q.
Variables start end_ : GridNode.
Hypothesis graph_wf : wf_graph graph.

(** A node of the graph. *)
Definition in_grid (n : GridNode) : Prop := grid_at graph (pos n) = Some n.

Hypothesis start_in_grid : in_grid start.

(** One move of the search: to a neighbour that is not a wall. *)
Definition step (a b : GridNode) : Prop :=
  b ∈ neighbors graph a /\ isWall b = false.

(** [walk l n]: the nodes [l] are the successive moves of a route from
    [start] to [n] ([start] itself is not listed). *)
Inductive walk : list GridNode -> GridNode -> Prop :=
| walk_nil : walk [] start
| walk_snoc (l : list GridNode) (a b : GridNode) :
    walk l a -> step a b -> walk (l ++ [b]) b.

(** The nodes reachable from [start]. *)
Definition reach (n : GridNode) : Prop := exists l, walk l n.

Lemma in_grid_eq (n m : GridNode) :
  in_grid n -> in_grid m -> pos n = pos m -> n = m.
Proof. unfold in_grid. intros Hn Hm Hp. rewrite Hp in Hn. congruence. Qed.

Lemma neighbors_in_grid (a b : GridNode) : b ∈ neighbors graph a -> in_grid b.
Proof.
  unfold neighbors. rewrite elem_of_app, !list_elem_of_omap.
  intros [(c & _ & Hc)|Hdiag].
  - unfold in_grid. now rewrite (graph_wf c b Hc).
  - destruct (diagonal graph); [|now apply elem_of_nil in Hdiag].
    apply list_elem_of_omap in Hdiag as (c & _ & Hc).
    unfold in_grid. now rewrite (graph_wf c b Hc).
Qed.

Lemma walk_in_grid (l : list GridNode) (n : GridNode) : walk l n -> in_grid n.
Proof.
  induction 1 as [|l a b _ _ [Hb _]]; [exact start_in_grid|].
  eapply neighbors_in_grid, Hb.
Qed.

Lemma in_grid_nodes (n : GridNode) : in_grid n -> n ∈ mjoin (grid graph).
Proof.
  intros Hn. apply grid_at_Some in Hn as (_ & _ & Hat). unfold node_at in Hat.
  destruct (grid graph !! Z.to_nat (pos n).1) as [col|] eqn:Hcol;
    [|discriminate].
  simpl in Hat. apply list_elem_of_join. exists col.
  split; eapply list_elem_of_lookup_2; eassumption.
Qed.

(** *** The frontier *)

Lemma pop_spec (sc : Z * Z -> Score) (heap : list GridNode) :
  match pop sc heap with
  | None => heap = []
  | Some (n, rest) => heap ≡ₚ n :: rest
  end.
Proof.
  induction heap as [|a heap IH]; simpl; [reflexivity|].
  destruct (pop sc heap) as [[m rest]|].
  - destruct (Qltb _ _).
    + rewrite IH. apply Permutation_swap.
    + reflexivity.
  - now subst heap.
Qed.

(** *** Progress measure: the nodes not yet expanded *)

Definition unclosed (sc : Z * Z -> Score) : nat :=
  length (filter (fun n => closed (sc (pos n)) = false) (mjoin (grid graph))).

Lemma unclosed_ext (sc sc' : Z * Z -> Score) :
  (forall c, closed (sc c) = closed (sc' c)) -> unclosed sc = unclosed sc'.
Proof.
  intros Hc. unfold unclosed. f_equal. apply list_filter_iff.
  intros n. now rewrite Hc.
Qed.

Lemma filter_length_lt {A} (P Q : A -> Prop) `{!forall x, Decision (P x)}
    `{!forall x, Decision (Q x)} (l : list A) (a : A) :
  (forall x, x ∈ l -> Q x -> P x) -> a ∈ l -> P a -> ~ Q a ->
  (length (filter Q l) < length (filter P l))%nat.
Proof.
  intros Himp Ha HPa HQa. induction l as [|x l IH]; [now apply elem_of_nil in Ha|].
  assert (Hle : forall l', (forall x, x ∈ l' -> Q x -> P x) ->
                  (length (filter Q l') <= length (filter P l'))%nat).
  { clear. intros l' Himp. induction l' as [|x l' IH]; [reflexivity|].
    rewrite !filter_cons.
    assert (IH' : (length (filter Q l') <= length (filter P l'))%nat).
    { apply IH. intros y Hy. apply Himp. now right. }
    destruct (decide (Q x)) as [HQ|HQ].
    - rewrite decide_True by (apply Himp; [left|assumption]). simpl. lia.
    - destruct (decide (P x)); simpl; lia. }
  rewrite !filter_cons. apply elem_of_cons in Ha as [<-|Ha].
  - rewrite (decide_True (P:=P a)), (decide_False (P:=Q a)) by assumption.
    simpl. specialize (Hle l ltac:(intros y Hy; apply Himp; now right)). lia.
  - specialize (IH ltac:(intros y Hy; apply Himp; now right) Ha).
    destruct (decide (Q x)) as [HQ|HQ].
    + rewrite decide_True by (apply Himp; [left|assumption]). simpl. lia.
    + destruct (decide (P x)); simpl; lia.
Qed.

(** *** The invariant of the search *)

(** A node the search has reached. *)
Definition seen (st : State) (n : GridNode) : Prop :=
  visited (scores st (pos n)) = true \/ n = start.

(** The state of the search while the neighbours [todo] of the node
    [current], which is being expanded, remain to be treated. *)
Record Inv (current : GridNode) (todo : list GridNode) (st : State) : Prop := {
  inv_open : forall n, n ∈ openHeap st ->
    in_grid n /\ closed (scores st (pos n)) = false /\
    visited (scores st (pos n)) = true;
  inv_nodup : NoDup (openHeap st);
  inv_frontier : forall n, in_grid n ->
    visited (scores st (pos n)) = true -> closed (scores st (pos n)) = false ->
    n ∈ openHeap st;
  inv_closed : forall n, in_grid n -> closed (scores st (pos n)) = true ->
    seen st n /\ pos n <> pos end_ /\
    forall b, step n b -> seen st b \/ (n = current /\ b ∈ todo);
  inv_seen : forall n, in_grid n -> seen st n ->
    h (scores st (pos n)) = heuristic n end_ /\
    walk (path (scores st (pos n))) n;
  inv_closest :
    in_grid (closestNode st) /\ seen st (closestNode st) /\
    forall n, in_grid n -> seen st n ->
      (h (scores st (pos (closestNode st))) <= h (scores st (pos n)))%Q;
  inv_fresh : forall c, visited (scores st c) = false -> c <> pos start ->
    Qeq_bool (h (scores st c)) 0 = true;
  inv_start : closed (scores st (pos start)) = true;
  inv_current : in_grid current /\ closed (scores st (pos current)) = true;
  inv_todo : forall b, b ∈ todo -> b ∈ neighbors graph current
}.

(** A neighbour that needs no update leaves the invariant as it is. *)
Lemma Inv_skip (current b : GridNode) (todo : list GridNode) (st : State) :
  Inv current (b :: todo) st -> (isWall b = false -> seen st b) ->
  Inv current todo st.
Proof.
  intros [] Hb. split; try assumption.
  - intros n Hn Hc. destruct (inv_closed0 n Hn Hc) as (Hs & He & Hstep).
    split; [assumption|]. split; [assumption|]. intros b' Hb'.
    destruct (Hstep b' Hb') as [?|[-> Hin]]; [now left|].
    apply elem_of_cons in Hin as [->|Hin]; [|now right].
    left. apply Hb. apply Hb'.
  - intros b' Hb'. apply inv_todo0. now right.
Qed.

(** The state after an update of the neighbour [b] of [current]. *)
Definition improved (current : GridNode) (st : State) (b : GridNode) : State :=
  let sn := scores st (pos b) in
  let gScore := (g (scores st (pos current)) + getCost b current)%Q in
  let h' := if Qeq_bool (h sn) 0 then heuristic b end_ else h sn in
  let sn' := {| f := (gScore + h')%Q; g := gScore; h := h';
                visited := true; closed := closed sn;
                path := path (scores st (pos current)) ++ [b] |} in
  let scores' := <[pos b := sn']> (scores st) in
  let sc := scores' (pos (closestNode st)) in
  {| scores := scores';
     openHeap := if visited sn then openHeap st else openHeap st ++ [b];
     closestNode :=
       if Qltb h' (h sc) || (Qeq_bool h' (h sc) && Qltb gScore (g sc))
       then b else closestNode st |}.

Lemma visit_cases (current : GridNode) (st : State) (b : GridNode) :
  (visit heuristic end_ true current st b = st /\
   (closed (scores st (pos b)) = true \/ isWall b = true \/
    visited (scores st (pos b)) = true)) \/
  (visit heuristic end_ true current st b = improved current st b /\
   closed (scores st (pos b)) = false /\ isWall b = false).
Proof.
  unfold visit, improved.
  destruct (closed (scores st (pos b))) eqn:Hc; [left; auto|].
  destruct (isWall b) eqn:Hw; [left; auto|]. simpl.
  destruct (visited (scores st (pos b))) eqn:Hv; simpl.
  - destruct (Qltb _ _); [right|left]; auto.
  - right. auto.
Qed.

Lemma improved_inv (current b : GridNode) (todo : list GridNode) (st : State) :
  Inv current (b :: todo) st ->
  closed (scores st (pos b)) = false -> isWall b = false ->
  Inv current todo (improved current st b).
Proof.
  intros HI Hcb Hwb.
  assert (Hbn : b ∈ neighbors graph current) by (apply (inv_todo _ _ _ HI); left).
  pose proof (neighbors_in_grid _ _ Hbn) as Hbg.
  destruct (inv_current _ _ _ HI) as [Hcg Hcc].
  assert (Hbs : pos b <> pos start).
  { intros E. rewrite E, (inv_start _ _ _ HI) in Hcb. discriminate. }
  assert (Hbc : pos b <> pos current).
  { intros E. rewrite E, Hcc in Hcb. discriminate. }
  destruct (inv_closed _ _ _ HI current Hcg Hcc) as (Hcs & _ & _).
  destruct (inv_seen _ _ _ HI current Hcg Hcs) as [_ Hcw].
  assert (Hstep : step current b) by (split; assumption).
  set (sn := scores st (pos b)) in *.
  set (gScore := (g (scores st (pos current)) + getCost b current)%Q).
  set (h' := if Qeq_bool (h sn) 0 then heuristic b end_ else h sn).
  assert (Hh' : h' = heuristic b end_).
  { subst h'. destruct (Qeq_bool (h sn) 0) eqn:E; [reflexivity|].
    destruct (visited sn) eqn:Hv.
    - apply (inv_seen _ _ _ HI b Hbg). now left.
    - pose proof (inv_fresh _ _ _ HI (pos b) Hv Hbs) as E'. fold sn in E'.
      congruence. }
  set (sn' := {| f := (gScore + h')%Q; g := gScore; h := h'; visited := true;
                 closed := closed sn;
                 path := path (scores st (pos current)) ++ [b] |}).
  assert (Hsb : scores (improved current st b) (pos b) = sn')
    by apply fn_lookup_insert.
  assert (Hso : forall c, c <> pos b ->
                  scores (improved current st b) c = scores st c)
    by (intros c Hc; now apply fn_lookup_insert_ne).
  assert (Hnode : forall n, in_grid n ->
            (n = b /\ scores (improved current st b) (pos n) = sn') \/
            (pos n <> pos b /\
             scores (improved current st b) (pos n) = scores st (pos n))).
  { intros n Hn. destruct (decide (pos n = pos b)) as [E|E].
    - left. split; [now apply in_grid_eq|]. now rewrite E.
    - right. split; [assumption|]. now apply Hso. }
  assert (Hseen : forall n, in_grid n ->
            (seen (improved current st b) n <-> seen st n \/ n = b)).
  { intros n Hn. unfold seen.
    destruct (Hnode n Hn) as [[-> ->]|[Hne ->]]; [simpl; tauto|].
    split; [tauto|]. intros [?| ->]; [assumption|congruence]. }
  assert (Hopen : forall n, n ∈ openHeap (improved current st b) <->
                            n ∈ openHeap st \/ n = b).
  { intros n. unfold improved. cbn [openHeap]. fold sn.
    destruct (visited sn) eqn:Hv.
    - split; [tauto|]. intros [?| ->]; [assumption|].
      now apply (inv_frontier _ _ _ HI).
    - rewrite elem_of_app, list_elem_of_singleton. reflexivity. }
  split.
  - (* open *)
    intros n Hn. apply Hopen in Hn.
    assert (Hng : in_grid n).
    { destruct Hn as [Hn| ->]; [|assumption]. now apply (inv_open _ _ _ HI). }
    destruct (Hnode n Hng) as [[-> ->]|[Hne ->]]; [simpl; auto|].
    destruct Hn as [Hn| ->]; [|congruence]. now apply (inv_open _ _ _ HI).
  - (* nodup *)
    unfold improved. cbn [openHeap]. fold sn.
    destruct (visited sn) eqn:Hv; [apply (inv_nodup _ _ _ HI)|].
    apply NoDup_app. split; [apply (inv_nodup _ _ _ HI)|]. split.
    + intros n Hn Hnb. apply list_elem_of_singleton in Hnb. subst n.
      destruct (inv_open _ _ _ HI b Hn) as (_ & _ & Hvb). fold sn in Hvb.
      congruence.
    + apply NoDup_singleton.
  - (* frontier *)
    intros n Hn Hv Hc. apply Hopen.
    destruct (Hnode n Hn) as [[-> _]|[Hne E]]; [now right|].
    rewrite E in Hv, Hc. left. now apply (inv_frontier _ _ _ HI).
  - (* closed *)
    intros n Hn Hc.
    destruct (Hnode n Hn) as [[-> E]|[Hne E]]; rewrite E in Hc.
    { simpl in Hc. congruence. }
    destruct (inv_closed _ _ _ HI n Hn Hc) as (Hs & He & Hst).
    split; [apply Hseen; auto|]. split; [assumption|].
    intros b' Hb'. destruct (Hst b' Hb') as [Hs'|[-> Hin]].
    + left. apply Hseen; [|now left]. eapply neighbors_in_grid, Hb'.
    + apply elem_of_cons in Hin as [->|Hin]; [|now right].
      left. apply Hseen; auto.
  - (* seen *)
    intros n Hn Hs. apply (Hseen n Hn) in Hs.
    destruct (Hnode n Hn) as [[-> ->]|[Hne ->]].
    + simpl. split; [assumption|]. now apply walk_snoc with (a := current).
    + destruct Hs as [Hs| ->]; [|congruence]. now apply (inv_seen _ _ _ HI).
  - (* closest *)
    destruct (inv_closest _ _ _ HI) as (Hkg & Hks & Hkmin).
    set (sk := scores (improved current st b) (pos (closestNode st))).
    assert (Hk : closestNode (improved current st b) =
                 if Qltb h' (h sk) || Qeq_bool h' (h sk) && Qltb gScore (g sk)
                 then b else closestNode st) by reflexivity.
    rewrite Hk.
    assert (Hold : forall n, in_grid n -> seen st n ->
                     (h (scores st (pos n)) = h (scores (improved current st b) (pos n)))).
    { intros n Hn Hs. destruct (Hnode n Hn) as [[-> ->]|[_ ->]]; [|reflexivity].
      simpl. rewrite Hh'. now apply (inv_seen _ _ _ HI). }
    destruct (Qltb h' (h sk) || Qeq_bool h' (h sk) && Qltb gScore (g sk)) eqn:Hcmp.
    + (* the neighbour becomes the closest node *)
      assert (Hle : (h' <= h sk)%Q).
      { apply orb_true_iff in Hcmp as [Hlt|Heq].
        - apply Qltb_lt in Hlt. now apply Qlt_le_weak.
        - apply andb_true_iff in Heq as [Heq _]. apply Qeq_bool_iff in Heq.
          rewrite Heq. apply Qle_refl. }
      split; [assumption|]. split; [apply Hseen; auto|].
      intros n Hn Hs. rewrite Hsb. change (h sn') with h'.
      apply (Hseen n Hn) in Hs. destruct Hs as [Hs| ->].
      * rewrite <- (Hold n Hn Hs). eapply Qle_trans; [exact Hle|]. subst sk.
        rewrite <- (Hold _ Hkg Hks). now apply Hkmin.
      * rewrite Hsb. apply Qle_refl.
    + (* the closest node stays *)
      split; [assumption|]. split; [apply Hseen; auto|].
      intros n Hn Hs. apply (Hseen n Hn) in Hs. destruct Hs as [Hs| ->].
      * rewrite <- (Hold n Hn Hs), <- (Hold _ Hkg Hks). now apply Hkmin.
      * rewrite Hsb. change (h sn') with h'. fold sk.
        apply orb_false_iff in Hcmp as [Hlt _]. now apply Qltb_ge.
  - (* fresh *)
    intros c Hv Hc. destruct (decide (c = pos b)) as [->|Hne].
    + rewrite Hsb in Hv. simpl in Hv. discriminate.
    + rewrite (Hso c Hne) in *. now apply (inv_fresh _ _ _ HI).
  - (* start *)
    rewrite Hso by congruence. apply (inv_start _ _ _ HI).
  - (* current *)
    split; [assumption|]. rewrite Hso by congruence. assumption.
  - (* todo *)
    intros b' Hb'. apply (inv_todo _ _ _ HI). now right.
Qed.

Lemma visit_inv (current b : GridNode) (todo : list GridNode) (st : State) :
  Inv current (b :: todo) st ->
  Inv current todo (visit heuristic end_ true current st b).
Proof.
  intros HI.
  destruct (visit_cases current st b) as [[-> Hcase]|(-> & Hc & Hw)].
  - apply (Inv_skip current b); [assumption|]. intros Hw.
    destruct Hcase as [Hc|[Hw'|Hv]]; [|congruence|now left].
    apply (inv_closed _ _ _ HI); [|assumption].
    eapply neighbors_in_grid, (inv_todo _ _ _ HI). left.
  - now apply improved_inv.
Qed.

Lemma visit_all_inv (current : GridNode) (todo : list GridNode) (st : State) :
  Inv current todo st ->
  Inv current [] (foldl (visit heuristic end_ true current) st todo).
Proof.
  revert st. induction todo as [|b todo IH]; intros st HI; simpl;
    [assumption|].
  apply IH. now apply visit_inv.
Qed.

(** Treating a neighbour does not expand any node. *)
Lemma visit_closed (current : GridNode) (st : State) (b : GridNode) (c : Z * Z) :
  closed (scores (visit heuristic end_ true current st b) c) = closed (scores st c).
Proof.
  destruct (visit_cases current st b) as [[-> _]|(-> & _ & _)]; [reflexivity|].
  unfold improved. cbn [scores].
  destruct (decide (c = pos b)) as [->|Hne].
  - now rewrite fn_lookup_insert.
  - now rewrite fn_lookup_insert_ne.
Qed.

Lemma visit_all_closed (current : GridNode) (todo : list GridNode) (st : State)
    (c : Z * Z) :
  closed (scores (foldl (visit heuristic end_ true current) st todo) c)
  = closed (scores st c).
Proof.
  revert st. induction todo as [|b todo IH]; intros st; simpl; [reflexivity|].
  now rewrite IH, visit_closed.
Qed.

(** The state in which the node [current], taken from the frontier,
    has been marked as expanded. *)
Definition expanding (st : State) (current : GridNode) (rest : list GridNode)
  : State :=
  let sc := scores st (pos current) in
  {| scores := <[pos current :=
                   {| f := f sc; g := g sc; h := h sc; visited := visited sc;
                      closed := true; path := path sc |}]> (scores st);
     openHeap := rest;
     closestNode := closestNode st |}.

Lemma expanding_inv (previous current : GridNode) (rest : list GridNode)
    (st : State) :
  Inv previous [] st ->
  pop (scores st) (openHeap st) = Some (current, rest) ->
  pos current <> pos end_ ->
  Inv current (neighbors graph current) (expanding st current rest) /\
  (unclosed (scores (expanding st current rest)) < unclosed (scores st))%nat.
Proof.
  intros HI Hpop Hend.
  pose proof (pop_spec (scores st) (openHeap st)) as Hperm.
  rewrite Hpop in Hperm.
  assert (Hin : forall n, n ∈ openHeap st <-> n = current \/ n ∈ rest).
  { intros n. rewrite Hperm. apply elem_of_cons. }
  pose proof (inv_nodup _ _ _ HI) as Hnd. rewrite Hperm in Hnd.
  apply NoDup_cons in Hnd as [Hnotin Hnd].
  destruct (inv_open _ _ _ HI current) as (Hcg & Hcc & Hcv);
    [apply Hin; now left|].
  set (st' := expanding st current rest).
  assert (Hsame : forall c,
            visited (scores st' c) = visited (scores st c) /\
            h (scores st' c) = h (scores st c) /\
            path (scores st' c) = path (scores st c)).
  { intros c. unfold st', expanding. cbn [scores].
    destruct (decide (c = pos current)) as [->|Hne].
    - now rewrite fn_lookup_insert.
    - now rewrite fn_lookup_insert_ne. }
  assert (Hclosed : forall n, in_grid n ->
            closed (scores st' (pos n)) = true <->
            n = current \/ closed (scores st (pos n)) = true).
  { intros n Hn. unfold st', expanding. cbn [scores].
    destruct (decide (pos n = pos current)) as [E|Hne].
    - rewrite E, fn_lookup_insert. simpl.
      split; [left; now apply in_grid_eq|reflexivity].
    - rewrite fn_lookup_insert_ne by congruence.
      split; [now right|]. intros [->|?]; [congruence|assumption]. }
  assert (Hseen : forall n, seen st' n <-> seen st n).
  { intros n. unfold seen. now destruct (Hsame (pos n)) as (-> & _). }
  split; [split|].
  - intros n Hn. destruct (inv_open _ _ _ HI n) as (Hng & Hnc & Hnv);
      [apply Hin; now right|].
    split; [assumption|]. destruct (Hsame (pos n)) as (-> & _).
    split; [|assumption].
    destruct (closed (scores st' (pos n))) eqn:E; [|reflexivity].
    apply (Hclosed n Hng) in E as [->|E]; [contradiction|congruence].
  - assumption.
  - intros n Hn Hv Hc. destruct (Hsame (pos n)) as (Hv' & _).
    rewrite Hv' in Hv.
    assert (Hc' : closed (scores st (pos n)) = false).
    { destruct (closed (scores st (pos n))) eqn:E; [|reflexivity].
      assert (closed (scores st' (pos n)) = true)
        by (apply Hclosed; auto). congruence. }
    destruct (proj1 (Hin n) (inv_frontier _ _ _ HI n Hn Hv Hc')) as [->|?];
      [|assumption].
    assert (closed (scores st' (pos current)) = true)
      by (apply Hclosed; auto). congruence.
  - intros n Hn Hc. apply (Hclosed n Hn) in Hc as [->|Hc].
    + split; [apply Hseen; now left|]. split; [assumption|].
      intros b [Hb _]. right. auto.
    + destruct (inv_closed _ _ _ HI n Hn Hc) as (Hs & He & Hst).
      split; [now apply Hseen|]. split; [assumption|].
      intros b Hb. destruct (Hst b Hb) as [?|[_ Hnil]];
        [left; now apply Hseen|now apply elem_of_nil in Hnil].
  - intros n Hn Hs. apply Hseen in Hs.
    destruct (Hsame (pos n)) as (_ & -> & ->). now apply (inv_seen _ _ _ HI).
  - destruct (inv_closest _ _ _ HI) as (Hkg & Hks & Hkmin).
    change (closestNode st') with (closestNode st).
    split; [assumption|]. split; [now apply Hseen|].
    intros n Hn Hs. apply Hseen in Hs.
    destruct (Hsame (pos n)) as (_ & -> & _).
    destruct (Hsame (pos (closestNode st))) as (_ & -> & _). now apply Hkmin.
  - intros c Hv Hc. destruct (Hsame c) as (Hv' & -> & _).
    rewrite Hv' in Hv. now apply (inv_fresh _ _ _ HI).
  - apply (Hclosed start start_in_grid). right. apply (inv_start _ _ _ HI).
  - split; [assumption|]. apply (Hclosed current Hcg). now left.
  - auto.
  - unfold unclosed. apply (filter_length_lt _ _ _ current).
    + intros n Hn Hc. destruct (closed (scores st (pos n))) eqn:E;
        [|reflexivity].
      assert (Hc' : closed (scores st' (pos n)) = true); [|congruence].
      unfold st', expanding. cbn [scores].
      destruct (decide (pos n = pos current)) as [->|Hne].
      * now rewrite fn_lookup_insert.
      * now rewrite fn_lookup_insert_ne.
    + now apply in_grid_nodes.
    + assumption.
    + cbv beta. fold st'.
      assert (closed (scores st' (pos current)) = true)
        by (apply Hclosed; auto). congruence.
Qed.

(** *** What the search returns *)

(** The route [p] leads to the destination. *)
Definition found (p : list GridNode) : Prop :=
  exists n, in_grid n /\ pos n = pos end_ /\ walk p n.

(** The route [p] leads to a reachable node that is closest to the
    destination by the heuristic, no reachable node being the
    destination. *)
Definition fell_back (p : list GridNode) : Prop :=
  exists c, walk p c /\
    forall v, reach v ->
      (heuristic c end_ <= heuristic v end_)%Q /\ pos v <> pos end_.

(** Once the frontier is empty, every reachable node has been
    expanded. *)
Lemma exhausted_reach (current : GridNode) (st : State) :
  Inv current [] st -> openHeap st = [] ->
  forall l v, walk l v ->
    in_grid v /\ seen st v /\ closed (scores st (pos v)) = true.
Proof.
  intros HI Hopen l v Hwalk.
  induction Hwalk as [|l a b Hwalk (Hag & Has & Hac) Hstep].
  - split; [assumption|]. split; [now right|apply (inv_start _ _ _ HI)].
  - assert (Hbg : in_grid b) by (eapply neighbors_in_grid, Hstep).
    destruct (inv_closed _ _ _ HI a Hag Hac) as (_ & _ & Hst).
    destruct (Hst b Hstep) as [Hbs|[_ Hnil]];
      [|now apply elem_of_nil in Hnil].
    split; [assumption|]. split; [assumption|].
    destruct Hbs as [Hv| ->]; [|apply (inv_start _ _ _ HI)].
    destruct (closed (scores st (pos b))) eqn:Hc; [reflexivity|].
    pose proof (inv_frontier _ _ _ HI b Hbg Hv Hc) as Hin.
    rewrite Hopen in Hin. now apply elem_of_nil in Hin.
Qed.

Lemma loop_spec (fuel : nat) (st : State) (previous : GridNode) :
  Inv previous [] st -> (unclosed (scores st) < fuel)%nat ->
  exists p, loop fuel graph heuristic end_ true st = Some p /\
            (found p \/ fell_back p).
Proof.
  revert st previous. induction fuel as [|fuel IH]; intros st previous HI Hfuel;
    [lia|].
  simpl. destruct (pop (scores st) (openHeap st)) as [[current rest]|] eqn:Hpop.
  - destruct (decide (pos current = pos end_)) as [Hend|Hend].
    + eexists. split; [reflexivity|]. left.
      pose proof (pop_spec (scores st) (openHeap st)) as Hperm.
      rewrite Hpop in Hperm.
      destruct (inv_open _ _ _ HI current) as (Hcg & _ & Hcv);
        [rewrite Hperm; left|].
      exists current. split; [assumption|]. split; [assumption|].
      apply (inv_seen _ _ _ HI); [assumption|now left].
    + destruct (expanding_inv previous current rest st HI Hpop Hend)
        as [HI' Hlt].
      apply (IH _ current).
      * apply visit_all_inv. exact HI'.
      * rewrite (unclosed_ext _ (scores (expanding st current rest)))
          by (intros c; apply visit_all_closed).
        lia.
  - eexists. split; [reflexivity|]. right.
    pose proof (pop_spec (scores st) (openHeap st)) as Hopen.
    rewrite Hpop in Hopen.
    destruct (inv_closest _ _ _ HI) as (Hkg & Hks & Hkmin).
    destruct (inv_seen _ _ _ HI _ Hkg Hks) as [Hkh Hkw].
    exists (closestNode st). split; [assumption|]. intros v [l Hv].
    destruct (exhausted_reach previous st HI Hopen l v Hv) as (Hvg & Hvs & Hvc).
    destruct (inv_seen _ _ _ HI v Hvg Hvs) as [Hvh _].
    rewrite <- Hkh, <- Hvh. split; [now apply Hkmin|].
    apply (inv_closed _ _ _ HI v Hvg Hvc).
Qed.

(** The search on a graph: it returns within the fuel of one expansion
    per node, the route is empty when the start is the destination, and
    it leads to the destination or, when the destination cannot be
    reached, to a closest reachable node. *)
Lemma search_spec :
  exists p,
    search (S (nodeCount graph)) graph start end_ heuristic true = Some p /\
    (pos start = pos end_ -> p = []) /\
    (found p \/ fell_back p).
Proof.
  unfold search. cbn [loop pop scores openHeap].
  destruct (decide (pos start = pos end_)) as [Hend|Hend].
  - rewrite fn_lookup_insert. cbn [path]. exists []. split; [reflexivity|].
    split; [reflexivity|]. left. exists start. split; [assumption|].
    split; [assumption|constructor].
  - set (s0 := {| f := 0; g := 0; h := heuristic start end_; visited := false;
                  closed := false; path := [] |}).
    set (st0 := {| scores := <[pos start := s0]> (fun _ => clean);
                   openHeap := [start]; closestNode := start |}).
    change (exists p,
      loop (nodeCount graph) graph heuristic end_ true
           (foldl (visit heuristic end_ true start) (expanding st0 start [])
                  (neighbors graph start)) = Some p /\
      (pos start = pos end_ -> p = []) /\ (found p \/ fell_back p)).
    assert (Hs : scores (expanding st0 start []) (pos start) =
                 {| f := 0; g := 0; h := heuristic start end_; visited := false;
                    closed := true; path := [] |}).
    { unfold expanding, st0. cbn [scores]. now rewrite !fn_lookup_insert. }
    assert (Ho : forall c, c <> pos start ->
                   scores (expanding st0 start []) c = clean).
    { intros c Hc. unfold expanding, st0. cbn [scores].
      now rewrite !fn_lookup_insert_ne by congruence. }
    assert (Hv : forall c, visited (scores (expanding st0 start []) c) = false).
    { intros c. destruct (decide (c = pos start)) as [->|Hne].
      - now rewrite Hs.
      - now rewrite Ho. }
    assert (Hc : forall n, in_grid n ->
                   closed (scores (expanding st0 start []) (pos n)) = true ->
                   n = start).
    { intros n Hn Hcl. destruct (decide (pos n = pos start)) as [E|Hne].
      - now apply in_grid_eq.
      - rewrite Ho in Hcl by assumption. discriminate. }
    assert (Hseen : forall n, seen (expanding st0 start []) n -> n = start).
    { intros n [Hvn|?]; [|assumption]. rewrite Hv in Hvn. discriminate. }
    assert (HI : Inv start (neighbors graph start) (expanding st0 start [])).
    { split.
      - intros n Hn. now apply elem_of_nil in Hn.
      - constructor.
      - intros n _ Hvn. rewrite Hv in Hvn. discriminate.
      - intros n Hn Hcl. apply (Hc n Hn) in Hcl. subst n.
        split; [now right|]. split; [assumption|].
        intros b [Hb _]. right. auto.
      - intros n Hn Hsn. apply Hseen in Hsn. subst n. rewrite Hs. simpl.
        split; [reflexivity|constructor].
      - change (closestNode (expanding st0 start [])) with start.
        split; [assumption|]. split; [now right|].
        intros n Hn Hsn. apply Hseen in Hsn. subst n. apply Qle_refl.
      - intros c _ Hne. now rewrite Ho.
      - now rewrite Hs.
      - split; [assumption|now rewrite Hs].
      - auto. }
    destruct (loop_spec (nodeCount graph)
                (foldl (visit heuristic end_ true start) (expanding st0 start [])
                       (neighbors graph start)) start)
      as (p & Hp & Hpost).
    + now apply visit_all_inv.
    + rewrite (unclosed_ext _ (scores (expanding st0 start [])))
        by (intros c; apply visit_all_closed).
      apply (length_filter_lt _ _ start); [now apply in_grid_nodes|].
      rewrite Hs. discriminate.
    + exists p. split; [assumption|]. split; [contradiction|assumption].
Qed.

End search.

(** ** [fromTo] as a whole *)

(** C9: on a filled grid, [fromTo] raises nothing and its search
    returns: when the start and the end resolve to the same node the
    node path is empty, and so is the result; when the destination
    node cannot be reached from the start node, the node path is a
    route from the start node to a reachable node whose
    diagonal-distance heuristic to the destination is the least among
    the reachable nodes. *)
Theorem fromTo_search (castMeshes : list AbstractMesh)
    (rayHeight rayLength : option Q) (this0 this : PathFinder)
    (from to : Vector3.t) :
  0 < width this0 < 2 ^ 31 ->
  fill castMeshes rayHeight rayLength this0 = Ok this ->
  exists g start end_ path,
    graph this = Some g /\
    grid_at g (gridCoords this from to).1 = Some start /\
    grid_at g (gridCoords this from to).2 = Some end_ /\
    search (S (nodeCount g)) g start end_ diagonal_heuristic true = Some path /\
    fromTo from to this = Some (Ok (toWorldPath path from to)) /\
    (start = end_ -> path = [] /\ fromTo from to this = Some (Ok [])) /\
    (~ reach g start end_ ->
     fell_back g diagonal_heuristic start end_ path).
Proof.
  intros Hw Hfill.
  destruct (fill_ok castMeshes rayHeight rayLength this0 ltac:(lia))
    as (buf & g & Hfill' & Hs & Hc & Ha).
  rewrite Hfill' in Hfill. injection Hfill as <-.
  set (this := {| graph := Some g; width := width this0 |}) in *.
  assert (Hvalid : valid this).
  { unfold valid. cbn [width height points this]. split; [lia|].
    split; [reflexivity|]. right. rewrite length_columns. lia. }
  pose proof (attached_wf _ _ _ _ _ _ Ha) as Hwf.
  destruct Ha as (_ & _ & _ & Hn).
  assert (Hnode : forall t, exists n,
            let i := Z.of_nat (resolveIndex (points this) t) in
            grid_at g (i / width this0, i mod width this0) = Some n /\
            in_grid g n).
  { intros t. cbv zeta.
    set (i := Z.of_nat (resolveIndex (points this) t)).
    assert (Hi : 0 <= i < width this0 * width this0).
    { destruct Hvalid as (_ & _ & Hlen). cbn [width this] in Hlen.
      pose proof (resolveIndex_bound (points this) t). subst i. nia. }
    assert (Hx : 0 <= i / width this0 < width this0).
    { split; [apply Z.div_pos; lia|apply Z.div_lt_upper_bound; lia]. }
    pose proof (Z.mod_pos_bound i (width this0) ltac:(lia)) as Hy.
    destruct (Hn (Z.to_nat (i / width this0)) (Z.to_nat (i mod width this0)))
      as (n & Hat & _); [lia..|].
    exists n. rewrite <- grid_at_node_at, !Z2Nat.id in Hat by lia.
    split; [assumption|]. unfold in_grid. now rewrite (Hwf _ _ Hat). }
  destruct (Hnode from) as (start & Hstart & Hsg).
  destruct (Hnode to) as (end_ & Hend & Heg).
  destruct (search_spec g diagonal_heuristic start end_ Hwf Hsg)
    as (path & Hsearch & Hsame & Hpost).
  assert (Hcoords := gridCoords_valid this from to Hvalid).
  cbn [width height this] in Hcoords. cbv zeta in Hstart, Hend.
  assert (HfromTo : fromTo from to this = Some (Ok (toWorldPath path from to))).
  { unfold fromTo. rewrite Hcoords. cbn [graph this].
    unfold grid_at in Hstart, Hend. cbn [fst snd] in Hstart, Hend.
    apply bind_Some in Hstart as (cs & Hcs & Hstart).
    apply bind_Some in Hend as (ce & Hce & Hend).
    rewrite Hcs, Hce, Hstart, Hend, Hsearch. reflexivity. }
  exists g, start, end_, path. split; [reflexivity|].
  rewrite Hcoords. cbn [fst snd]. split; [assumption|]. split; [assumption|].
  split; [assumption|]. split; [assumption|]. split.
  - intros ->. rewrite HfromTo, Hsame by reflexivity. split; reflexivity.
  - intros Hunreach. destruct Hpost as [(n & Hng & Hpn & Hwalk)|?];
      [|assumption].
    exfalso. apply Hunreach. exists path.
    now rewrite <- (in_grid_eq g n end_ Hng Heg Hpn).
Qed.

(** Two flat banks over the square [[0, 3] x [0, 3]], separated by a
    gap along [x = 1]: a downward ray hits a bank unless it starts
    above the gap. *)
Definition banks : AbstractMesh :=
  {| _boundingInfo :=
       {| minimum := Vector3.mk 0 0 0; maximum := Vector3.mk 3 0 3;
          boundingBox := {| centerWorld := Vector3.mk (3 # 2) 0 (3 # 2) |} |};
     intersects := fun r =>
       if Qeq_bool (Vector3.x (Ray.origin r)) 1
       then {| hit := false; pickedPoint := None; distance := 0 |}
       else {| hit := true;
               pickedPoint := Some (Vector3.mk (Vector3.x (Ray.origin r)) 0
                                               (Vector3.z (Ray.origin r)));
               distance := Vector3.y (Ray.origin r) |} |}.

(** The grid of side 3 filled over [banks]: the row [x = 1] of the mask
    is unwalkable. *)
Definition filledBanks : PathFinder :=
  Eval vm_compute in
    match fill [banks] None None (sized 3) with
    | Ok this => this
    | Throw _ => initial
    end.

Lemma fromTo_search_witness :
  exists g start end_ path,
    graph filledBanks = Some g /\
    grid_at g (gridCoords filledBanks (Vector3.mk 0 0 0) (Vector3.mk 2 0 2)).1
      = Some start /\
    grid_at g (gridCoords filledBanks (Vector3.mk 0 0 0) (Vector3.mk 2 0 2)).2
      = Some end_ /\
    search (S (nodeCount g)) g start end_ diagonal_heuristic true = Some path /\
    fromTo (Vector3.mk 0 0 0) (Vector3.mk 2 0 2) filledBanks
      = Some (Ok (toWorldPath path (Vector3.mk 0 0 0) (Vector3.mk 2 0 2))) /\
    (start = end_ ->
     path = [] /\
     fromTo (Vector3.mk 0 0 0) (Vector3.mk 2 0 2) filledBanks = Some (Ok [])) /\
    (~ reach g start end_ ->
     fell_back g diagonal_heuristic start end_ path).
Proof.
  apply (fromTo_search [banks] None None (sized 3) filledBanks
           (Vector3.mk 0 0 0) (Vector3.mk 2 0 2)).
  - simpl. lia.
  - reflexivity.
Defined.

(** On [filledBanks], from the node [(0, 0)] to the node [(2, 2)] on
    the other bank: the search stops at the node [(0, 2)], the closest
    to the destination on the start's bank. *)
Lemma search_banks :
  exists g start end_,
    graph filledBanks = Some g /\
    grid_at g (0, 0) = Some start /\ grid_at g (2, 2) = Some end_ /\
    option_map (List.map pos)
      (search (S (nodeCount g)) g start end_ diagonal_heuristic true)
    = Some [(0, 1); (0, 2)].
Proof.
  eexists. eexists. eexists. split; [reflexivity|].
  split; [reflexivity|]. split; [reflexivity|]. vm_compute. reflexivity.
Qed.

(** On [filledBanks] the node [(2, 2)] cannot be reached from the node
    [(0, 0)]: every route from [(0, 0)] stays on the row [x = 0]. *)
Lemma banks_unreachable :
  exists g start end_,
    graph filledBanks = Some g /\
    grid_at g (0, 0) = Some start /\ grid_at g (2, 2) = Some end_ /\
    ~ reach g start end_.
Proof.
  eexists. eexists. eexists. split; [reflexivity|].
  split; [reflexivity|]. split; [reflexivity|].
  match goal with |- ~ reach ?gr ?st _ => set (g := gr); set (s := st) end.
  assert (Hrow : forall l n, walk g s l n -> in_grid g n /\ node_x n = 0).
  { induction 1 as [|l a b _ [Hag Hax] [Hb Hwall]]; [split; reflexivity|].
    apply in_grid_nodes in Hag. simpl in Hag.
    repeat (apply elem_of_cons in Hag as [->|Hag]);
      try (now apply elem_of_nil in Hag); simpl in Hax; try discriminate;
      vm_compute in Hb;
      repeat (apply elem_of_cons in Hb as [->|Hb]);
      try (now apply elem_of_nil in Hb); simpl in Hwall; try discriminate;
      split; reflexivity. }
  intros [l Hwalk]. apply Hrow in Hwalk as [_ Hx]. discriminate Hx.
Qed.

(** * Further properties *)

(** ** The animation of a path *)

(** [createAnimation] gives the animation one key per point of the
    path, in path order: the key at position [i] sits at frame [i] and
    holds the point [i].  So the values of the keys are the path
    again, and the frames are [0, 1, ..., length - 1]. *)
Theorem createAnimation_keys (path : list Vector3.t) :
  let a := createAnimation path in
  Animation.value <$> Animation.keys a = path /\
  Animation.frame <$> Animation.keys a = Z.of_nat <$> seq 0 (length path) /\
  forall i p, path !! i = Some p <->
    Animation.keys a !! i
    = Some {| Animation.frame := Z.of_nat i; Animation.value := p |}.
Proof.
  cbv zeta. unfold createAnimation, Animation.setKeys. cbn [Animation.keys].
  split; [|split].
  - apply list_eq. intros i. rewrite list_lookup_fmap, list_lookup_imap.
    now destruct (path !! i).
  - apply list_eq. intros i.
    rewrite !list_lookup_fmap, list_lookup_imap.
    destruct (path !! i) as [p|] eqn:Hp.
    + apply lookup_lt_Some in Hp. now rewrite lookup_seq_lt.
    + apply lookup_ge_None in Hp. now rewrite lookup_seq_ge.
  - intros i p. rewrite list_lookup_imap.
    destruct (path !! i) as [q|]; simpl; split; congruence.
Qed.

(** ** What [fill] keeps of the previous state *)

(** The side of the grid [fill] leaves is the side it found, read as a
    32-bit integer. *)
Lemma fill_width (castMeshes : list AbstractMesh)
    (rayHeight rayLength : option Q) (this this' : PathFinder) :
  fill castMeshes rayHeight rayLength this = Ok this' ->
  width this' = ToInt32 (inject_Z (width this)) /\
  0 <= width this' < 2 ^ 31 /\ height this' = width this'.
Proof.
  intros Hfill. pose proof (ToInt32_range (inject_Z (width this))) as Hr.
  destruct (Z.lt_ge_cases (ToInt32 (inject_Z (width this))) 0) as [Hneg|Hpos].
  - unfold fill in Hfill. rewrite rebuildBuffers_throw in Hfill by lia.
    discriminate Hfill.
  - set (w := ToInt32 (inject_Z (width this))) in *.
    rewrite (fill_width_only _ _ _ this (sized w)) in Hfill
      by (cbn [sized width]; rewrite (ToInt32_inject_Z w); [reflexivity|lia]).
    destruct (fill_ok castMeshes rayHeight rayLength (sized w))
      as (buf & g & Hfill' & _); [cbn [sized width]; lia|].
    rewrite Hfill' in Hfill. injection Hfill as <-.
    cbn [sized width height]. repeat split; lia.
Qed.

(** [fill] keeps nothing of an earlier [fill] but the side of the grid:
    filling again, over any surfaces, gives what filling the original
    path finder over them gives.  In particular filling twice over the
    same surfaces gives the state of the first [fill]. *)
Theorem fill_forgets (castMeshes castMeshes' : list AbstractMesh)
    (rayHeight rayLength rayHeight' rayLength' : option Q)
    (this this' : PathFinder) :
  fill castMeshes rayHeight rayLength this = Ok this' ->
  fill castMeshes' rayHeight' rayLength' this'
  = fill castMeshes' rayHeight' rayLength' this /\
  fill castMeshes rayHeight rayLength this' = Ok this'.
Proof.
  intros Hfill.
  destruct (fill_width _ _ _ _ _ Hfill) as (Hw & Hrange & _).
  assert (Heq : ToInt32 (inject_Z (width this'))
                = ToInt32 (inject_Z (width this))).
  { rewrite ToInt32_inject_Z by lia. exact Hw. }
  split.
  - now apply fill_width_only.
  - rewrite <- Hfill. now apply fill_width_only.
Qed.

Lemma fill_forgets_witness :
  fill [] (Some 1%Q) None filledStrip = fill [] (Some 1%Q) None (sized 2) /\
  fill [strip] None None filledStrip = Ok filledStrip.
Proof.
  apply (fill_forgets [strip] [] None None (Some 1%Q) None (sized 2)
           filledStrip).
  reflexivity.
Defined.

(** ** The mask and the points of a reachable state *)

(** The mask and the point array of a reachable state whose side is
    not negative: either the state was just rebuilt, the mask is empty
    and there is no point, or it was filled, over some surfaces, and
    holds what their ray casts gave. *)
Lemma reachable_cells (this : PathFinder) :
  reachable this -> 0 <= width this ->
  let w := width this in
  shaped (Z.to_nat w) (Z.to_nat w) (buffer this) /\
  ((points this = [] /\ forall x y, cell (buffer this) x y = None) \/
   (exists castMeshes b rayHeight rayLength,
      points this = columns castMeshes b rayHeight rayLength w w
                      (Z.to_nat w) (Z.to_nat w) /\
      forall x y, (x < Z.to_nat w)%nat -> (y < Z.to_nat w)%nat ->
        cell (buffer this) x y
        = Some (cellFlag castMeshes b rayHeight rayLength w w x y))).
Proof.
  intros Hreach Hpos. cbv zeta.
  destruct (reachable_inv _ Hreach) as (_ & _ & w0 & _ & (Hs & Hp & _) & Hw0).
  rewrite (Hw0 Hpos). auto.
Qed.

Lemma cell_outside (W H : nat) (buf : array (array Z)) (x y : nat) :
  shaped W H buf -> (W <= x)%nat \/ (H <= y)%nat -> cell buf x y = None.
Proof.
  intros [Hlen Hrows] Hout. unfold cell, get.
  destruct (decide (x < W)%nat) as [Hx|Hx].
  - destruct (Hrows x Hx) as (row & -> & Hlr). simpl.
    now rewrite lookup_ge_None_2 by lia.
  - now rewrite lookup_ge_None_2 by lia.
Qed.

(** In every reachable state, the states a raising [rebuildBuffers]
    leaves included, the mask is a square, and a cell holds nothing,
    [0] or [1].  While the side is not negative, the mask is the
    square of the grid: it has [width] rows of [height] cells, so
    [buffer[x][y]] can be read and written for every cell of the
    grid, and no cell outside the grid holds anything.  After a call
    that raised, the side is negative and the mask is the one of the
    state before the call. *)
Theorem reachable_buffer (this : PathFinder) :
  reachable this ->
  (exists side : nat, shaped side side (buffer this)) /\
  (forall x y, cell (buffer this) x y = None \/
               cell (buffer this) x y = Some 0 \/
               cell (buffer this) x y = Some 1) /\
  (0 <= width this ->
   length (buffer this) = Z.to_nat (width this) /\
   (forall x, (x < Z.to_nat (width this))%nat ->
      exists row, buffer this !! x = Some (Some row) /\
                  length row = Z.to_nat (height this)) /\
   (forall x y, (Z.to_nat (width this) <= x)%nat \/
                (Z.to_nat (height this) <= y)%nat ->
      cell (buffer this) x y = None)).
Proof.
  intros Hreach.
  destruct (reachable_inv _ Hreach)
    as (_ & Hh & w0 & _ & (Hs & Hcells & _) & Hw0).
  split; [now exists (Z.to_nat w0)|]. split.
  - intros x y. destruct Hcells as [[_ Hnone]|(ms & b & rh & rl & _ & Hflag)];
      [left; apply Hnone|].
    destruct (decide (x < Z.to_nat w0)%nat) as [Hx|Hx];
      [destruct (decide (y < Z.to_nat w0)%nat) as [Hy|Hy]|].
    + rewrite (Hflag x y Hx Hy). unfold cellFlag.
      destruct (cellHit ms b rh rl w0 w0 x y); auto.
    + left. apply (cell_outside _ _ _ _ _ Hs). lia.
    + left. apply (cell_outside _ _ _ _ _ Hs). lia.
  - intros Hpos. rewrite Hh, (Hw0 Hpos).
    split; [apply Hs|]. split; [apply Hs|].
    intros x y Hout. now apply (cell_outside _ _ _ _ _ Hs).
Qed.

Lemma reachable_buffer_witness :
  (exists side : nat, shaped side side (buffer raisedStrip)) /\
  (forall x y, cell (buffer raisedStrip) x y = None \/
               cell (buffer raisedStrip) x y = Some 0 \/
               cell (buffer raisedStrip) x y = Some 1) /\
  (0 <= width raisedStrip ->
   length (buffer raisedStrip) = Z.to_nat (width raisedStrip) /\
   (forall x, (x < Z.to_nat (width raisedStrip))%nat ->
      exists row, buffer raisedStrip !! x = Some (Some row) /\
                  length row = Z.to_nat (height raisedStrip)) /\
   (forall x y, (Z.to_nat (width raisedStrip) <= x)%nat \/
                (Z.to_nat (height raisedStrip) <= y)%nat ->
      cell (buffer raisedStrip) x y = None)).
Proof.
  apply (reachable_buffer raisedStrip).
  apply (reachable_rebuild_raised (-2) filledStrip RangeError); [|reflexivity].
  apply (reachable_fill [strip] None None (sized 2)).
  - apply (reachable_new 2). reflexivity.
  - reflexivity.
Defined.

(** In every reachable state the mask and the point array agree: the
    cell whose point, at the position [x * height + y] of the point
    array, is present is walkable, and the cell that holds [0] has no
    point. *)
Theorem reachable_point_walkable (this : PathFinder) (x y : nat) :
  reachable this ->
  (x < Z.to_nat (width this))%nat -> (y < Z.to_nat (height this))%nat ->
  let i := (x * Z.to_nat (height this) + y)%nat in
  (forall p, points this !! i = Some (Some p) ->
     cell (buffer this) x y = Some 1 /\ walkable (buffer this) x y = true) /\
  (cell (buffer this) x y = Some 0 -> points this !! i = Some None).
Proof.
  intros Hreach Hx Hy. cbv zeta.
  assert (Hpos : 0 <= width this) by lia.
  destruct (reachable_valid _ Hreach Hpos) as (_ & Hh & _). rewrite Hh in *.
  destruct (reachable_cells _ Hreach Hpos)
    as (_ & [[Hp Hnone]|(ms & b & rh & rl & Hp & Hflag)]).
  - rewrite Hp, Hnone. split; [intros p Hi|intros Hc]; discriminate.
  - unfold walkable.
    rewrite Hp, (Hflag x y Hx Hy), lookup_columns by assumption.
    unfold cellPoint, cellFlag.
    destruct (cellHit ms b rh rl (width this) (width this) x y); simpl;
      split; try discriminate; auto.
Qed.

Lemma reachable_point_walkable_witness :
  (forall p, points filledStrip !! (0 * Z.to_nat (height filledStrip) + 1)%nat
             = Some (Some p) ->
     cell (buffer filledStrip) 0 1 = Some 1 /\
     walkable (buffer filledStrip) 0 1 = true) /\
  (cell (buffer filledStrip) 0 1 = Some 0 ->
   points filledStrip !! (0 * Z.to_nat (height filledStrip) + 1)%nat
   = Some None).
Proof.
  apply (reachable_point_walkable filledStrip 0 1).
  - apply (reachable_fill [strip] None None (sized 2)).
    + apply (reachable_new 2). reflexivity.
    + reflexivity.
  - simpl. lia.
  - simpl. lia.
Defined.

(** ** [fromTo] outside a filled grid *)

Lemma rebuildBuffers_keeps (size : Q) (this this' : PathFinder) :
  rebuildBuffers size this = Ok this' ->
  graph this' = graph this /\ boundingInfo this' = boundingInfo this.
Proof.
  intros Hr. destruct (Z.lt_ge_cases (ToInt32 size) 0) as [Hneg|Hpos].
  - rewrite rebuildBuffers_throw in Hr by assumption. discriminate.
  - rewrite rebuildBuffers_ok in Hr by assumption. injection Hr as <-.
    split; reflexivity.
Qed.

(** The path finders that were never filled: built by the
    constructor, then rebuilt any number of times, the calls that
    raise included. *)
Inductive unfilled : PathFinder -> Prop :=
| unfilled_new (size : Q) (this : PathFinder) :
    constructor size = Ok this -> unfilled this
| unfilled_rebuild (size : Q) (this this' : PathFinder) :
    unfilled this -> rebuildBuffers size this = Ok this' -> unfilled this'
| unfilled_rebuild_raised (size : Q) (this : PathFinder) (e : error) :
    unfilled this -> rebuildBuffers size this = Throw e ->
    unfilled (rebuildBuffers_raised size this).

(** A path finder that was never filled has no graph and no bounds,
    and [fromTo] raises a [TypeError] on it, whatever the endpoints:
    it reads the grid of a graph that is not there. *)
Theorem fromTo_before_fill (this : PathFinder) (from to : Vector3.t) :
  unfilled this ->
  graph this = None /\ boundingInfo this = None /\
  fromTo from to this = Some (Throw TypeError).
Proof.
  intros Hun.
  assert (Hnone : graph this = None /\ boundingInfo this = None).
  { induction Hun as [size this Hc|size this this' _ [IHg IHb] Hr
                     |size this e _ IH Hr].
    - destruct (rebuildBuffers_keeps _ _ _ Hc) as [-> ->]. split; reflexivity.
    - destruct (rebuildBuffers_keeps _ _ _ Hr) as [-> ->]. split; assumption.
    - exact IH. }
  destruct Hnone as [Hg Hb]. split; [assumption|]. split; [assumption|].
  unfold fromTo. destruct (gridCoords this from to) as [[sx sy] [ex ey]].
  now rewrite Hg.
Qed.

Lemma fromTo_before_fill_witness :
  graph (sized 3) = None /\ boundingInfo (sized 3) = None /\
  fromTo (Vector3.mk 0 0 0) (Vector3.mk 1 0 1) (sized 3)
  = Some (Throw TypeError).
Proof.
  apply (fromTo_before_fill (sized 3) (Vector3.mk 0 0 0) (Vector3.mk 1 0 1)).
  apply (unfilled_rebuild 3 (sized 2)).
  - apply (unfilled_new 2). reflexivity.
  - reflexivity.
Defined.

(** On a grid of side [0], [fill] raises nothing and [fromTo] raises a
    [TypeError], whatever the surfaces and the endpoints: the graph
    has no column, and [fromTo] reads a node of the column [0]. *)
Theorem fromTo_empty_grid (castMeshes : list AbstractMesh)
    (rayHeight rayLength : option Q) (this0 : PathFinder)
    (from to : Vector3.t) :
  width this0 = 0 ->
  exists this,
    fill castMeshes rayHeight rayLength this0 = Ok this /\
    points this = [] /\
    fromTo from to this = Some (Throw TypeError).
Proof.
  intros Hw.
  destruct (fill_ok castMeshes rayHeight rayLength this0 ltac:(lia))
    as (buf & g & Hfill & _ & _ & (Hlen & _)).
  rewrite Hw in *. cbn [Z.to_nat] in Hlen. apply nil_length_inv in Hlen.
  eexists. split; [exact Hfill|]. split; [reflexivity|].
  unfold fromTo.
  destruct (gridCoords _ from to) as [[sx sy] [ex ey]]. cbn [graph].
  rewrite Hlen. unfold astar.lookupZ.
  destruct (sx <? 0); [reflexivity|]. now rewrite lookup_nil.
Qed.

Lemma fromTo_empty_grid_witness :
  exists this,
    fill [strip] None None (sized 0) = Ok this /\
    points this = [] /\
    fromTo (Vector3.mk 0 0 0) (Vector3.mk 1 0 1) this = Some (Throw TypeError).
Proof.
  apply (fromTo_empty_grid [strip] None None (sized 0)
           (Vector3.mk 0 0 0) (Vector3.mk 1 0 1)).
  reflexivity.
Defined.

Lemma search_same (fuel : nat) (g : Graph) (start : GridNode)
    (heuristic : GridNode -> GridNode -> Q) (closest : bool) :
  astar.search (S fuel) g start start heuristic closest = Some [].
Proof.
  unfold astar.search. cbn [astar.loop astar.pop astar.scores astar.openHeap].
  rewrite decide_True by reflexivity. now rewrite fn_lookup_insert.
Qed.

(** [rebuildBuffers] keeps the graph of the last [fill], and empties
    the point array: after it, every endpoint resolves to the index
    [0], and [fromTo] searches the kept graph from its node [(0, 0)]
    to the same node.  So a path finder that was filled, on a grid
    that has a cell, and then rebuilt, to any size, answers every
    query with the empty path. *)
Theorem fromTo_after_rebuild (castMeshes : list AbstractMesh)
    (rayHeight rayLength : option Q) (size : Q)
    (this0 this1 this : PathFinder) (from to : Vector3.t) :
  0 < width this0 < 2 ^ 31 ->
  fill castMeshes rayHeight rayLength this0 = Ok this1 ->
  rebuildBuffers size this1 = Ok this ->
  graph this = graph this1 /\
  gridCoords this from to = ((0, 0), (0, 0)) /\
  fromTo from to this = Some (Ok []).
Proof.
  intros Hw Hfill Hr.
  destruct (rebuildBuffers_keeps _ _ _ Hr) as [Hg _].
  split; [assumption|].
  assert (Hcoords : gridCoords this from to = ((0, 0), (0, 0))).
  { rewrite (gridCoords_valid this from to (rebuildBuffers_valid _ _ _ Hr)).
    destruct (Z.lt_ge_cases (ToInt32 size) 0) as [Hneg|Hpos].
    - rewrite rebuildBuffers_throw in Hr by assumption. discriminate.
    - rewrite rebuildBuffers_ok in Hr by assumption. injection Hr as <-.
      cbn [points width height]. unfold resolveIndex. cbn [resolve_from].
      change (Z.of_nat 0) with 0. now rewrite Zdiv_0_l, Zmod_0_l. }
  split; [assumption|].
  destruct (fill_ok castMeshes rayHeight rayLength this0 ltac:(lia))
    as (buf & g & Hfill' & _ & _ & (_ & _ & _ & Hn)).
  rewrite Hfill' in Hfill. injection Hfill as <-. cbn [graph] in Hg.
  destruct (Hn 0%nat 0%nat ltac:(lia) ltac:(lia)) as (n & Hat & _).
  unfold node_at in Hat. apply bind_Some in Hat as (col & Hcol & Hat).
  unfold fromTo. rewrite Hcoords, Hg. unfold astar.lookupZ.
  cbn [Z.ltb Z.compare]. change (Z.to_nat 0) with 0%nat.
  rewrite Hcol, Hat, search_same. reflexivity.
Qed.

(** [filledStrip] rebuilt to the side 5. *)
Definition rebuiltStrip : PathFinder :=
  Eval vm_compute in
    match rebuildBuffers 5 filledStrip with
    | Ok this => this
    | Throw _ => initial
    end.

Lemma fromTo_after_rebuild_witness :
  graph rebuiltStrip = graph filledStrip /\
  gridCoords rebuiltStrip (Vector3.mk 0 5 1) (Vector3.mk 9 7 9)
  = ((0, 0), (0, 0)) /\
  fromTo (Vector3.mk 0 5 1) (Vector3.mk 9 7 9) rebuiltStrip = Some (Ok []).
Proof.
  apply (fromTo_after_rebuild [strip] None None 5 (sized 2) filledStrip
           rebuiltStrip (Vector3.mk 0 5 1) (Vector3.mk 9 7 9)).
  - simpl. lia.
  - reflexivity.
  - reflexivity.
Defined.

(** ** The nearest point: ties *)

(** Among the sampled points at the least distance of the query, the
    distances being those [Vector3.Distance] computes, in doubles,
    [findNearestPoint] returns the first of the point array: the
    distance of the returned point is below the distance of every
    sampled point before it (but for a distance that is [NaN]), and no
    sampled point, before or after it, has a distance below its
    own. *)
Theorem findNearestPoint_first (point : Vector3.t) (this : PathFinder) :
  (exists q, Some q ∈ points this /\
     Double.ltb (Vector3_Distance q point) Double.MAX_VALUE = true) ->
  let r := findNearestPoint point this in
  let d q := Vector3_Distance q point in
  exists i, points this !! i = Some (Some r) /\
    (forall j q, (j < i)%nat -> points this !! j = Some (Some q) ->
       d q <> S754_nan -> Double.ltb (d r) (d q) = true) /\
    (forall j q, points this !! j = Some (Some q) ->
       Double.ltb (d q) (d r) = false).
Proof.
  intros (q0 & Hq0 & Hwithin). cbv zeta. unfold findNearestPoint.
  destruct (foldl_nearer point (points this) Double.MAX_VALUE point)
    as (Hall & [[_ Hge]|(i & Hi & Hd & _ & Hlow)]).
  - rewrite (Hge q0 Hq0) in Hwithin. discriminate Hwithin.
  - exists i. split; [exact Hi|]. rewrite <- Hd. split; [exact Hlow|].
    intros j q Hq. apply Hall. eapply list_elem_of_lookup_2. exact Hq.
Qed.

(** Two sampled points whose distance of the origin, as computed, is
    [1], after a farther one: the first of the two is [2^-30] above
    the [x] axis, and the square of [2^-30] is lost in the sum. *)
Definition tiedState : PathFinder :=
  {| graph := None; width := 2; height := 2;
     buffer := [Some [Some 1; Some 1]; Some [Some 1; Some 0]];
     points := [Some (Vector3.mk 2 0 0);
                Some (Vector3.mk 1 (1 # 1073741824) 0);
                Some (Vector3.mk 1 0 0); None];
     boundingInfo := None |}.

Lemma findNearestPoint_first_witness :
  findNearestPoint Vector3.Zero tiedState = Vector3.mk 1 (1 # 1073741824) 0 /\
  exists i,
    points tiedState !! i
    = Some (Some (findNearestPoint Vector3.Zero tiedState)) /\
    (forall j q, (j < i)%nat -> points tiedState !! j = Some (Some q) ->
       Vector3_Distance q Vector3.Zero <> S754_nan ->
       Double.ltb
         (Vector3_Distance (findNearestPoint Vector3.Zero tiedState)
                           Vector3.Zero)
         (Vector3_Distance q Vector3.Zero) = true) /\
    (forall j q, points tiedState !! j = Some (Some q) ->
       Double.ltb
         (Vector3_Distance q Vector3.Zero)
         (Vector3_Distance (findNearestPoint Vector3.Zero tiedState)
                           Vector3.Zero) = false).
Proof.
  split; [vm_compute; reflexivity|].
  apply (findNearestPoint_first Vector3.Zero tiedState).
  exists (Vector3.mk 2 0 0). split; [left|vm_compute; reflexivity].
Defined.

(** ** Sampled points as endpoints *)

Lemma sameXZ_refl (p : Vector3.t) : sameXZ p p = true.
Proof. apply sameXZ_spec. split; reflexivity. Qed.

(** The index a sampled point resolves to: it is not after the
    point's own, it holds a sampled point with the point's [x] and
    [z], and it is the point's own when no sampled point before it
    has its [x] and [z]. *)
Lemma resolveIndex_sample (pts : array Vector3.t) (i : nat) (p : Vector3.t) :
  pts !! i = Some (Some p) ->
  let k := resolveIndex pts p in
  (k <= i)%nat /\
  (exists q, pts !! k = Some (Some q) /\ sameXZ q p = true) /\
  ((forall j q, (j < i)%nat -> pts !! j = Some (Some q) ->
      sameXZ q p = false) -> k = i).
Proof.
  intros Hi. cbv zeta.
  destruct (resolveIndex_resolves pts p) as [(q & Hq & Hs & Hlow)|[_ Hnone]].
  - assert (Hle : (resolveIndex pts p <= i)%nat).
    { destruct (decide (resolveIndex pts p <= i)%nat) as [|Hgt]; [assumption|].
      pose proof (Hlow i p ltac:(lia) Hi) as Hc.
      rewrite sameXZ_refl in Hc. discriminate Hc. }
    split; [exact Hle|]. split; [now exists q|].
    intros Huniq.
    destruct (decide (resolveIndex pts p = i)) as [|Hne]; [assumption|].
    pose proof (Huniq (resolveIndex pts p) q ltac:(lia) Hq) as Hc. congruence.
  - pose proof (Hnone i p Hi) as Hc. rewrite sameXZ_refl in Hc.
    discriminate Hc.
Qed.

(** In a reachable state whose side is not negative, the cell of the
    index of a sampled point is a cell of the grid, and it is
    walkable. *)
Lemma sample_cell (this : PathFinder) (k : nat) (q : Vector3.t) :
  reachable this -> 0 <= width this -> points this !! k = Some (Some q) ->
  let x := Z.of_nat k / width this in
  let y := Z.of_nat k mod width this in
  0 <= x < width this /\ 0 <= y < width this /\
  Z.of_nat k = x * width this + y /\
  cell (buffer this) (Z.to_nat x) (Z.to_nat y) = Some 1.
Proof.
  intros Hreach Hnn Hk. cbv zeta.
  destruct (reachable_valid _ Hreach Hnn) as (Hw & Hh & Hlen).
  pose proof (lookup_lt_Some _ _ _ Hk) as Hlt.
  destruct Hlen as [Hlen|Hlen]; [lia|].
  assert (Hpos : 0 < width this) by nia.
  assert (Hx : 0 <= Z.of_nat k / width this < width this).
  { split; [apply Z.div_pos; lia|apply Z.div_lt_upper_bound; nia]. }
  pose proof (Z.mod_pos_bound (Z.of_nat k) (width this) Hpos) as Hy.
  pose proof (Z.div_mod (Z.of_nat k) (width this) ltac:(lia)) as Hdm.
  split; [exact Hx|]. split; [exact Hy|]. split; [lia|].
  destruct (reachable_cells _ Hreach Hnn)
    as (_ & [[Hp _]|(ms & b & rh & rl & Hp & Hflag)]).
  - rewrite Hp in Hk. discriminate Hk.
  - rewrite Hflag by lia. rewrite Hp in Hk.
    replace k with (Z.to_nat (Z.of_nat k / width this) * Z.to_nat (width this)
                    + Z.to_nat (Z.of_nat k mod width this))%nat in Hk by nia.
    rewrite lookup_columns in Hk by lia. unfold cellPoint, cellFlag in *.
    destruct (cellHit ms b rh rl (width this) (width this)
                (Z.to_nat (Z.of_nat k / width this))
                (Z.to_nat (Z.of_nat k mod width this)));
      [reflexivity|discriminate Hk].
Qed.

(** In every reachable state whose side is not negative, that is
    unless a call has raised since the mask was last allocated, a
    sampled point given to [fromTo], as start or as end, resolves to a
    walkable cell of the grid: the cell whose ray gave the first
    sampled point with its [x] and [z].  When no sampled point before
    it has its [x] and [z], this is the cell whose ray gave the point
    itself: the cell [(x, y)] of the point at the position
    [x * height + y] of the point array. *)
Theorem fromTo_sample_cell (this : PathFinder) (other p : Vector3.t) (i : nat) :
  reachable this -> 0 <= width this -> points this !! i = Some (Some p) ->
  let k := resolveIndex (points this) p in
  let c := (gridCoords this p other).1 in
  (gridCoords this other p).2 = c /\
  (k <= i)%nat /\
  (exists q, points this !! k = Some (Some q) /\ sameXZ q p = true) /\
  0 <= c.1 < width this /\ 0 <= c.2 < height this /\
  Z.of_nat k = c.1 * height this + c.2 /\
  cell (buffer this) (Z.to_nat c.1) (Z.to_nat c.2) = Some 1 /\
  ((forall j q, (j < i)%nat -> points this !! j = Some (Some q) ->
      sameXZ q p = false) ->
   Z.of_nat i = c.1 * height this + c.2).
Proof.
  intros Hreach Hnn Hi. cbv zeta.
  pose proof (reachable_valid _ Hreach Hnn) as Hvalid.
  rewrite !(gridCoords_valid _ _ _ Hvalid).
  destruct Hvalid as (_ & Hh & _). rewrite Hh. cbn [fst snd].
  destruct (resolveIndex_sample _ _ _ Hi) as (Hle & (q & Hq & Hs) & Huniq).
  destruct (sample_cell this _ q Hreach Hnn Hq) as (Hx & Hy & Hk & Hcell).
  split; [reflexivity|]. split; [exact Hle|]. split; [now exists q|].
  split; [exact Hx|]. split; [exact Hy|]. split; [exact Hk|].
  split; [exact Hcell|].
  intros Hu. rewrite <- (Huniq Hu). exact Hk.
Qed.

Lemma fromTo_sample_cell_witness :
  let p := Vector3.mk (0 # 4) 0 (4 # 4) in
  let other := Vector3.mk 9 7 9 in
  let k := resolveIndex (points filledStrip) p in
  let c := (gridCoords filledStrip p other).1 in
  (gridCoords filledStrip other p).2 = c /\
  (k <= 1)%nat /\
  (exists q, points filledStrip !! k = Some (Some q) /\ sameXZ q p = true) /\
  0 <= c.1 < width filledStrip /\ 0 <= c.2 < height filledStrip /\
  Z.of_nat k = c.1 * height filledStrip + c.2 /\
  cell (buffer filledStrip) (Z.to_nat c.1) (Z.to_nat c.2) = Some 1 /\
  ((forall j q, (j < 1)%nat -> points filledStrip !! j = Some (Some q) ->
      sameXZ q p = false) ->
   Z.of_nat 1 = c.1 * height filledStrip + c.2).
Proof.
  apply (fromTo_sample_cell filledStrip (Vector3.mk 9 7 9)
           (Vector3.mk (0 # 4) 0 (4 # 4)) 1).
  - apply (reachable_fill [strip] None None (sized 2)).
    + apply (reachable_new 2). reflexivity.
    + reflexivity.
  - simpl. lia.
  - reflexivity.
Defined.

(** In every reachable state whose side is not negative, the point
    [findNearestPoint] returns, when a sampled point has a computed
    distance below [Number.MAX_VALUE], is an endpoint [fromTo]
    resolves to a sampled point with its [x] and [z], not to the
    default index [0], and to a walkable cell of the grid. *)
Theorem findNearestPoint_endpoint (this : PathFinder)
    (point other : Vector3.t) :
  reachable this -> 0 <= width this ->
  (exists q, Some q ∈ points this /\
     Double.ltb (Vector3_Distance q point) Double.MAX_VALUE = true) ->
  let r := findNearestPoint point this in
  let c := (gridCoords this r other).1 in
  (exists q, points this !! resolveIndex (points this) r = Some (Some q) /\
             sameXZ q r = true) /\
  (gridCoords this other r).2 = c /\
  0 <= c.1 < width this /\ 0 <= c.2 < height this /\
  cell (buffer this) (Z.to_nat c.1) (Z.to_nat c.2) = Some 1.
Proof.
  intros Hreach Hnn (q0 & Hq0 & Hwithin). cbv zeta.
  assert (Hin : exists i,
            points this !! i = Some (Some (findNearestPoint point this))).
  { unfold findNearestPoint.
    destruct (foldl_nearer point (points this) Double.MAX_VALUE point)
      as (_ & [[_ Hge]|(i & Hi & _)]); [|now exists i].
    rewrite (Hge q0 Hq0) in Hwithin. discriminate Hwithin. }
  destruct Hin as [i Hi].
  pose proof (reachable_valid _ Hreach Hnn) as Hvalid.
  rewrite !(gridCoords_valid _ _ _ Hvalid).
  destruct Hvalid as (_ & Hh & _). rewrite Hh. cbn [fst snd].
  destruct (resolveIndex_sample _ _ _ Hi) as (_ & (q & Hq & Hs) & _).
  destruct (sample_cell this _ q Hreach Hnn Hq) as (Hx & Hy & _ & Hcell).
  split; [now exists q|]. split; [reflexivity|]. auto.
Qed.

Lemma findNearestPoint_endpoint_witness :
  let r := findNearestPoint (Vector3.mk 0 3 (3 # 4)) filledStrip in
  let c := (gridCoords filledStrip r (Vector3.mk 9 7 9)).1 in
  (exists q,
     points filledStrip !! resolveIndex (points filledStrip) r
     = Some (Some q) /\
     sameXZ q r = true) /\
  (gridCoords filledStrip (Vector3.mk 9 7 9) r).2 = c /\
  0 <= c.1 < width filledStrip /\ 0 <= c.2 < height filledStrip /\
  cell (buffer filledStrip) (Z.to_nat c.1) (Z.to_nat c.2) = Some 1.
Proof.
  apply (findNearestPoint_endpoint filledStrip (Vector3.mk 0 3 (3 # 4))
           (Vector3.mk 9 7 9)).
  - apply (reachable_fill [strip] None None (sized 2)).
    + apply (reachable_new 2). reflexivity.
    + reflexivity.
  - simpl. lia.
  - exists (Vector3.mk (0 # 4) 0 (4 # 4)). split; [|vm_compute; reflexivity].
    right. left.
Defined.

(** ** [rebuildBuffers] on every size *)

(** The outcome of [rebuildBuffers] on any size, and from any state:
    with [m] the size truncated and taken modulo [2^32], it raises a
    [RangeError] when [2^31 <= m], the side being read as a negative
    32-bit integer, and otherwise leaves a grid of side [m], with an
    empty mask, no point, and the graph and the bounds it found.  So
    the sizes from [2^31] to [2^32] raise, and a size just above
    [2^32] gives a small grid. *)
Theorem rebuildBuffers_outcome (size : Q) (this : PathFinder) :
  let m := truncate size mod 2 ^ 32 in
  (m < 2 ^ 31 ->
   rebuildBuffers size this =
   Ok {| graph := graph this; width := m; height := m;
         buffer := emptyBuffer m; points := [];
         boundingInfo := boundingInfo this |}) /\
  (2 ^ 31 <= m -> rebuildBuffers size this = Throw RangeError).
Proof.
  cbv zeta.
  pose proof (Z.mod_pos_bound (truncate size) (2 ^ 32) ltac:(lia)) as Hm.
  split; intros Hlt.
  - assert (HT : ToInt32 size = truncate size mod 2 ^ 32).
    { unfold ToInt32.
      destruct (Z.ltb_spec (truncate size mod 2 ^ 32) (2 ^ 31)); lia. }
    rewrite rebuildBuffers_ok by lia. now rewrite HT.
  - apply rebuildBuffers_throw. unfold ToInt32.
    destruct (Z.ltb_spec (truncate size mod 2 ^ 32) (2 ^ 31)); lia.
Qed.

(** ** The points of the graph *)

(** The graph [fill] builds is transposed against the mask, on every
    grid and over all surfaces: the node [(x, y)] has the walkability
    of the cell [(x, y)] as weight, and carries the point the ray of
    the cell [(y, x)] gave.  Only the nodes of the diagonal carry the
    point of their own cell. *)
Theorem fill_points_transposed (castMeshes : list AbstractMesh)
    (rayHeight rayLength : option Q) (this : PathFinder) :
  0 <= width this < 2 ^ 31 ->
  let w := width this in
  let b := combinedBounds castMeshes in
  exists this' g,
    fill castMeshes rayHeight rayLength this = Ok this' /\
    graph this' = Some g /\
    forall x y, (x < Z.to_nat w)%nat -> (y < Z.to_nat w)%nat ->
      exists n,
        node_at g x y = Some n /\
        weight n = Some (cellFlag castMeshes b rayHeight rayLength w w x y) /\
        point n = cellPoint castMeshes b rayHeight rayLength w w y x.
Proof.
  intros Hw. cbv zeta.
  destruct (fill_ok castMeshes rayHeight rayLength this Hw)
    as (buf & g & Hfill & _ & Hc & (_ & _ & _ & Hn)).
  eexists. exists g. split; [exact Hfill|]. split; [reflexivity|].
  intros x y Hx Hy.
  destruct (Hn x y Hx Hy) as (n & Hat & _ & _ & Hweight & Hpoint).
  exists n. split; [exact Hat|]. split; [now rewrite Hweight, Hc|].
  rewrite (Hpoint I). unfold attachedPoint, getZ.
  destruct (Z.ltb_spec (Z.of_nat y * width this + Z.of_nat x) 0); [lia|].
  unfold get.
  replace (Z.to_nat (Z.of_nat y * width this + Z.of_nat x))
    with (y * Z.to_nat (width this) + x)%nat by nia.
  now rewrite lookup_columns.
Qed.

Lemma fill_points_transposed_witness :
  exists this' g,
    fill [strip] None None (sized 2) = Ok this' /\
    graph this' = Some g /\
    forall x y, (x < 2)%nat -> (y < 2)%nat ->
      exists n,
        node_at g x y = Some n /\
        weight n = Some (cellFlag [strip] (combinedBounds [strip]) None None
                                  2 2 x y) /\
        point n = cellPoint [strip] (combinedBounds [strip]) None None 2 2 y x.
Proof.
  apply (fill_points_transposed [strip] None None (sized 2)). simpl. lia.
Defined.

(** ** The hit of a ray *)

Lemma insertByDistance_elem (p x : PickingInfo) (l : list PickingInfo) :
  x ∈ insertByDistance p l <-> x = p \/ x ∈ l.
Proof.
  induction l as [|q l IH]; simpl.
  - rewrite list_elem_of_singleton, elem_of_nil. tauto.
  - destruct (Qle_bool (distance q) (distance p)).
    + rewrite !elem_of_cons, IH. tauto.
    + rewrite !elem_of_cons. tauto.
Qed.

Lemma insertByDistance_sorted (p : PickingInfo) (l : list PickingInfo) :
  StronglySorted (fun a c => (distance a <= distance c)%Q) l ->
  StronglySorted (fun a c => (distance a <= distance c)%Q)
                 (insertByDistance p l).
Proof.
  induction 1 as [|q l Hs IH Hq]; simpl.
  - constructor; constructor.
  - destruct (Qle_bool (distance q) (distance p)) eqn:Hle.
    + apply Qle_bool_iff in Hle. constructor; [assumption|].
      apply Forall_forall. intros x Hx.
      apply insertByDistance_elem in Hx as [->|Hx]; [assumption|].
      rewrite Forall_forall in Hq. now apply Hq.
    + assert (Hlt : (distance p <= distance q)%Q).
      { apply Qlt_le_weak, Qnot_le_lt. intros Hc.
        apply Qle_bool_iff in Hc. congruence. }
      constructor; [now constructor|]. constructor; [assumption|].
      eapply List.Forall_impl; [|exact Hq]. intros a Ha. simpl in Ha.
      eapply Qle_trans; eassumption.
Qed.

Lemma sortByDistance_spec (l : list PickingInfo) :
  (forall x, x ∈ sortByDistance l <-> x ∈ l) /\
  StronglySorted (fun a c => (distance a <= distance c)%Q) (sortByDistance l).
Proof.
  unfold sortByDistance.
  assert (Hgen : forall acc,
    StronglySorted (fun a c => (distance a <= distance c)%Q) acc ->
    (forall x, x ∈ foldl (fun acc p => insertByDistance p acc) acc l
               <-> x ∈ acc \/ x ∈ l) /\
    StronglySorted (fun a c => (distance a <= distance c)%Q)
      (foldl (fun acc p => insertByDistance p acc) acc l)).
  { induction l as [|p l IH]; intros acc Hacc; simpl.
    - split; [|assumption]. intros x. rewrite elem_of_nil. tauto.
    - destruct (IH (insertByDistance p acc)
                  (insertByDistance_sorted p acc Hacc)) as [Hel Hs].
      split; [|assumption]. intros x.
      rewrite Hel, insertByDistance_elem, elem_of_cons. tauto. }
  destruct (Hgen [] ltac:(constructor)) as [Hel Hs]. split; [|assumption].
  intros x. rewrite Hel, elem_of_nil. tauto.
Qed.

(** The ray of a cell and the surfaces: the ray cast reports no hit
    exactly when no surface reports one, so a cell is walkable as
    soon as one surface is under its ray; the hit the cell records is
    the picking result of one of the surfaces, and with the hits
    ordered by distance as the rendering library gives them, it is the
    nearest one. *)
Theorem castRay_nearest (castMeshes : list AbstractMesh) (r : Ray.t) :
  (castRay castMeshes r = None <->
   forall m, m ∈ castMeshes -> hit (intersects m r) = false) /\
  (forall p, castRay castMeshes r = Some p ->
     hit p = true /\
     (exists m, m ∈ castMeshes /\ p = intersects m r) /\
     forall m, m ∈ castMeshes -> hit (intersects m r) = true ->
       (distance p <= distance (intersects m r))%Q).
Proof.
  unfold castRay, intersectsMeshes.
  set (hits := filter (fun p => hit p = true)
                      (map (fun m => intersects m r) castMeshes)).
  destruct (sortByDistance_spec hits) as [Hel Hs].
  assert (Hhits : forall x, x ∈ sortByDistance hits <->
            hit x = true /\ exists m, m ∈ castMeshes /\ x = intersects m r).
  { intros x. rewrite Hel. unfold hits.
    rewrite list_elem_of_filter.
    change (map (fun m => intersects m r) castMeshes)
      with ((fun m => intersects m r) <$> castMeshes).
    rewrite list_elem_of_fmap. split.
    - intros (Hx & m & -> & Hm). split; [assumption|]. now exists m.
    - intros (Hx & m & Hm & ->). split; [assumption|]. now exists m. }
  destruct (sortByDistance hits) as [|p0 rest] eqn:Hsorted.
  - split.
    + split; [|reflexivity]. intros _ m Hm.
      destruct (hit (intersects m r)) eqn:Hhit; [|reflexivity].
      exfalso. apply (elem_of_nil (intersects m r)). apply Hhits.
      split; [assumption|]. now exists m.
    + intros p Hp. discriminate Hp.
  - assert (Hp0 : hit p0 = true /\
                  exists m, m ∈ castMeshes /\ p0 = intersects m r).
    { apply Hhits. left. }
    destruct Hp0 as [Hhit0 Hm0]. cbn [find]. rewrite Hhit0. split.
    + split; [discriminate|]. intros Hnone. exfalso.
      destruct Hm0 as (m & Hm & ->). rewrite (Hnone m Hm) in Hhit0.
      discriminate Hhit0.
    + intros p [= <-]. split; [assumption|]. split; [assumption|].
      intros m Hm Hhit.
      assert (Hin : intersects m r ∈ p0 :: rest).
      { apply Hhits. split; [assumption|]. now exists m. }
      apply elem_of_cons in Hin as [->|Hin]; [apply Qle_refl|].
      apply StronglySorted_inv in Hs as [_ Hall].
      rewrite Forall_forall in Hall. now apply Hall.
Qed.

(** ** The workspace file *)

Lemma strip_prefix_app (pat rest : string) :
  WorkSpace.strip_prefix pat (pat +:+ rest) = Some rest.
Proof.
  induction pat as [|c pat IH]; simpl; [reflexivity|].
  now rewrite Ascii.eqb_refl.
Qed.

Lemma strip_prefix_Some (pat s rest : string) :
  WorkSpace.strip_prefix pat s = Some rest -> s = pat +:+ rest.
Proof.
  revert s. induction pat as [|c pat IH]; intros s; simpl.
  - now intros [= ->].
  - destruct s as [|d s]; [discriminate|].
    destruct (Ascii.eqb_spec c d) as [->|]; [|discriminate].
    intros Hs. now rewrite (IH _ Hs).
Qed.

Lemma replace_eq (pat rep s : string) :
  WorkSpace.replace pat rep s =
  match WorkSpace.strip_prefix pat s with
  | Some rest => rep +:+ rest
  | None =>
      match s with
      | EmptyString => EmptyString
      | String c s' => String c (WorkSpace.replace pat rep s')
      end
  end.
Proof. destruct s; reflexivity. Qed.

(** [s.replace(pat, rep)] replaces the leftmost occurrence of [pat]. *)
Lemma replace_leftmost (pat rep a b : string) :
  (forall a' b', a +:+ pat +:+ b = a' +:+ pat +:+ b' ->
                 (String.length a <= String.length a')%nat) ->
  WorkSpace.replace pat rep (a +:+ pat +:+ b) = a +:+ rep +:+ b.
Proof.
  induction a as [|c a IH]; intros Hmin; rewrite replace_eq.
  - change (EmptyString +:+ pat +:+ b) with (pat +:+ b).
    rewrite strip_prefix_app. reflexivity.
  - destruct (WorkSpace.strip_prefix pat (String c a +:+ pat +:+ b))
      as [rest|] eqn:Hs.
    + apply strip_prefix_Some in Hs.
      specialize (Hmin EmptyString rest Hs). simpl in Hmin. lia.
    + change (String c a +:+ pat +:+ b) with (String c (a +:+ pat +:+ b)).
      change (String c a +:+ rep +:+ b) with (String c (a +:+ rep +:+ b)).
      f_equal. apply IH. intros a' b' Heq.
      specialize (Hmin (String c a') b').
      change (String c a +:+ pat +:+ b) with (String c (a +:+ pat +:+ b))
        in Hmin.
      change (String c a' +:+ pat +:+ b') with (String c (a' +:+ pat +:+ b'))
        in Hmin.
      rewrite Heq in Hmin. specialize (Hmin eq_refl). simpl in Hmin. lia.
Qed.

(** [s.replace(pat, rep)] is [s] when [pat] does not occur in [s]. *)
Lemma replace_absent (pat rep s : string) :
  (forall a b, s <> a +:+ pat +:+ b) -> WorkSpace.replace pat rep s = s.
Proof.
  induction s as [|c s IH]; intros Hno; rewrite replace_eq.
  - destruct (WorkSpace.strip_prefix pat EmptyString) as [rest|] eqn:Hs;
      [|reflexivity].
    apply strip_prefix_Some in Hs. now destruct (Hno EmptyString rest).
  - destruct (WorkSpace.strip_prefix pat (String c s)) as [rest|] eqn:Hs.
    + apply strip_prefix_Some in Hs. now destruct (Hno EmptyString rest).
    + f_equal. apply IH. intros a b ->. now apply (Hno (String c a) b).
Qed.

(** What [WriteWorkspaceFile] writes.  Without a workspace path or a
    workspace folder, null or empty, nothing is written, and nothing
    is raised, even without workspace data.  With both, and without
    workspace data, a [TypeError] is raised.  Otherwise the file at
    the workspace path gets five settings and no other: the four
    settings [serverPort], [generateSceneOnSave], [firstLoad] and
    [watchProject] of the workspace data, and as [lastOpenedScene]
    the project path with the leftmost occurrence of the workspace
    folder cut out: the path relative to the folder when the project
    is in it, and the project path as it is when the folder does not
    occur in it. *)
Theorem WriteWorkspaceFile_outcome {V} (this : WorkSpace.t V)
    (projectPath : string) :
  (WorkSpace.falsy (WorkSpace.DirPath this) = true \/
   WorkSpace.falsy (WorkSpace.Path this) = true ->
   WorkSpace.WriteWorkspaceFile projectPath this = Ok None) /\
  (forall dir path,
     WorkSpace.DirPath this = Some dir -> dir <> EmptyString ->
     WorkSpace.Path this = Some path -> path <> EmptyString ->
     match WorkSpace.Workspace this with
     | None => WorkSpace.WriteWorkspaceFile projectPath this = Throw TypeError
     | Some ws =>
         exists scene,
           WorkSpace.WriteWorkspaceFile projectPath this =
           Ok (Some (path,
                     {| WorkSpace.lastOpenedScene := scene;
                        WorkSpace.serverPort := WorkSpace.serverPort ws;
                        WorkSpace.generateSceneOnSave :=
                          WorkSpace.generateSceneOnSave ws;
                        WorkSpace.firstLoad := WorkSpace.firstLoad ws;
                        WorkSpace.watchProject := WorkSpace.watchProject ws;
                        WorkSpace.others := [] |})) /\
           (forall rest, projectPath = dir +:+ rest -> scene = rest) /\
           (forall a b,
              projectPath = a +:+ dir +:+ b ->
              (forall a' b', projectPath = a' +:+ dir +:+ b' ->
                             (String.length a <= String.length a')%nat) ->
              scene = a +:+ b) /\
           ((forall a b, projectPath <> a +:+ dir +:+ b) ->
            scene = projectPath)
     end).
Proof.
  unfold WorkSpace.WriteWorkspaceFile. split.
  - intros [-> | ->]; [reflexivity|]. now rewrite orb_true_r.
  - intros dir path -> Hdir -> Hpath.
    destruct dir as [|c dir]; [congruence|].
    destruct path as [|d path]; [congruence|]. cbn [WorkSpace.falsy orb].
    destruct (WorkSpace.Workspace this) as [ws|]; [|reflexivity].
    eexists. split; [reflexivity|]. split; [|split].
    + intros rest ->.
      apply (replace_leftmost (String c dir) EmptyString EmptyString rest).
      intros a' b' _. simpl. lia.
    + intros a b -> Hmin.
      apply (replace_leftmost (String c dir) EmptyString a b Hmin).
    + apply replace_absent.
Qed.

(** A workspace in the folder [/w], with its data. *)
Definition openedWorkspace : WorkSpace.t Z :=
  {| WorkSpace.Path := Some "/w/workspace.editorworkspace";
     WorkSpace.DirPath := Some "/w";
     WorkSpace.AvailableProjects := [];
     WorkSpace.Workspace :=
       Some {| WorkSpace.lastOpenedScene := "/projects/a/scene.editorproject";
               WorkSpace.serverPort := 1338;
               WorkSpace.generateSceneOnSave := 1;
               WorkSpace.firstLoad := 0;
               WorkSpace.watchProject := 1;
               WorkSpace.others := [("pluginsPreferences", 7)] |};
     WorkSpace.ServerPort := Some 1338;
     WorkSpace._WatchProjectProgram := Some {| WorkSpace.pid := 11 |};
     WorkSpace._WatchTypescriptProgram := Some {| WorkSpace.pid := 12 |} |}.

Lemma WriteWorkspaceFile_outcome_witness :
  exists scene,
    WorkSpace.WriteWorkspaceFile "/w/projects/b/scene.editorproject"
                                 openedWorkspace =
    Ok (Some ("/w/workspace.editorworkspace",
              {| WorkSpace.lastOpenedScene := scene;
                 WorkSpace.serverPort := 1338;
                 WorkSpace.generateSceneOnSave := 1;
                 WorkSpace.firstLoad := 0;
                 WorkSpace.watchProject := 1;
                 WorkSpace.others := [] |})) /\
    (forall rest, "/w/projects/b/scene.editorproject" = "/w" +:+ rest ->
                  scene = rest) /\
    (forall a b,
       "/w/projects/b/scene.editorproject" = a +:+ "/w" +:+ b ->
       (forall a' b',
          "/w/projects/b/scene.editorproject" = a' +:+ "/w" +:+ b' ->
          (String.length a <= String.length a')%nat) ->
       scene = a +:+ b) /\
    ((forall a b, "/w/projects/b/scene.editorproject" <> a +:+ "/w" +:+ b) ->
     scene = "/w/projects/b/scene.editorproject").
Proof.
  apply (proj2 (WriteWorkspaceFile_outcome openedWorkspace
                  "/w/projects/b/scene.editorproject")
               "/w" "/w/workspace.editorworkspace");
    [reflexivity|discriminate|reflexivity|discriminate].
Defined.

(** ** The watched programs *)

(** [KillAllProcesses] leaves no program watched: it kills the
    program that watches the project, if there is one, then the one
    that watches the TypeScript sources, if there is one, each once
    and no other, and changes nothing else of the class; called again
    it kills nothing. *)
Theorem KillAllProcesses_stops {V} (this : WorkSpace.t V)
    (killed : list WorkSpace.IExecProcess) :
  let st := WorkSpace.KillAllProcesses (this, killed) in
  WorkSpace.IsWatchingProject st.1 = false /\
  WorkSpace.IsWatchingTypeScript st.1 = false /\
  st.2 = killed ++ option_list (WorkSpace._WatchProjectProgram this)
                ++ option_list (WorkSpace._WatchTypescriptProgram this) /\
  (WorkSpace.Path st.1 = WorkSpace.Path this /\
   WorkSpace.DirPath st.1 = WorkSpace.DirPath this /\
   WorkSpace.AvailableProjects st.1 = WorkSpace.AvailableProjects this /\
   WorkSpace.Workspace st.1 = WorkSpace.Workspace this /\
   WorkSpace.ServerPort st.1 = WorkSpace.ServerPort this) /\
  WorkSpace.KillAllProcesses st = st.
Proof.
  cbv zeta.
  unfold WorkSpace.KillAllProcesses, WorkSpace.StopWatchingTypeScript,
    WorkSpace.StopWatchingProject, WorkSpace.IsWatchingProject,
    WorkSpace.IsWatchingTypeScript.
  destruct (WorkSpace._WatchProjectProgram this) as [p|];
    destruct (WorkSpace._WatchTypescriptProgram this) as [q|];
    cbn; rewrite ?app_nil_r, <- ?app_assoc; repeat split; reflexivity.
Qed.

(** ** [fromTo] in every reachable state *)

(** In every reachable state, the states a raising [rebuildBuffers]
    leaves included, [fromTo] returns, whatever the endpoints: it
    raises a [TypeError] or its search ends and it returns a path, and
    it raises nothing else.  While the side is not negative, it raises
    the [TypeError] exactly when the path finder has no graph or a
    graph without a node, that is before the first [fill] or on a
    grid of side [0]. *)
Theorem fromTo_returns (this : PathFinder) (from to : Vector3.t) :
  reachable this ->
  (fromTo from to this = Some (Throw TypeError) \/
   exists path, fromTo from to this = Some (Ok path)) /\
  (0 <= width this ->
   (fromTo from to this = Some (Throw TypeError) /\
    (graph this = None \/ exists g, graph this = Some g /\ grid g = [])) \/
   (exists g path,
      graph this = Some g /\ grid g <> [] /\
      fromTo from to this = Some (Ok path))).
Proof.
  intros Hreach.
  destruct (reachable_inv _ Hreach)
    as (_ & _ & w0 & _ & (_ & _ & Hgraph) & Hw0).
  assert (Hsearch : forall g W buf P,
            graph this = Some g -> attached W W buf P (fun _ _ => True) g ->
            forall s e,
              grid_at g (gridCoords this from to).1 = Some s ->
              grid_at g (gridCoords this from to).2 = Some e ->
              exists path, fromTo from to this = Some (Ok path)).
  { intros g W buf P Hg Ha s e Hs He.
    pose proof (attached_wf _ _ _ _ _ _ Ha) as Hwf.
    assert (Hsg : in_grid g s).
    { unfold in_grid. now rewrite (Hwf _ _ Hs). }
    destruct (search_spec g diagonal_heuristic s e Hwf Hsg)
      as (path & Hpath & _).
    exists (toWorldPath path from to).
    rewrite fromTo_eq, Hg, Hs, He, Hpath. reflexivity. }
  split.
  - destruct Hgraph as [Hg|(g & W & buf & P & Hg & Ha & _)];
      [left; now rewrite fromTo_eq, Hg|].
    destruct (grid_at g (gridCoords this from to).1) as [s|] eqn:Hs;
      [|left; now rewrite fromTo_eq, Hg, Hs].
    destruct (grid_at g (gridCoords this from to).2) as [e|] eqn:He;
      [|left; now rewrite fromTo_eq, Hg, Hs, He].
    right. exact (Hsearch g W buf P Hg Ha s e Hs He).
  - intros Hpos. specialize (Hw0 Hpos). subst w0.
    pose proof (reachable_valid _ Hreach Hpos) as Hvalid.
    destruct Hgraph as [Hg|(g & W & buf & P & Hg & Ha & Hp)].
    { left. split; [|now left]. now rewrite fromTo_eq, Hg. }
    pose proof Ha as (Hl & _ & _ & Hn).
    destruct W as [|W].
    { apply nil_length_inv in Hl. left. split; [|right; now exists g].
      rewrite fromTo_eq, Hg. unfold grid_at at 1. rewrite Hl.
      unfold lookupZ. destruct ((gridCoords this from to).1.1 <? 0);
        [reflexivity|]. now rewrite lookup_nil. }
    right.
    assert (Hnode : forall t, exists n,
              let i := Z.of_nat (resolveIndex (points this) t) in
              grid_at g (i / width this, i mod width this) = Some n).
    { intros t. cbv zeta.
      assert (Hin : forall x y, 0 <= x < Z.of_nat (S W) ->
                0 <= y < Z.of_nat (S W) ->
                exists n, grid_at g (x, y) = Some n).
      { intros x y Hx Hy.
        destruct (Hn (Z.to_nat x) (Z.to_nat y)) as (n & Hat & _); [lia..|].
        exists n. now rewrite <- grid_at_node_at, !Z2Nat.id in Hat by lia. }
      destruct Hp as [Hp|Hp].
      - rewrite Hp. unfold resolveIndex. cbn [resolve_from].
        change (Z.of_nat 0) with 0. rewrite Zdiv_0_l, Zmod_0_l.
        apply Hin; lia.
      - set (i := Z.of_nat (resolveIndex (points this) t)).
        assert (Hi : 0 <= i < width this * width this).
        { destruct Hvalid as (_ & _ & Hlen).
          pose proof (resolveIndex_bound (points this) t). subst i. nia. }
        rewrite Hp in Hin. apply Hin.
        + split; [apply Z.div_pos; lia|apply Z.div_lt_upper_bound; lia].
        + apply Z.mod_pos_bound. lia. }
    destruct (Hnode from) as (s & Hs). destruct (Hnode to) as (e & He).
    pose proof (gridCoords_valid this from to Hvalid) as Hcoords.
    destruct Hvalid as (_ & Hh & _). rewrite Hh in Hcoords.
    cbv zeta in Hs, He.
    destruct (Hsearch g (S W) buf P Hg Ha s e) as [path Hpath].
    { now rewrite Hcoords. }
    { now rewrite Hcoords. }
    exists g, path. split; [assumption|].
    split; [intros Hnil; now rewrite Hnil in Hl|assumption].
Qed.

Lemma fromTo_returns_witness :
  (fromTo (Vector3.mk 0 5 1) (Vector3.mk 9 7 9) raisedStrip
   = Some (Throw TypeError) \/
   exists path,
     fromTo (Vector3.mk 0 5 1) (Vector3.mk 9 7 9) raisedStrip
     = Some (Ok path)) /\
  (0 <= width raisedStrip ->
   (fromTo (Vector3.mk 0 5 1) (Vector3.mk 9 7 9) raisedStrip
    = Some (Throw TypeError) /\
    (graph raisedStrip = None \/
     exists g, graph raisedStrip = Some g /\ grid g = [])) \/
   (exists g path,
      graph raisedStrip = Some g /\ grid g <> [] /\
      fromTo (Vector3.mk 0 5 1) (Vector3.mk 9 7 9) raisedStrip
      = Some (Ok path))).
Proof.
  apply (fromTo_returns raisedStrip (Vector3.mk 0 5 1) (Vector3.mk 9 7 9)).
  apply (reachable_rebuild_raised (-2) filledStrip RangeError); [|reflexivity].
  apply (reachable_fill [strip] None None (sized 2)).
  - apply (reachable_new 2). reflexivity.
  - reflexivity.
Defined.

(** ** The record of a cell *)

Lemma fill_records_cell_witness :
  exists this',
    fill [strip] None None (sized 2) = Ok this' /\
    height this' = 2 /\
    match cellHit [strip] (combinedBounds [strip]) None None 2 2 0 1 with
    | Some p =>
        get (points this') (0 * Z.to_nat (height this') + 1) = pickedPoint p /\
        cell (buffer this') 0 1 = Some 1
    | None =>
        get (points this') (0 * Z.to_nat (height this') + 1) = None /\
        cell (buffer this') 0 1 = Some 0
    end.
Proof.
  apply (fill_records_cell [strip] None None (sized 2) 0 1); simpl; lia.
Defined.
